(* ===== verification/_CoqProject ===== *)
-Q . S2P
Prelude.v
Segment.v
Exceptions.v
Suffix.v
Prefix.v
Cluster.v
Vowel.v
Word.v
Text.v
Case.v
Regex.v
Ui.v
Legacy.v
