(* ===== verification/Prelude.v ===== *)
(** * A verification development of the Naamrot converter

    The repository (naamrot/naamrot.com) ships one program in two
    versions: [src/unnamed/part_000] is the current [app.js] (the version
    the spec describes, followed by the rulebook in Markdown) and
    [src/app.js] is an older copy.  Both turn English text into the
    stylised "Naamrot" spelling.  The engine is a pure function
    [convertText : string -> string]; the UI code after it wires a text
    box, Convert/Clear/Copy buttons, a status line with timers and (in
    part_000) a hamburger menu to the engine.

    ** How the program is built and how the files model it

    - [Prelude] (this file): characters as [Ascii.ascii] with the code's
      character tests ([isLetter], [isConsonantLetter], the [VOWELS] and
      [SWAPPABLE] sets, [toUpperCase]/[toLowerCase] on 7-bit characters),
      JavaScript's [String.prototype.endsWith]/[startsWith] on lists of
      characters, the [naamrot] hint database and the shared list lemmas.
    - [Segment]: the segment model ([segFromString], [segToString],
      [spliceSegs]); a word-part is a [list seg], each segment a character
      with its [origin] flag.  JavaScript mutates one array in place; every
      rule is modelled as a function from the old array to the new one
      (the array is never aliased: each splice inserts fresh objects).
      The [Stage] class is the contract every rule stage keeps: the
      characters still marked original form a subsequence of the input,
      and letters stay letters.
    - [Exceptions]: the exception table [EXCEPTIONS] and [applyExceptions]
      (first match wins, literal and anchored case-insensitive patterns,
      fixed or computed outputs, malformed entries skipped).
    - [Suffix]: the eight suffix rules and [suffixRules], their composition
      in the order of [transformWordPart] (it also returns the
      [endingChangedToAH] flag).  The in-place [for] loops of
      [replaceAllERWithAH]/[replaceAllIRWithAR] are modelled index by index
      with fuel and proved equal to a structural reference.  The class
      [GrowsToH] describes the lengthening rules.
    - [Prefix]: SN->SAN, SW->SAW, RE->RO (and the old U-YOO rule of
      [src/app.js]) and their composition [prefixRules].
    - [Cluster]: [applyClusterInsertions].
    - [Vowel]: [PROTECTED_SUFFIXES] (sorted as the code sorts it),
      [protectedSuffixStartIndex] and [applyVowelSwaps], whose in-place loop
      is modelled with stdpp's list update and proved equal to a pure
      index map.
    - [Word]: [transformWordPart], the per-part pipeline
      (exceptions, then suffix, prefix, cluster and vowel stages).
    - [Text]: the token scanner that plays the role of
      [input.matchAll(WORD_TOKEN_RE)] (a structural lexer over the input),
      [transformWordToken] ([split] on hyphen/apostrophe keeping the
      separators) and [convertText] over the scanner's pieces.
    - [Case]: equality up to letter case, [caseEq] on segment sequences, as
      a setoid; every stage is a [Proper] morphism of it.
    - [Regex]: the code of [convertText] as written: [WORD_TOKEN_RE] as a
      regular expression run by ECMAScript's backtracking matcher (greedy
      [+] and [*], empty iterations refused), [matchAll] as its sequence
      of match records, and the [for ... of] loop with [out] and [last].
    - [Ui]: the UI of both versions as an event loop.  The page is a
      record; each listener is a program of a small state-and-exception
      monad (a [TypeError] is a thrown value, earlier writes stay); timers
      carry due times and fire in time order; the asynchronous Copy is
      split at its [await].  The class [StatusLaws] is the interface the
      UI theorems rely on ([setStatus] and the converter of a version);
      both versions discharge it.
    - [Legacy]: the UI of [src/app.js] under its own names: its handlers
      are the shared ones at the version [legacy], and its listener table
      (no menu, no document [keydown] listener) is proved equal to the
      shared event loop at that version.

    ** What is proved

    - Text: the scanner loses nothing (round trip), its tokens are words of
      the regular language [[A-Za-z]+([-'][A-Za-z]+)*], its gaps contain no
      letter and every token is maximal; [convertText] keeps every gap
      character in place, changes letters only (the non-letters of output
      and input agree, in order); on 7-bit text the final [toUpperCase()]
      is redundant, the tokens being upper-case already.
    - Regex: the loop over the regex's matches computes the piece-wise
      [convertText] (refinement), in both versions: at a letter the
      backtracking matcher stops exactly where the scanner ends its token.
    - Case: the converter ignores the case of its input, in both versions.
    - Word: exception priority; on the rule path a word-part never shrinks
      and grows by at most two characters; the output of a part consists
      of upper-case letters only; the origin invariant of the pipeline.
    - Stages: each rule's behaviour on every branch; the optimised loops
      equal their references and terminate within the fuel given; the
      [ER] branch of [applyEndingAH] and the guard of [replaceEndingYToEH]
      are unreachable in the pipeline; the protected-suffix boundary is
      set by the longest matching suffix, whatever the table's order.
    - Vowel swaps: no vowel inside the protected suffix, no synthesized
      segment and no vowel of a digraph is swapped; with exactly four
      original vowels and no AH ending the last two are kept.
    - UI: invariants over every reachable page (the menu is fully open or
      fully closed; the page shows and copies only converter output), the
      liveness of the status line (the browser alone brings it back to
      READY), the error path of the unguarded [setStatus] of [src/app.js]
      (one step, and over whole runs: no timer, no focus), and how the
      status timers interfere on every reachable page: Convert's timer cuts
      COPIED short, and a failed Copy's timer survives every later Convert
      (timer ids stay fresh, an invariant over runs).
    - Where the code disagrees with the spec or the rulebook,
      PROJECT.json records the finding; [Text.convert_spec_scenarios]
      evaluates three of the spec's scenarios the code meets.

    ** Bounds and fuel

    The two replace-all loops take [length segs] as fuel: each iteration
    advances the index by at least one and the loop stops when the index
    reaches [length segs - 1], so that much fuel is enough; any larger
    fuel gives the same array ([Suffix.replaceAllERWithAH_fuel]).  The
    vowel loop runs over [seq 0 (length segs)] and needs none.  The lexer
    is structural.  The greedy star of the regex matcher takes
    [length s] iterations as fuel: an iteration that consumes nothing is
    refused, so no more can happen; [matchAll] takes [length input] steps,
    each consuming at least one character.  Both bounds are shown enough
    by the refinement theorem, whose right-hand side has no fuel.  Time in the UI model is a [nat] of milliseconds and is
    unbounded.

    ** Not modelled

    Characters outside 7-bit ASCII: the code's letter test only accepts
    [A-Za-z] and the model upper-cases exactly those; JavaScript's
    [toUpperCase] also changes non-ASCII letters in the pass-through text,
    which the model does not represent (recorded as a finding).  Regular
    expressions are modelled in the forms the code uses: the token regex
    by a backtracking matcher for classes, sequence and greedy star (no
    alternation, captures or lookaround, which it does not use), the
    exception patterns as anchored alternations of words.  In the UI: the
    rendering, the default action of keys in the text box (a typed
    character is an [Edit] event) and [inputEl.focus()] beyond a flag;
    the menu elements ([menuBtn], [menuPanel], [overlay], [menuClose]) are
    present together or absent together ([menu] is an option), so a page
    with only some of them, where part_000's optional-chained listeners
    and [openMenu]'s unguarded writes would act differently, is not
    represented.
    In [src/app.js] (lines 50-290) the helpers and the rules it shares
    with part_000 are the same code, formatted differently; they are
    modelled by the same definitions, which the map names at their
    part_000 lines, and the older pipeline ([transformWordPart_v1]) calls
    them; its own U-YOO rule is [applyStartingUYoo].  The
    rulebook at the end of part_000 is documentation; it is used as a
    specification source. *)

From Stdlib Require Export Ascii String.
From stdpp Require Export base list strings.

(** [String.length] would shadow the list [length]. *)
Abbreviation length := Datatypes.length.

Declare Scope naamrot_scope.
Delimit Scope naamrot_scope with nm.
Open Scope naamrot_scope.

(** A string literal as the list of its characters. *)
Notation "⟦ s ⟧" := (list_ascii_of_string s%string) (format "⟦ s ⟧") : naamrot_scope.

Create HintDb naamrot discriminated.
Create Rewrite HintDb naamrot_rw.

(** ** Characters *)

(** [isLetter]: [charCodeAt(0)] in [65..90] or [97..122]. *)
Definition isLetter (c : ascii) : bool :=
  let n := nat_of_ascii c in
  ((65 <=? n) && (n <=? 90)) || ((97 <=? n) && (n <=? 122)).

(** [toUpperCase] / [toLowerCase] on one 7-bit character. *)
Definition to_upper (c : ascii) : ascii :=
  let n := nat_of_ascii c in
  if (97 <=? n) && (n <=? 122) then ascii_of_nat (n - 32) else c.

Definition to_lower (c : ascii) : ascii :=
  let n := nat_of_ascii c in
  if (65 <=? n) && (n <=? 90) then ascii_of_nat (n + 32) else c.

Definition upper (s : list ascii) : list ascii := map to_upper s.
Definition lower (s : list ascii) : list ascii := map to_lower s.

(** [Set.prototype.has] on a set of characters. *)
Definition has (set : list ascii) (c : ascii) : bool := bool_decide (c ∈ set).

Definition VOWELS : list ascii := ⟦"AEIOU"⟧.
Definition SWAPPABLE : list ascii := ⟦"AEI"⟧.

(** [isConsonantLetter]: a letter whose upper case is not a vowel. *)
Definition isConsonantLetter (c : ascii) : bool :=
  isLetter c && negb (has VOWELS (to_upper c)).

(** [String.prototype.endsWith] and [startsWith]. *)
Definition ends_with (s suf : list ascii) : bool :=
  (length suf <=? length s) && bool_decide (drop (length s - length suf) s = suf).

Definition starts_with (s pre : list ascii) : bool :=
  (length pre <=? length s) && bool_decide (take (length pre) s = pre).

(** ** Tactics *)

(** Exhaustive case analysis on a character: 256 closed goals. *)
Ltac ascii_cases c :=
  destruct c as [[] [] [] [] [] [] [] []]; vm_compute; try reflexivity.

(** ** Character lemmas *)

Lemma to_upper_idem c : to_upper (to_upper c) = to_upper c.
Proof. ascii_cases c. Qed.

Lemma isLetter_to_upper c : isLetter (to_upper c) = isLetter c.
Proof. ascii_cases c. Qed.

Lemma to_upper_nonletter c : isLetter c = false -> to_upper c = c.
Proof. ascii_cases c; discriminate. Qed.

Lemma to_upper_to_lower c : to_upper (to_lower c) = to_upper c.
Proof. ascii_cases c. Qed.

Lemma to_lower_to_upper c : to_lower (to_upper c) = to_lower c.
Proof. ascii_cases c. Qed.

Lemma upper_idem s : upper (upper s) = upper s.
Proof. unfold upper. rewrite map_map. apply map_ext, to_upper_idem. Qed.

Lemma upper_app s t : upper (s ++ t) = upper s ++ upper t.
Proof. apply map_app. Qed.

Lemma length_upper s : length (upper s) = length s.
Proof. apply length_map. Qed.

#[export] Hint Rewrite to_upper_idem isLetter_to_upper to_upper_to_lower to_lower_to_upper
  upper_idem upper_app length_upper : naamrot_rw.

(** ** endsWith / startsWith *)

Lemma ends_with_spec s suf : ends_with s suf = true <-> exists p, s = p ++ suf.
Proof.
  unfold ends_with. rewrite andb_true_iff, Nat.leb_le, bool_decide_eq_true.
  split.
  - intros [Hl Hd]. exists (take (length s - length suf) s).
    rewrite <- Hd at 2. symmetry. apply take_drop.
  - intros [p ->]. rewrite length_app.
    replace (length p + length suf - length suf) with (length p) by lia.
    rewrite drop_app_length. split; [lia | done].
Qed.

Lemma ends_with_app p suf : ends_with (p ++ suf) suf = true.
Proof. apply ends_with_spec. eauto. Qed.

Lemma ends_with_length s suf : ends_with s suf = true -> length suf <= length s.
Proof. intros [p ->]%ends_with_spec. rewrite length_app. lia. Qed.

Lemma starts_with_spec s pre : starts_with s pre = true <-> exists r, s = pre ++ r.
Proof.
  unfold starts_with. rewrite andb_true_iff, Nat.leb_le, bool_decide_eq_true.
  split.
  - intros [_ Ht]. exists (drop (length pre) s). rewrite <- Ht at 1.
    symmetry. apply take_drop.
  - intros [r ->]. rewrite length_app, take_app_length. split; [lia | done].
Qed.

#[export] Hint Resolve ends_with_app : naamrot.

(** ** Generic list lemmas *)

Lemma sublist_map {A B} (f : A -> B) (l1 l2 : list A) :
  l1 `sublist_of` l2 -> map f l1 `sublist_of` map f l2.
Proof. induction 1; simpl; by constructor. Qed.

Lemma sublist_filter_mono {A} (P : A -> Prop) `{!forall x, Decision (P x)} (l1 l2 : list A) :
  l1 `sublist_of` l2 -> filter P l1 `sublist_of` filter P l2.
Proof.
  induction 1 as [|x l1 l2 _ IH|x l1 l2 _ IH]; rewrite ?filter_cons; [done| |];
    case_decide; first [done | by constructor].
Qed.

Lemma ends_with_app_long p r suf :
  length suf <= length r -> ends_with (p ++ r) suf = ends_with r suf.
Proof.
  intros Hl. unfold ends_with. rewrite length_app.
  replace (length suf <=? length p + length r) with true by (symmetry; apply Nat.leb_le; lia).
  replace (length suf <=? length r) with true by (symmetry; apply Nat.leb_le; lia).
  replace (length p + length r - length suf) with (length p + (length r - length suf)) by lia.
  by rewrite drop_app_add.
Qed.

(** A string that ends with [r] ends with [suf] exactly when [r] does,
    for [suf] no longer than [r]. *)
Lemma ends_with_through s r suf :
  ends_with s r = true -> length suf <= length r -> ends_with s suf = ends_with r suf.
Proof. intros [p ->]%ends_with_spec Hl. by apply ends_with_app_long. Qed.

(** [Array.prototype.filter] with a boolean test keeps what holds of the
    array, and drops at least one element when one fails the test. *)
Lemma Forall_filter_bool {A} (P : A -> Prop) (f : A -> bool) l :
  Forall P l -> Forall P (List.filter f l).
Proof. induction 1 as [|x l Hx _ IH]; simpl; [constructor|]. destruct (f x); auto. Qed.

Lemma length_filter_lt {A} (f : A -> bool) l x :
  In x l -> f x = false -> length (List.filter f l) < length l.
Proof.
  intros Hin Hf. induction l as [|y l IH]; [done|]. simpl.
  destruct Hin as [->|Hin]; [rewrite Hf; pose proof (List.filter_length_le f l); lia|].
  destruct (f y); simpl; pose proof (IH Hin); lia.
Qed.
