(* ===== verification/Segment.v ===== *)
(** * Segment: the character sequence every rule reads and writes

    Models [segFromString], [segToString] and [spliceSegs] of
    [src/unnamed/part_000] (lines 66-75).  A segment is a character with an
    [origin] flag: [true] for a character the user typed, [false] for one a
    rule synthesized.  JavaScript's [Array.prototype.splice] is modelled
    with [take]/[drop]; its clamping of a negative delete count to zero is
    the saturating subtraction [end_ - start].

    The file also states the contract every rule stage keeps (the class
    [Stage]): the characters still marked original form a subsequence of
    the characters marked original before the stage, and a sequence of
    letters stays a sequence of letters. *)

From S2P Require Import Prelude.

Record seg := mkSeg { ch : ascii; origin : bool }.

#[export] Instance seg_eq_dec : EqDecision seg.
Proof. solve_decision. Defined.

(** [segFromString(str, origin)]: one segment per character. *)
Definition segFromString (str : list ascii) (origin : bool) : list seg :=
  map (fun c => mkSeg c origin) str.

(** [segToString(segs)]: the current spelling. *)
Definition segToString (segs : list seg) : list ascii := map ch segs.

(** [spliceSegs(segs, start, end, insertSegs)] =
    [segs.splice(start, end - start, ...insertSegs)]. *)
Definition spliceSegs (segs : list seg) (start end_ : nat) (insertSegs : list seg)
  : list seg :=
  take start segs ++ insertSegs ++ drop (start + (end_ - start)) segs.

(** The characters still marked original. *)
Definition origChars (segs : list seg) : list ascii :=
  map ch (filter (fun s => origin s = true) segs).

(** Every segment carries a letter. *)
Definition letters (segs : list seg) : Prop :=
  Forall (fun s => isLetter (ch s) = true) segs.

(** ** The contract of a rule stage *)

Class Stage (f : list seg -> list seg) : Prop := {
  stage_orig : forall segs, origChars (f segs) `sublist_of` origChars segs;
  stage_letters : forall segs, letters segs -> letters (f segs)
}.

(** ** Lemmas *)

Lemma segToString_segFromString s o : segToString (segFromString s o) = s.
Proof. unfold segToString, segFromString. rewrite map_map. apply map_id. Qed.

Lemma length_segFromString s o : length (segFromString s o) = length s.
Proof. apply length_map. Qed.

Lemma length_segToString segs : length (segToString segs) = length segs.
Proof. apply length_map. Qed.

Lemma segToString_app a b : segToString (a ++ b) = segToString a ++ segToString b.
Proof. apply map_app. Qed.

Lemma origChars_app a b : origChars (a ++ b) = origChars a ++ origChars b.
Proof. unfold origChars. by rewrite filter_app, map_app. Qed.

Lemma origChars_synth s : origChars (segFromString s false) = [].
Proof. unfold origChars, segFromString. induction s; simpl; auto. Qed.

Lemma origChars_orig s : origChars (segFromString s true) = s.
Proof. unfold origChars, segFromString. induction s as [|c s IH]; simpl; [done|]. by rewrite IH. Qed.

#[export] Hint Rewrite segToString_segFromString length_segFromString
  length_segToString segToString_app origChars_app origChars_synth
  origChars_orig : naamrot_rw.

Lemma origChars_take_drop_sublist segs i k :
  origChars (take i segs ++ drop (i + k) segs) `sublist_of` origChars segs.
Proof.
  rewrite origChars_app. unfold origChars.
  rewrite <- (take_drop i segs) at 3. rewrite filter_app, map_app.
  apply sublist_app; [done|]. rewrite <- drop_drop.
  apply sublist_map, sublist_filter_mono, sublist_drop.
Qed.

(** Splicing in synthesized segments never adds an original character. *)
Lemma origChars_splice_synth segs i j r :
  origChars (spliceSegs segs i j (segFromString r false)) `sublist_of` origChars segs.
Proof.
  unfold spliceSegs. rewrite !origChars_app, origChars_synth, app_nil_l.
  rewrite <- origChars_app. apply origChars_take_drop_sublist.
Qed.

Lemma letters_app a b : letters (a ++ b) <-> letters a /\ letters b.
Proof. apply Forall_app. Qed.

Lemma letters_segFromString s o :
  Forall (fun c => isLetter c = true) s -> letters (segFromString s o).
Proof. intros H. unfold letters, segFromString. by apply Forall_fmap. Qed.

Lemma letters_splice segs i j r :
  letters segs -> Forall (fun c => isLetter c = true) r ->
  letters (spliceSegs segs i j (segFromString r false)).
Proof.
  intros Hs Hr. unfold spliceSegs. apply letters_app. split.
  - by apply Forall_take.
  - apply letters_app. split; [by apply letters_segFromString | by apply Forall_drop].
Qed.

(** A literal spelled with letters only: decided by evaluation. *)
Lemma letters_lit (r : list ascii) :
  forallb isLetter r = true -> Forall (fun c => isLetter c = true) r.
Proof.
  intros H. apply Forall_forall. intros x Hx%list_elem_of_In.
  exact (proj1 (forallb_forall _ _) H x Hx).
Qed.

#[export] Hint Resolve origChars_splice_synth letters_splice : naamrot.

(** Replacing the last [n] segments when the spelling ends with a suffix of
    length [n]: the common shape of every ending rule. *)
Lemma splice_tail segs n r :
  n <= length segs ->
  spliceSegs segs (length segs - n) (length segs) (segFromString r false)
  = take (length segs - n) segs ++ segFromString r false.
Proof.
  intros Hn. unfold spliceSegs.
  replace (length segs - n + (length segs - (length segs - n))) with (length segs) by lia.
  by rewrite drop_all, app_nil_r.
Qed.

(** Replacing the first [n] segments, the shape of every prefix rule. *)
Lemma splice_head segs n ins :
  spliceSegs segs 0 n ins = ins ++ drop n segs.
Proof. unfold spliceSegs. simpl. by rewrite Nat.sub_0_r. Qed.

Lemma length_spliceSegs segs i j ins :
  i <= j -> j <= length segs ->
  length (spliceSegs segs i j ins) = length segs - (j - i) + length ins.
Proof.
  intros Hij Hj. unfold spliceSegs.
  rewrite !length_app, length_take, length_drop. lia.
Qed.

(** The [Stage] contract is closed under composition. *)
#[export] Instance Stage_compose f g `{!Stage f, !Stage g} : Stage (fun segs => g (f segs)).
Proof.
  split.
  - intros segs. etrans; [apply stage_orig | apply stage_orig].
  - intros segs H. by apply stage_letters, stage_letters.
Qed.

#[export] Instance Stage_id : Stage (fun segs => segs).
Proof. split; auto. Qed.

Lemma origChars_cons x segs :
  origChars (x :: segs) = if origin x then ch x :: origChars segs else origChars segs.
Proof. unfold origChars. rewrite filter_cons. case_decide as H; destruct (origin x); simpl; congruence. Qed.

Lemma origChars_cons_sublist x segs : origChars segs `sublist_of` origChars (x :: segs).
Proof. rewrite origChars_cons. destruct (origin x); [by constructor|done]. Qed.

(** Tactic for the [Stage] obligations of a rule made of [if]s and splices. *)
Ltac stage_branch :=
  first [ done
        | apply origChars_splice_synth
        | apply letters_splice; [done | apply letters_lit; by vm_compute] ].

(** A sequence of stages run in order, as [transformWordPart] runs them. *)
Definition runStages (fs : list (list seg -> list seg)) (segs : list seg) : list seg :=
  fold_left (fun s f => f s) fs segs.

#[export] Instance runStages_stage fs : Forall (fun f => Stage f) fs -> Stage (runStages fs).
Proof.
  intros Hfs. induction Hfs as [|f fs Hf _ IH]; [apply Stage_id|].
  split; intros segs; simpl.
  - etrans; [apply IH | apply Hf].
  - intros H. apply IH. by apply Hf.
Qed.

(** Proves [Forall Stage] of an explicit list of stages from the instances. *)
Ltac stages_ok := repeat (constructor; [typeclasses eauto|]); constructor.

Lemma runStages_app fs gs segs : runStages (fs ++ gs) segs = runStages gs (runStages fs segs).
Proof. unfold runStages. apply fold_left_app. Qed.

(** Stages that keep the number of segments. *)
Lemma length_runStages fs segs :
  Forall (fun f => forall s, length (f s) = length s) fs -> length (runStages fs segs) = length segs.
Proof.
  intros Hfs. revert segs. induction Hfs as [|f fs Hf _ IH]; intros segs; [done|].
  cbn. by rewrite IH, Hf.
Qed.
