(* ===== verification/Exceptions.v ===== *)
(** * Exceptions: the exception table (priority 1)

    Models [EXCEPTIONS] and [applyExceptions] of [src/unnamed/part_000]
    (lines 22-44 and 88-104) and the older table of [src/app.js]
    (lines 21-39).  Entries are a closed variant: a literal entry compares
    lower-cased strings; a pattern entry is an anchored, case-insensitive
    alternation of words, [/^(w1|w2)$/i] or [/^w$/i], which is the only
    regular-expression form the tables use; any other [type], or a [re]
    that is not a RegExp, never matches.  An output is a fixed value or a
    function; a missing value becomes [""] ([String(ex.out ?? "")]).  A
    literal entry calls its function with the word-part, a pattern entry
    with the match array and the word-part. *)

From S2P Require Import Prelude.

(** [/^(alts)$/i]; [grouped] records the capture group around the
    alternation. *)
Record pattern := mkPattern { alts : list (list ascii); grouped : bool }.

Inductive litOut :=
  | LitFixed (o : option (list ascii))
  | LitFun (f : list ascii -> list ascii).

Inductive reOut :=
  | ReFixed (o : option (list ascii))
  | ReFun (f : list (list ascii) -> list ascii -> list ascii).

Inductive exceptionRule :=
  | ExLiteral (match_ : option (list ascii)) (out : litOut)
  | ExRegex (re : option pattern) (out : reOut)
  | ExOther.

(** [wordPart.match(re)]: the match array [[m0, group1]] or [null]. *)
Definition patternMatch (re : pattern) (w : list ascii) : option (list (list ascii)) :=
  if existsb (fun a => bool_decide (upper a = upper w)) (alts re)
  then Some (w :: (if grouped re then [w] else []))
  else None.

Definition litOutput (o : litOut) (w : list ascii) : list ascii :=
  match o with LitFixed v => default [] v | LitFun f => f w end.

Definition reOutput (o : reOut) (m : list (list ascii)) (w : list ascii) : list ascii :=
  match o with ReFixed v => default [] v | ReFun f => f m w end.

(** [applyExceptions(wordPart)] returns [{hit, out}]. *)
Fixpoint applyExceptions (rules : list exceptionRule) (wordPart : list ascii)
  : bool * list ascii :=
  match rules with
  | [] => (false, wordPart)
  | ex :: rest =>
      match ex with
      | ExLiteral m out =>
          if bool_decide (lower wordPart = lower (default [] m))
          then (true, litOutput out wordPart)
          else applyExceptions rest wordPart
      | ExRegex (Some re) out =>
          match patternMatch re wordPart with
          | Some m => (true, reOutput out m wordPart)
          | None => applyExceptions rest wordPart
          end
      | ExRegex None _ | ExOther => applyExceptions rest wordPart
      end
  end.

(** A [/^w$/i] entry with a fixed output. *)
Definition word (w out : string) : exceptionRule :=
  ExRegex (Some (mkPattern [list_ascii_of_string w] false)) (ReFixed (Some (list_ascii_of_string out))).

(** [src/unnamed/part_000], lines 22-44. *)
Definition EXCEPTIONS : list exceptionRule :=
  [ word "very" "WELL"; word "well" "WELL";
    ExRegex (Some (mkPattern [⟦"you"⟧; ⟦"your"⟧] true)) (ReFixed (Some ⟦"YA"⟧));
    word "the" "THA"; word "for" "FA";
    word "please" "PALEASE"; word "deadline" "DODLINE"; word "mistakes" "MOSTAKES";
    word "aminur" "AMINAH";
    word "date" "DATE"; word "name" "NAME"; word "set" "SOT" ].

(** [src/app.js], lines 21-39: the same table without VERY and WELL. *)
Definition EXCEPTIONS_v1 : list exceptionRule :=
  [ ExRegex (Some (mkPattern [⟦"you"⟧; ⟦"your"⟧] true)) (ReFixed (Some ⟦"YA"⟧));
    word "the" "THA"; word "for" "FA";
    word "please" "PALEASE"; word "deadline" "DODLINE"; word "mistakes" "MOSTAKES";
    word "aminur" "AMINAH";
    word "date" "DATE"; word "name" "NAME"; word "set" "SOT" ].

(** * The declarative contract: the first matching entry decides *)

Definition ruleMatches (ex : exceptionRule) (w : list ascii) : bool :=
  match ex with
  | ExLiteral m _ => bool_decide (lower w = lower (default [] m))
  | ExRegex (Some re) _ => bool_decide (is_Some (patternMatch re w))
  | _ => false
  end.

Definition ruleOutput (ex : exceptionRule) (w : list ascii) : list ascii :=
  match ex with
  | ExLiteral _ out => litOutput out w
  | ExRegex (Some re) out => reOutput out (default [] (patternMatch re w)) w
  | _ => w
  end.

Lemma applyExceptions_cons ex rules w :
  applyExceptions (ex :: rules) w =
  if ruleMatches ex w then (true, ruleOutput ex w) else applyExceptions rules w.
Proof.
  destruct ex as [m out|[re|] out|]; simpl; [by case_bool_decide| |done|done].
  destruct (patternMatch re w) eqn:E; simpl; [|done].
  first [done | by rewrite bool_decide_eq_true_2].
Qed.

Lemma list_find_cons_bool {A} (f : A -> bool) x l :
  list_find (fun y => f y = true) (x :: l) =
  if f x then Some (0, x) else prod_map S id <$> list_find (fun y => f y = true) l.
Proof. simpl. by destruct (f x). Qed.

(** [applyExceptions] as [list_find]: the first matching entry decides, and
    a miss returns the word-part unchanged. *)
Lemma applyExceptions_find rules w :
  applyExceptions rules w =
  match list_find (fun ex => ruleMatches ex w = true) rules with
  | Some (_, ex) => (true, ruleOutput ex w)
  | None => (false, w)
  end.
Proof.
  induction rules as [|ex rules IH]; [done|].
  rewrite applyExceptions_cons, list_find_cons_bool.
  destruct (ruleMatches ex w); [done|]. rewrite IH.
  by destruct (list_find _ rules) as [[]|].
Qed.

(** C23. First match wins: [applyExceptions] hits with output [o] exactly
    when some entry matches the whole word-part, no entry before it
    matches, and [o] is that entry's output; malformed entries never
    match. *)
Theorem applyExceptions_first_match rules w o :
  applyExceptions rules w = (true, o) <->
  exists pre ex post, rules = pre ++ ex :: post
    /\ Forall (fun e => ruleMatches e w = false) pre
    /\ ruleMatches ex w = true /\ o = ruleOutput ex w.
Proof.
  split.
  - induction rules as [|ex0 rules IH]; [done|]. rewrite applyExceptions_cons.
    destruct (ruleMatches ex0 w) eqn:E.
    + intros [= <-]. by exists [], ex0, rules.
    + intros (pre & ex & post & -> & Hpre & Hex & ->)%IH.
      exists (ex0 :: pre), ex, post. split_and!; auto.
  - intros (pre & ex & post & -> & Hpre & Hex & ->).
    induction Hpre as [|e pre He _ IH]; cbn [app]; rewrite applyExceptions_cons;
      [by rewrite Hex | by rewrite He].
Qed.

(** Whether a word-part hits an entry of [EXCEPTIONS] and the value it
    is replaced by do not depend on the case of its letters. *)
Theorem EXCEPTIONS_case_insensitive w :
  applyExceptions EXCEPTIONS w = (true, (applyExceptions EXCEPTIONS (upper w)).2)
  \/ (applyExceptions EXCEPTIONS w = (false, w)
      /\ applyExceptions EXCEPTIONS (upper w) = (false, upper w)).
Proof.
  unfold EXCEPTIONS, word. cbn [applyExceptions]. unfold patternMatch. cbn [alts grouped].
  rewrite !upper_idem.
  repeat match goal with
  | |- context [if existsb ?f ?l then _ else _] => destruct (existsb f l)
  end; cbn; auto.
Qed.
