(* ===== verification/Suffix.v ===== *)
(** * Suffix: the suffix rule set (priority 2)

    Models lines 118-218 and 368-378 of [src/unnamed/part_000]: the two
    replace-all loops ([replaceAllERWithAH], [replaceAllIRWithAR]), the six
    ending rules and their composition [suffixRules] in the order of
    [transformWordPart], which also returns the [endingChangedToAH] flag.

    The replace-all loops mutate the array while they scan it; they are
    modelled index by index ([replacePairLoop], fuel [length segs]),
    proved equal to the structural [replacePairs] and proved to need no
    more fuel than that.  The file also proves what the pipeline makes of
    the rules (the dead ER branch and Y guard, the [endingChangedToAH]
    flag, no final Y), that every rule keeps the [Stage] contract, and the
    length bound of the stage: the lengthening rules are instances of
    [GrowsToH], so at most one of them fires. *)

From S2P Require Import Prelude Segment.

(** The spelling the rules test: [segToString(segs).toUpperCase()]. *)
Definition spelling (segs : list seg) : list ascii := upper (segToString segs).

(** ** Replace-all loops *)

(** One pass of
    [for (let i = 0; i < segs.length - 1; i++) { if (upper segs[i] === a &&
    upper segs[i+1] === b) { spliceSegs(segs, i, i+2, rep); i += 1; } }]. *)
Fixpoint replacePairLoop (a b : ascii) (rep : list ascii) (fuel i : nat)
    (segs : list seg) : list seg :=
  match fuel with
  | O => segs
  | S fuel' =>
      if i <? length segs - 1 then
        match segs !! i, segs !! (i + 1) with
        | Some x, Some y =>
            if bool_decide (to_upper (ch x) = a) && bool_decide (to_upper (ch y) = b)
            then replacePairLoop a b rep fuel' (i + 2)
                   (spliceSegs segs i (i + 2) (segFromString rep false))
            else replacePairLoop a b rep fuel' (i + 1) segs
        | _, _ => segs
        end
      else segs
  end.

(** ER -> AH anywhere. *)
Definition replaceAllERWithAH (segs : list seg) : list seg :=
  replacePairLoop "E" "R" ⟦"AH"⟧ (length segs) 0 segs.

(** IR -> AR anywhere. *)
Definition replaceAllIRWithAR (segs : list seg) : list seg :=
  replacePairLoop "I" "R" ⟦"AR"⟧ (length segs) 0 segs.

(** The structural reference: leftmost non-overlapping replacement. *)
Fixpoint replacePairs (a b : ascii) (rep : list ascii) (segs : list seg) : list seg :=
  match segs with
  | x :: ((y :: t) as l) =>
      if bool_decide (to_upper (ch x) = a) && bool_decide (to_upper (ch y) = b)
      then segFromString rep false ++ replacePairs a b rep t
      else x :: replacePairs a b rep l
  | _ => segs
  end.

(** ** Ending rules *)

Definition tailSplice (segs : list seg) (n : nat) (r : list ascii) : list seg :=
  spliceSegs segs (length segs - n) (length segs) (segFromString r false).

(** [applyEndingAH]: A / ER / UR at the end -> AH; returns [changed]. *)
Definition applyEndingAH (segs : list seg) : list seg * bool :=
  let s := spelling segs in
  if ends_with s ⟦"ER"⟧ || ends_with s ⟦"UR"⟧ then (tailSplice segs 2 ⟦"AH"⟧, true)
  else if ends_with s ⟦"A"⟧ then (tailSplice segs 1 ⟦"AH"⟧, true)
  else (segs, false).

(** [replaceEndingTION]: TION -> SHAN. *)
Definition replaceEndingTION (segs : list seg) : list seg * bool :=
  if ends_with (spelling segs) ⟦"TION"⟧ && (4 <=? length segs)
  then (tailSplice segs 4 ⟦"SHAN"⟧, true) else (segs, false).

(** [replaceEndingTY]: TY -> TEH. *)
Definition replaceEndingTY (segs : list seg) : list seg * bool :=
  if ends_with (spelling segs) ⟦"TY"⟧ && (2 <=? length segs)
  then (tailSplice segs 2 ⟦"TEH"⟧, true) else (segs, false).

(** [replaceEndingAY]: AY -> AEH. *)
Definition replaceEndingAY (segs : list seg) : list seg * bool :=
  if ends_with (spelling segs) ⟦"AY"⟧ && (2 <=? length segs)
  then (tailSplice segs 2 ⟦"AEH"⟧, true) else (segs, false).

(** [replaceEndingLY]: LEY -> LEH, else LY -> LEH. *)
Definition replaceEndingLY (segs : list seg) : list seg :=
  let s := spelling segs in
  if ends_with s ⟦"LEY"⟧ && (3 <=? length segs) then tailSplice segs 3 ⟦"LEH"⟧
  else if ends_with s ⟦"LY"⟧ && (2 <=? length segs) then tailSplice segs 2 ⟦"LEH"⟧
  else segs.

(** [replaceEndingYToEH]: final Y -> EH, but not after LY / LEY / TY. *)
Definition replaceEndingYToEH (segs : list seg) : list seg * bool :=
  let s := spelling segs in
  if ends_with s ⟦"LY"⟧ || ends_with s ⟦"LEY"⟧ || ends_with s ⟦"TY"⟧ then (segs, false)
  else if ends_with s ⟦"Y"⟧ && (1 <=? length segs) then (tailSplice segs 1 ⟦"EH"⟧, true)
  else (segs, false).

(** ** The suffix stage of [transformWordPart] *)

(** The rules that run before [applyEndingAH]. *)
Definition suffixBeforeAH (segs : list seg) : list seg :=
  let segs := replaceAllERWithAH segs in
  let segs := replaceAllIRWithAR segs in
  let segs := (replaceEndingTION segs).1 in
  let segs := (replaceEndingTY segs).1 in
  replaceEndingLY segs.

Definition suffixRules (segs : list seg) : list seg * bool :=
  let segs := suffixBeforeAH segs in
  let '(segs, endingChangedToAH) := applyEndingAH segs in
  let segs := (replaceEndingAY segs).1 in
  let segs := (replaceEndingYToEH segs).1 in
  (segs, endingChangedToAH).

(** * Lemmas and theorems *)

Section ReplacePairs.
Context (a b : ascii) (rep : list ascii).
Hypothesis Hrep : length rep = 2.

Lemma replacePairLoop_app fuel pre rest :
    length rest <= fuel ->
    replacePairLoop a b rep fuel (length pre) (pre ++ rest)
    = pre ++ replacePairs a b rep rest.
  Proof.
    revert pre rest. induction fuel as [|fuel IH]; intros pre rest Hf.
    - destruct rest; [by rewrite !app_nil_r | simpl in Hf; lia].
    - cbn [replacePairLoop]. rewrite length_app.
      destruct rest as [|x [|y t]]; simpl length.
      + rewrite (proj2 (Nat.ltb_ge _ _)) by lia. by rewrite !app_nil_r.
      + rewrite (proj2 (Nat.ltb_ge _ _)) by lia. done.
      + rewrite (proj2 (Nat.ltb_lt _ _)) by lia.
        rewrite lookup_app_r, Nat.sub_diag by lia.
        rewrite lookup_app_r by lia.
        replace (length pre + 1 - length pre) with 1 by lia. cbn.
        case_match.
        * unfold spliceSegs.
          rewrite take_app_length.
          replace (length pre + (length pre + 2 - length pre)) with (length pre + 2) by lia.
          rewrite (drop_app_ge pre), (Nat.add_comm (length pre) 2), Nat.add_sub by lia.
          replace (2 + length pre) with (length (pre ++ segFromString rep false))
            by (rewrite length_app, length_segFromString; lia).
          rewrite app_assoc. change (drop 2 (x :: y :: t)) with t.
          rewrite IH by (simpl in Hf; lia). by rewrite app_assoc.
        * replace (length pre + 1) with (length (pre ++ [x])) by (rewrite length_app; done).
          change (pre ++ x :: y :: t) with (pre ++ [x] ++ y :: t).
          rewrite (app_assoc pre [x]), IH by (simpl in *; lia).
          by rewrite <- app_assoc.
  Qed.

Lemma replacePairLoop_ref segs :
    replacePairLoop a b rep (length segs) 0 segs = replacePairs a b rep segs.
  Proof. apply (replacePairLoop_app _ []). done. Qed.
End ReplacePairs.

(** C10. [replaceAllERWithAH]'s in-place loop (with the skip of [i += 1]
    after a replacement) computes exactly the leftmost non-overlapping
    replacement of every case-insensitive "ER" by synthesized "AH". *)
Theorem replaceAllERWithAH_spec segs :
  replaceAllERWithAH segs = replacePairs "E" "R" ⟦"AH"⟧ segs.
Proof. by apply replacePairLoop_ref. Qed.

Lemma replaceAllIRWithAR_spec segs :
  replaceAllIRWithAR segs = replacePairs "I" "R" ⟦"AR"⟧ segs.
Proof. by apply replacePairLoop_ref. Qed.

(** ** Pairs of adjacent characters *)

(** [has_pair a b s]: [a] immediately followed by [b] somewhere in [s]. *)
Fixpoint has_pair (a b : ascii) (s : list ascii) : bool :=
  match s with
  | c :: ((d :: _) as t) => (bool_decide (c = a) && bool_decide (d = b)) || has_pair a b t
  | _ => false
  end.

Lemma has_pair_cons a b c s :
  has_pair a b (c :: s) = (bool_decide (c = a) && bool_decide (head s = Some b)) || has_pair a b s.
Proof.
  destruct s as [|d s]; [by rewrite andb_false_r|]. simpl.
  by rewrite (bool_decide_ext (Some d = Some b) (d = b)) by (split; congruence).
Qed.

Lemma ends_with_has_pair a b s : ends_with s [a; b] = true -> has_pair a b s = true.
Proof.
  intros [p ->]%ends_with_spec. induction p as [|c p IH].
  - simpl. by rewrite !bool_decide_eq_true_2.
  - rewrite <- app_comm_cons, has_pair_cons, IH. apply orb_true_r.
Qed.

Lemma spelling_cons x segs : spelling (x :: segs) = to_upper (ch x) :: spelling segs.
Proof. done. Qed.

Lemma spelling_app s1 s2 : spelling (s1 ++ s2) = spelling s1 ++ spelling s2.
Proof. unfold spelling. by rewrite segToString_app, upper_app. Qed.

Lemma spelling_synth r : spelling (segFromString r false) = upper r.
Proof. unfold spelling. by rewrite segToString_segFromString. Qed.

Lemma length_spelling segs : length (spelling segs) = length segs.
Proof. unfold spelling. by rewrite length_upper, length_segToString. Qed.

#[export] Hint Rewrite spelling_cons spelling_app spelling_synth length_spelling : naamrot_rw.

Lemma replacePairs_cons2 a b rep x y t :
  replacePairs a b rep (x :: y :: t) =
  if bool_decide (to_upper (ch x) = a) && bool_decide (to_upper (ch y) = b)
  then segFromString rep false ++ replacePairs a b rep t
  else x :: replacePairs a b rep (y :: t).
Proof. done. Qed.

Section PairFree.
Context (a b : ascii) (r1 r2 : ascii).
Let rep := [r1; r2].

  (** The first character of the result is the input's or the replacement's. *)
Lemma replacePairs_head y t :
    head (spelling (replacePairs a b rep (y :: t))) = Some (to_upper (ch y))
    \/ head (spelling (replacePairs a b rep (y :: t))) = Some (to_upper r1).
  Proof. destruct t as [|z t]; simpl; [by left|]. case_match; simpl; auto. Qed.

  (** Which adjacent pair [(c, d)] the replacement can never create. *)
Context (c d : ascii)
    (Hr1 : to_upper r1 <> d) (Hr2 : to_upper r2 <> c)
    (Hrr : ~ (to_upper r1 = c /\ to_upper r2 = d)).

Lemma has_pair_rep s :
    has_pair c d (upper rep ++ s) = has_pair c d s.
  Proof.
    change (upper rep ++ s) with (to_upper r1 :: to_upper r2 :: s).
    rewrite !has_pair_cons.
    rewrite (bool_decide_eq_false_2 (to_upper r2 = c)) by done. simpl.
    destruct (decide (to_upper r1 = c)); [|by rewrite bool_decide_eq_false_2].
    by rewrite bool_decide_eq_true_2, bool_decide_eq_false_2 by naive_solver.
  Qed.

Lemma has_pair_replacePairs_step x y t :
    (bool_decide (to_upper (ch x) = c) && bool_decide (to_upper (ch y) = d)) = false ->
    has_pair c d (spelling (replacePairs a b rep (y :: t))) = false ->
    has_pair c d (to_upper (ch x) :: spelling (replacePairs a b rep (y :: t))) = false.
  Proof.
    intros Hxy Hr. rewrite has_pair_cons, Hr, orb_false_r.
    destruct (replacePairs_head y t) as [-> | ->].
    - by rewrite (bool_decide_ext (Some (to_upper (ch y)) = Some d) (to_upper (ch y) = d))
        by (split; congruence).
    - by rewrite (bool_decide_eq_false_2 (Some _ = Some d)), andb_false_r by congruence.
  Qed.

  (** The replaced pair itself never survives ... *)
Lemma replacePairs_self_free segs :
    c = a -> d = b -> has_pair c d (spelling (replacePairs a b rep segs)) = false.
  Proof.
    intros Hc Hd. induction segs as [segs IH] using (induction_ltof1 _ (@length _)).
    destruct segs as [|x [|y t]]; [done|done|]. rewrite replacePairs_cons2.
    destruct (bool_decide (to_upper (ch x) = a) && bool_decide (to_upper (ch y) = b)) eqn:E.
    - rewrite spelling_app, spelling_synth, has_pair_rep.
      apply IH. unfold ltof. simpl. lia.
    - rewrite spelling_cons. apply has_pair_replacePairs_step; [by rewrite Hc, Hd|].
      apply IH. unfold ltof. simpl. lia.
  Qed.

  (** ... and a pair the input does not contain is never created. *)
Lemma replacePairs_keeps_free segs :
    has_pair c d (spelling segs) = false ->
    has_pair c d (spelling (replacePairs a b rep segs)) = false.
  Proof.
    induction segs as [segs IH] using (induction_ltof1 _ (@length _)).
    destruct segs as [|x [|y t]]; [done|done|]. intros Hf. rewrite replacePairs_cons2.
    rewrite !spelling_cons, !has_pair_cons in Hf. simpl in Hf.
    apply orb_false_iff in Hf as [Hxy Hf].
    destruct (bool_decide (to_upper (ch x) = a) && bool_decide (to_upper (ch y) = b)).
    - rewrite spelling_app, spelling_synth, has_pair_rep.
      apply IH; [unfold ltof; simpl; lia|].
      apply orb_false_iff in Hf. apply Hf.
    - rewrite spelling_cons. apply has_pair_replacePairs_step.
      + rewrite (bool_decide_ext (Some _ = Some d) (to_upper (ch y) = d)) in Hxy
          by (split; congruence). done.
      + apply IH; [unfold ltof; simpl; lia|].
        by rewrite spelling_cons, has_pair_cons.
  Qed.
End PairFree.

(** The reference replacement leaves no "ER" pair behind. *)
Lemma replacePairs_ER_free segs :
  has_pair "E" "R" (spelling (replacePairs "E" "R" ⟦"AH"⟧ segs)) = false.
Proof.
  apply (replacePairs_self_free "E" "R" "A" "H" "E" "R"); vm_compute;
    intuition discriminate.
Qed.

(** C11. After [replaceAllERWithAH] no "E" is immediately followed by "R"
    (case-insensitively) anywhere in the word-part. *)
Theorem replaceAllERWithAH_no_ER segs :
  has_pair "E" "R" (spelling (replaceAllERWithAH segs)) = false.
Proof.
  unfold replaceAllERWithAH. rewrite replacePairLoop_ref by done.
  apply replacePairs_ER_free.
Qed.

(** The IR pass never creates an "ER" pair. *)
Lemma replaceAllIRWithAR_keeps_no_ER segs :
  has_pair "E" "R" (spelling segs) = false ->
  has_pair "E" "R" (spelling (replaceAllIRWithAR segs)) = false.
Proof.
  rewrite replaceAllIRWithAR_spec.
  apply (replacePairs_keeps_free "I" "R" "A" "R"); vm_compute; intuition discriminate.
Qed.

(** ** What each ending rule leaves at the end of the word *)

Lemma spelling_tailSplice segs n r :
  n <= length segs ->
  spelling (tailSplice segs n r) = spelling (take (length segs - n) segs) ++ upper r.
Proof. intros Hn. unfold tailSplice. by rewrite splice_tail, spelling_app, spelling_synth. Qed.

Lemma ends_with_tailSplice segs n r :
  n <= length segs -> ends_with (spelling (tailSplice segs n r)) (upper r) = true.
Proof. intros Hn. rewrite spelling_tailSplice by done. apply ends_with_app. Qed.

Lemma ends_with_tailSplice_through segs n r suf :
  n <= length segs -> length suf <= length r ->
  ends_with (spelling (tailSplice segs n r)) suf = ends_with (upper r) suf.
Proof.
  intros Hn Hl. rewrite spelling_tailSplice by done.
  apply ends_with_app_long. by rewrite length_upper.
Qed.

Lemma ends_with_spelling_length segs suf :
  ends_with (spelling segs) suf = true -> length suf <= length segs.
Proof. intros H%ends_with_length. by rewrite length_spelling in H. Qed.

(** Splits every [if] of a rule and turns its tests into facts. *)
Ltac rule_cases :=
  repeat match goal with
  | |- context [if ?b then _ else _] =>
      lazymatch b with
      | true => fail
      | false => fail
      | _ => let E := fresh "E" in destruct b eqn:E
      end
  end;
  repeat match goal with
  | H : (_ && _) = true |- _ => apply andb_true_iff in H as [? ?]
  | H : (_ || _) = true |- _ => apply orb_true_iff in H as [?|?]
  | H : (_ || _) = false |- _ => apply orb_false_iff in H as [? ?]
  | H : (_ <=? _) = true |- _ => apply Nat.leb_le in H
  end; cbn [fst snd].

(** A rule either leaves the segments alone or makes them end with [r]. *)
Definition ends_or_same (f : list seg -> list seg) (r : list ascii) : Prop :=
  forall segs, f segs = segs \/ ends_with (spelling (f segs)) r = true.

Lemma replaceEndingTION_post : ends_or_same (fun s => (replaceEndingTION s).1) ⟦"SHAN"⟧.
Proof. intros segs. unfold replaceEndingTION. rule_cases; [right|left]; auto using ends_with_tailSplice. Qed.

Lemma replaceEndingTY_post : ends_or_same (fun s => (replaceEndingTY s).1) ⟦"TEH"⟧.
Proof. intros segs. unfold replaceEndingTY. rule_cases; [right|left]; auto using ends_with_tailSplice. Qed.

Lemma replaceEndingAY_post : ends_or_same (fun s => (replaceEndingAY s).1) ⟦"AEH"⟧.
Proof. intros segs. unfold replaceEndingAY. rule_cases; [right|left]; auto using ends_with_tailSplice. Qed.

Lemma replaceEndingLY_post : ends_or_same replaceEndingLY ⟦"LEH"⟧.
Proof. intros segs. unfold replaceEndingLY. rule_cases; try (right; by apply ends_with_tailSplice); by left. Qed.

Lemma applyEndingAH_post : ends_or_same (fun s => (applyEndingAH s).1) ⟦"AH"⟧.
Proof.
  intros segs. unfold applyEndingAH. rule_cases; try (by left); right;
    apply ends_with_tailSplice;
    match goal with H : ends_with (spelling _) _ = true |- _ =>
      apply ends_with_spelling_length in H; simpl in H end; lia.
Qed.

Lemma replaceEndingYToEH_post : ends_or_same (fun s => (replaceEndingYToEH s).1) ⟦"EH"⟧.
Proof. intros segs. unfold replaceEndingYToEH. rule_cases; try (by left); right; by apply ends_with_tailSplice. Qed.

(** A rule of that shape keeps "does not end with [suf]" when [r] itself
    does not end with [suf]. *)
Lemma ends_or_same_keeps f r suf segs :
  ends_or_same f r -> length suf <= length r -> ends_with r suf = false ->
  ends_with (spelling segs) suf = false -> ends_with (spelling (f segs)) suf = false.
Proof.
  intros Hf Hl Hr Hs. destruct (Hf segs) as [-> | He]; [done|].
  by rewrite (ends_with_through _ r).
Qed.

#[export] Hint Resolve replaceEndingTION_post replaceEndingTY_post replaceEndingAY_post
  replaceEndingLY_post applyEndingAH_post replaceEndingYToEH_post : naamrot.

Lemma no_pair_not_ends a b s : has_pair a b s = false -> ends_with s [a; b] = false.
Proof. intros H. destruct (ends_with s [a; b]) eqn:E; [|done]. by rewrite ends_with_has_pair in H. Qed.

(** By the time [applyEndingAH] runs, [replaceAllERWithAH] has removed
    every "ER" and no later rule has created one at the end. *)
Lemma suffixBeforeAH_not_ER segs :
  ends_with (spelling (suffixBeforeAH segs)) ⟦"ER"⟧ = false.
Proof.
  unfold suffixBeforeAH.
  apply (ends_or_same_keeps _ ⟦"LEH"⟧); [auto with naamrot | simpl; lia | done |].
  apply (ends_or_same_keeps (fun s => (replaceEndingTY s).1) ⟦"TEH"⟧);
    [auto with naamrot | simpl; lia | done |].
  apply (ends_or_same_keeps (fun s => (replaceEndingTION s).1) ⟦"SHAN"⟧);
    [auto with naamrot | simpl; lia | done |].
  apply no_pair_not_ends, replaceAllIRWithAR_keeps_no_ER.
  unfold replaceAllERWithAH. rewrite replacePairLoop_ref by done. apply replacePairs_ER_free.
Qed.

(** C12. The "ER" branch of [applyEndingAH] is unreachable in
    [transformWordPart]: on the output of the earlier suffix rules it
    behaves as a rule for the endings UR and A only. *)
Theorem applyEndingAH_ER_unreachable segs :
  applyEndingAH (suffixBeforeAH segs) =
  if ends_with (spelling (suffixBeforeAH segs)) ⟦"UR"⟧
  then (tailSplice (suffixBeforeAH segs) 2 ⟦"AH"⟧, true)
  else if ends_with (spelling (suffixBeforeAH segs)) ⟦"A"⟧
  then (tailSplice (suffixBeforeAH segs) 1 ⟦"AH"⟧, true)
  else (suffixBeforeAH segs, false).
Proof. unfold applyEndingAH at 1. cbv zeta. by rewrite suffixBeforeAH_not_ER. Qed.

Lemma applyEndingAH_flag x :
  (applyEndingAH x).2 =
  ends_with (spelling x) ⟦"ER"⟧ || ends_with (spelling x) ⟦"UR"⟧ || ends_with (spelling x) ⟦"A"⟧.
Proof.
  unfold applyEndingAH. cbv zeta.
  by destruct (ends_with (spelling x) ⟦"ER"⟧), (ends_with (spelling x) ⟦"UR"⟧),
    (ends_with (spelling x) ⟦"A"⟧).
Qed.

Lemma suffixRules_flag segs : (suffixRules segs).2 = (applyEndingAH (suffixBeforeAH segs)).2.
Proof. unfold suffixRules. by destruct (applyEndingAH _). Qed.

(** C13. Hence the flag [endingChangedToAH] is set exactly when the word
    ends in "UR" or "A" after the earlier suffix rules; a word whose "ER"
    ending became "AH" (ENTER -> ENTAH) does not set it. *)
Theorem endingChangedToAH_spec segs :
  (suffixRules segs).2 =
  ends_with (spelling (suffixBeforeAH segs)) ⟦"UR"⟧
  || ends_with (spelling (suffixBeforeAH segs)) ⟦"A"⟧.
Proof. by rewrite suffixRules_flag, applyEndingAH_flag, suffixBeforeAH_not_ER. Qed.

(** A length guard next to an [endsWith] test of the same length is
    redundant. *)
Ltac guard_false :=
  match goal with
  | E : (ends_with ?s ?suf && _) = false |- ends_with ?s ?suf = false =>
      destruct (ends_with s suf) eqn:Ew; [|done];
      apply ends_with_spelling_length in Ew; simpl in Ew;
      rewrite (proj2 (Nat.leb_le _ _)) in E by lia; discriminate
  end.

Lemma replaceEndingTY_kills segs : ends_with (spelling (replaceEndingTY segs).1) ⟦"TY"⟧ = false.
Proof.
  unfold replaceEndingTY. rule_cases.
  - rewrite ends_with_tailSplice_through by (simpl; lia). done.
  - guard_false.
Qed.

(** The test of [replaceEndingYToEH]'s guard. *)
Definition endsLYorTY (s : list ascii) : bool :=
  ends_with s ⟦"LY"⟧ || ends_with s ⟦"LEY"⟧ || ends_with s ⟦"TY"⟧.

Lemma endsLYorTY_Y s : endsLYorTY s = true -> ends_with s ⟦"Y"⟧ = true.
Proof.
  unfold endsLYorTY. intros H.
  repeat (apply orb_true_iff in H as [H|H]);
    apply ends_with_spec in H as [p ->]; rewrite ends_with_app_long by (simpl; lia);
    by vm_compute.
Qed.

Lemma ends_with_trans s r t : ends_with s r = true -> ends_with r t = true -> ends_with s t = true.
Proof.
  intros [p ->]%ends_with_spec [q ->]%ends_with_spec.
  rewrite app_assoc. apply ends_with_app.
Qed.

Lemma replaceEndingLY_kills segs :
  ends_with (spelling segs) ⟦"TY"⟧ = false ->
  endsLYorTY (spelling (replaceEndingLY segs)) = false.
Proof.
  intros Hty. unfold replaceEndingLY, endsLYorTY. rule_cases;
    try (rewrite !ends_with_tailSplice_through by (simpl; lia); done).
  assert (ends_with (spelling segs) ⟦"LEY"⟧ = false) as -> by guard_false.
  assert (ends_with (spelling segs) ⟦"LY"⟧ = false) as -> by guard_false.
  by rewrite Hty.
Qed.

(** A rule that leaves the word alone or makes it end in "H" keeps the
    guard false. *)
Lemma ends_or_same_keeps_LYTY f r segs :
  ends_or_same f r -> ends_with r ⟦"H"⟧ = true ->
  endsLYorTY (spelling segs) = false -> endsLYorTY (spelling (f segs)) = false.
Proof.
  intros Hf Hr Hs. destruct (Hf segs) as [-> | He]; [done|].
  destruct (endsLYorTY (spelling (f segs))) eqn:E; [|done]. apply endsLYorTY_Y in E.
  rewrite (ends_with_through _ ⟦"H"⟧) in E; [vm_compute in E; discriminate | | simpl; lia].
  by apply (ends_with_trans _ r).
Qed.

(** The rules that run before [replaceEndingYToEH]. *)
Definition suffixBeforeY (segs : list seg) : list seg :=
  (replaceEndingAY ((applyEndingAH (suffixBeforeAH segs)).1)).1.

(** The earlier rules have already rewritten every LY / LEY / TY ending. *)
Lemma suffixBeforeY_not_LYTY segs : endsLYorTY (spelling (suffixBeforeY segs)) = false.
Proof.
  apply (ends_or_same_keeps_LYTY (fun s => (replaceEndingAY s).1) ⟦"AEH"⟧);
    [auto with naamrot | by vm_compute |].
  apply (ends_or_same_keeps_LYTY (fun s => (applyEndingAH s).1) ⟦"AH"⟧);
    [auto with naamrot | by vm_compute |].
  apply replaceEndingLY_kills, replaceEndingTY_kills.
Qed.

Lemma replaceEndingYToEH_kills x :
  endsLYorTY (spelling x) = false ->
  ends_with (spelling (replaceEndingYToEH x).1) ⟦"Y"⟧ = false.
Proof.
  intros H. unfold replaceEndingYToEH. cbv zeta. fold (endsLYorTY (spelling x)). rewrite H.
  destruct (ends_with (spelling x) ⟦"Y"⟧ && (1 <=? length x)) eqn:E; cbn [fst].
  - apply andb_true_iff in E as [_ E%Nat.leb_le].
    rewrite ends_with_tailSplice_through by (simpl; lia). done.
  - guard_false.
Qed.

(** Without an LY / LEY / TY ending the guard is skipped. *)
Lemma replaceEndingYToEH_unguarded segs :
  endsLYorTY (spelling segs) = false ->
  replaceEndingYToEH segs =
  if ends_with (spelling segs) ⟦"Y"⟧ && (1 <=? length segs)
  then (tailSplice segs 1 ⟦"EH"⟧, true) else (segs, false).
Proof. unfold replaceEndingYToEH, endsLYorTY. cbv zeta. by intros ->. Qed.

(** C14. The guard of [replaceEndingYToEH] ("skip LY / LEY / TY") never
    fires in [transformWordPart]: on the output of the earlier rules the
    rule is the plain final-Y rule. *)
Theorem replaceEndingYToEH_guard_unreachable segs :
  replaceEndingYToEH (suffixBeforeY segs) =
  if ends_with (spelling (suffixBeforeY segs)) ⟦"Y"⟧ && (1 <=? length (suffixBeforeY segs))
  then (tailSplice (suffixBeforeY segs) 1 ⟦"EH"⟧, true)
  else (suffixBeforeY segs, false).
Proof.
  apply replaceEndingYToEH_unguarded, suffixBeforeY_not_LYTY.
Qed.

Lemma suffixRules_fst segs :
  (suffixRules segs).1 =
  (replaceEndingYToEH ((replaceEndingAY ((applyEndingAH (suffixBeforeAH segs)).1)).1)).1.
Proof. unfold suffixRules. by destruct (applyEndingAH _). Qed.

(** C15. After the suffix rules a word-part never ends in "Y": every final
    Y has become EH, TEH, LEH or AEH. *)
Theorem suffixRules_no_final_Y segs :
  ends_with (spelling (suffixRules segs).1) ⟦"Y"⟧ = false.
Proof.
  rewrite suffixRules_fst.
  apply replaceEndingYToEH_kills, suffixBeforeY_not_LYTY.
Qed.

(** ** Every suffix rule keeps the [Stage] contract *)

Section LoopStage.
Context (a b : ascii) (rep : list ascii).

(** Every iteration of the in-place loop, from any index and with any fuel,
    keeps the [Stage] contract: a replacement splices in synthesized
    segments only. *)
Lemma replacePairLoop_orig fuel i segs :
  origChars (replacePairLoop a b rep fuel i segs) `sublist_of` origChars segs.
Proof.
  revert i segs. induction fuel as [|fuel IH]; intros i segs; [done|]. cbn [replacePairLoop].
  repeat case_match; try done; first [apply IH | etrans; [apply IH | apply origChars_splice_synth]].
Qed.

Lemma replacePairLoop_letters fuel i segs :
  Forall (fun c => isLetter c = true) rep -> letters segs ->
  letters (replacePairLoop a b rep fuel i segs).
Proof.
  intros Hr. revert i segs. induction fuel as [|fuel IH]; intros i segs Hs; [done|].
  cbn [replacePairLoop]. repeat case_match; auto using letters_splice.
Qed.
End LoopStage.

Ltac pair_stage f :=
  split; intros segs; unfold f;
    [apply replacePairLoop_orig | intros; apply replacePairLoop_letters; [apply letters_lit; by vm_compute | done]].

#[export] Instance replaceAllERWithAH_stage : Stage replaceAllERWithAH.
Proof. pair_stage replaceAllERWithAH. Qed.

#[export] Instance replaceAllIRWithAR_stage : Stage replaceAllIRWithAR.
Proof. pair_stage replaceAllIRWithAR. Qed.

Ltac stage_rule f :=
  split; intros segs; [|intros ?]; unfold f, tailSplice; cbv zeta; rule_cases; stage_branch.

#[export] Instance replaceEndingTION_stage : Stage (fun s => (replaceEndingTION s).1).
Proof. stage_rule replaceEndingTION. Qed.
#[export] Instance replaceEndingTY_stage : Stage (fun s => (replaceEndingTY s).1).
Proof. stage_rule replaceEndingTY. Qed.
#[export] Instance replaceEndingAY_stage : Stage (fun s => (replaceEndingAY s).1).
Proof. stage_rule replaceEndingAY. Qed.
#[export] Instance replaceEndingLY_stage : Stage replaceEndingLY.
Proof. stage_rule replaceEndingLY. Qed.
#[export] Instance applyEndingAH_stage : Stage (fun s => (applyEndingAH s).1).
Proof. stage_rule applyEndingAH. Qed.
#[export] Instance replaceEndingYToEH_stage : Stage (fun s => (replaceEndingYToEH s).1).
Proof. stage_rule replaceEndingYToEH. Qed.

Lemma suffixRules_run segs :
  (suffixRules segs).1 =
  runStages [replaceAllERWithAH; replaceAllIRWithAR; (fun s => (replaceEndingTION s).1);
             (fun s => (replaceEndingTY s).1); replaceEndingLY; (fun s => (applyEndingAH s).1);
             (fun s => (replaceEndingAY s).1); (fun s => (replaceEndingYToEH s).1)] segs.
Proof. rewrite suffixRules_fst. unfold runStages. cbn [fold_left]. reflexivity. Qed.

#[export] Instance suffixRules_stage : Stage (fun s => (suffixRules s).1).
Proof.
  assert (Stage (runStages [replaceAllERWithAH; replaceAllIRWithAR; (fun s => (replaceEndingTION s).1);
             (fun s => (replaceEndingTY s).1); replaceEndingLY; (fun s => (applyEndingAH s).1);
             (fun s => (replaceEndingAY s).1); (fun s => (replaceEndingYToEH s).1)]))
    as [Ho Hl] by (apply runStages_stage; stages_ok).
  split; intros segs; rewrite suffixRules_run; [apply Ho | apply Hl].
Qed.

(** ** The suffix stage of the older [transformWordPart] ([src/app.js],
    lines 299-304): no IR -> AR and no AY -> AEH. *)
Definition suffixRules_v1 (segs : list seg) : list seg * bool :=
  let segs := replaceAllERWithAH segs in
  let segs := (replaceEndingTION segs).1 in
  let segs := (replaceEndingTY segs).1 in
  let segs := replaceEndingLY segs in
  let '(segs, endingChangedToAH) := applyEndingAH segs in
  let segs := (replaceEndingYToEH segs).1 in
  (segs, endingChangedToAH).

Lemma suffixRules_v1_run segs :
  (suffixRules_v1 segs).1 =
  runStages [replaceAllERWithAH; (fun s => (replaceEndingTION s).1);
             (fun s => (replaceEndingTY s).1); replaceEndingLY; (fun s => (applyEndingAH s).1);
             (fun s => (replaceEndingYToEH s).1)] segs.
Proof.
  unfold suffixRules_v1. destruct (applyEndingAH _) eqn:E.
  unfold runStages. cbn [fold_left]. by rewrite E.
Qed.

#[export] Instance suffixRules_v1_stage : Stage (fun s => (suffixRules_v1 s).1).
Proof.
  assert (Stage (runStages [replaceAllERWithAH; (fun s => (replaceEndingTION s).1);
             (fun s => (replaceEndingTY s).1); replaceEndingLY; (fun s => (applyEndingAH s).1);
             (fun s => (replaceEndingYToEH s).1)]))
    as [Ho Hl] by (apply runStages_stage; stages_ok).
  split; intros segs; rewrite suffixRules_v1_run; [apply Ho | apply Hl].
Qed.

(** ** Length bounds of the suffix stage *)

(** The two replace-all loops and TION -> SHAN keep the length. *)
Lemma length_replacePairLoop a b rep fuel i segs :
  length rep = 2 -> length (replacePairLoop a b rep fuel i segs) = length segs.
Proof.
  intros Hr. revert i segs. induction fuel as [|fuel IH]; intros i segs; [done|].
  cbn [replacePairLoop]. repeat case_match; rewrite ?IH; try done.
  match goal with H : (i <? _) = true |- _ => apply Nat.ltb_lt in H end.
  rewrite length_spliceSegs, length_segFromString; lia.
Qed.

Definition endsH (segs : list seg) : bool := ends_with (spelling segs) ⟦"H"⟧.

(** The shape of the lengthening rules: a word already ending in H is left
    alone, and a change adds at most one segment and leaves the word ending
    in H. *)
Class GrowsToH (f : list seg -> list seg) : Prop := {
  growsH_fix segs : endsH segs = true -> f segs = segs;
  growsH_step segs : f segs = segs \/
    (length segs <= length (f segs) <= S (length segs) /\ endsH (f segs) = true)
}.

#[export] Instance GrowsToH_compose f g `{!GrowsToH f, !GrowsToH g} : GrowsToH (fun s => g (f s)).
Proof.
  split.
  - intros segs H. cbv beta. by rewrite (growsH_fix (f := f) segs H), (growsH_fix (f := g) segs H).
  - intros segs. cbv beta.
    destruct (growsH_step (f := f) segs) as [-> | (Hl & He)]; [apply growsH_step|].
    right. by rewrite (growsH_fix (f := g)).
Qed.

(** A rule guard [ends_with s r] and [ends_with s "H"] cannot both hold
    when [r] does not end in H. *)
Ltac endsH_clash :=
  match goal with
  | E : ends_with ?s ?r = true, H : ends_with ?s ⟦"H"⟧ = true |- _ =>
      rewrite (ends_with_through _ _ _ E) in H by (simpl; lia); vm_compute in H; discriminate
  end.

Lemma length_tailSplice segs n r :
  n <= length segs -> length (tailSplice segs n r) = length segs - n + length r.
Proof. intros Hn. unfold tailSplice. rewrite length_spliceSegs, length_segFromString; lia. Qed.

Ltac growsH_rule f :=
  split;
    [intros segs ?; unfold f, endsH in *; cbv zeta; rule_cases; first [reflexivity | endsH_clash]
    | intros segs; unfold f, endsH; cbv zeta; rule_cases; try (left; reflexivity); right;
      repeat match goal with
      | H : ends_with (spelling _) _ = true |- _ => apply ends_with_spelling_length in H; cbn in H
      end;
      rewrite length_tailSplice, ends_with_tailSplice_through by (cbn; lia);
      (split; [cbn; lia | reflexivity])].

#[export] Instance replaceEndingTY_growsH : GrowsToH (fun s => (replaceEndingTY s).1).
Proof. growsH_rule replaceEndingTY. Qed.
#[export] Instance replaceEndingLY_growsH : GrowsToH replaceEndingLY.
Proof. growsH_rule replaceEndingLY. Qed.
#[export] Instance applyEndingAH_growsH : GrowsToH (fun s => (applyEndingAH s).1).
Proof. growsH_rule applyEndingAH. Qed.
#[export] Instance replaceEndingAY_growsH : GrowsToH (fun s => (replaceEndingAY s).1).
Proof. growsH_rule replaceEndingAY. Qed.
#[export] Instance replaceEndingYToEH_growsH : GrowsToH (fun s => (replaceEndingYToEH s).1).
Proof. growsH_rule replaceEndingYToEH. Qed.

#[export] Instance GrowsToH_runStages fs : Forall (fun f => GrowsToH f) fs -> GrowsToH (runStages fs).
Proof.
  intros Hfs. induction Hfs as [|f fs Hf _ IH]; [split; auto|].
  apply (GrowsToH_compose f (runStages fs)).
Qed.

Lemma length_replaceEndingTION segs : length (replaceEndingTION segs).1 = length segs.
Proof. unfold replaceEndingTION. rule_cases; [|done]. rewrite length_tailSplice by done. cbn; lia. Qed.

(** The suffix stage never shortens a word-part and lengthens it by at most
    one segment: the lengthening rules (TY, LY, A, AY, Y) all leave an
    ending in H that every later rule leaves alone. *)
Lemma suffixRules_length segs :
  length segs <= length (suffixRules segs).1 <= S (length segs).
Proof.
  rewrite suffixRules_run.
  change [replaceAllERWithAH; replaceAllIRWithAR; ?t; ?y; ?l; ?a; ?ay; ?e]
    with ([replaceAllERWithAH; replaceAllIRWithAR; t] ++ [y; l; a; ay; e]).
  rewrite runStages_app.
  assert (Hk : length (runStages [replaceAllERWithAH; replaceAllIRWithAR;
                 (fun s => (replaceEndingTION s).1)] segs) = length segs).
  { apply length_runStages. repeat constructor; intros s;
      first [apply length_replacePairLoop; done | apply length_replaceEndingTION]. }
  assert (GrowsToH (runStages [(fun s => (replaceEndingTY s).1); replaceEndingLY;
            (fun s => (applyEndingAH s).1); (fun s => (replaceEndingAY s).1);
            (fun s => (replaceEndingYToEH s).1)])) as Hg by (apply GrowsToH_runStages; stages_ok).
  destruct (growsH_step (GrowsToH := Hg) (runStages [replaceAllERWithAH; replaceAllIRWithAR;
    (fun s => (replaceEndingTION s).1)] segs)) as [-> | [Hl _]]; lia.
Qed.

(** ** Termination of the replace-all loops *)

(** C27. The in-place loop of [replaceAllERWithAH] terminates within
    [length segs] iterations: every iteration advances the index and the
    loop stops at [length segs - 1], so any fuel from [length segs] on
    gives the same array, the one [replaceAllERWithAH] returns. *)
Theorem replaceAllERWithAH_fuel segs fuel :
  length segs <= fuel -> replacePairLoop "E" "R" ⟦"AH"⟧ fuel 0 segs = replaceAllERWithAH segs.
Proof.
  intros H. unfold replaceAllERWithAH. rewrite replacePairLoop_ref by done.
  exact (replacePairLoop_app "E" "R" ⟦"AH"⟧ eq_refl fuel [] segs H).
Qed.

(** ENTERTAINER with twice the fuel the model gives the loop. *)
Lemma replaceAllERWithAH_fuel_witness :
  replacePairLoop "E" "R" ⟦"AH"⟧ 22 0 (segFromString ⟦"entertainer"⟧ true)
  = replaceAllERWithAH (segFromString ⟦"entertainer"⟧ true).
Proof. apply replaceAllERWithAH_fuel. vm_compute. lia. Defined.
