(* ===== verification/Prefix.v ===== *)
(** * Prefix: the prefix rule set (priority 3)

    Models [replaceStartingSWWithSAW], [replaceStartingSNWithSAN] and
    [applyPrefixREToRO] of [src/unnamed/part_000] (lines 235-275) and their
    composition [prefixRules] in the order of [transformWordPart]
    (lines 381-384: SN, then SW, then RE).  The older [src/app.js] has the
    U-YOO rule [applyStartingUYoo] (lines 184-193) instead of SN/SW; it is
    modelled too ([prefixRules_v1], lines 307-308).  The length lemmas at
    the end serve the bound of [Word]. *)

From S2P Require Import Prelude Segment.

(** [if (segs.length >= 2) { a = upper segs[0]; b = upper segs[1]; ... }] *)
Definition startsWithPair (segs : list seg) (a b : ascii) : bool :=
  match segs with
  | x :: y :: _ => bool_decide (to_upper (ch x) = a) && bool_decide (to_upper (ch y) = b)
  | _ => false
  end.

(** SW -> SAW at start. *)
Definition replaceStartingSWWithSAW (segs : list seg) : list seg :=
  if startsWithPair segs "S"%char "W"%char then spliceSegs segs 0 2 (segFromString ⟦"SAW"⟧ false)
  else segs.

(** SN -> SAN at start. *)
Definition replaceStartingSNWithSAN (segs : list seg) : list seg :=
  if startsWithPair segs "S"%char "N"%char then spliceSegs segs 0 2 (segFromString ⟦"SAN"⟧ false)
  else segs.

(** Conservative RE -> RO: not for exactly "re"; only when the third
    character is a vowel. *)
Definition applyPrefixREToRO (segs : list seg) : list seg :=
  let s := segToString segs in
  let lower := lower s in
  if bool_decide (lower = ⟦"re"⟧) then segs
  else if starts_with lower ⟦"re"⟧ && (3 <=? length s) then
    match s !! 2 with
    | Some third =>
        if has VOWELS (to_upper third)
        then spliceSegs segs 0 2 (segFromString ⟦"ro"⟧ false) else segs
    | None => segs
    end
  else segs.

(** U "YOO" rule of [src/app.js]: U followed by N, S, F or T -> YAU. *)
Definition applyStartingUYoo (segs : list seg) : list seg :=
  match segs with
  | x :: y :: _ =>
      if bool_decide (to_upper (ch x) = "U"%char) && has ⟦"NSFT"⟧ (to_upper (ch y))
      then spliceSegs segs 0 1 (segFromString ⟦"YAU"⟧ false) else segs
  | _ => segs
  end.

(** The prefix stage of [transformWordPart]. *)
Definition prefixRules (segs : list seg) : list seg :=
  let segs := replaceStartingSNWithSAN segs in
  let segs := replaceStartingSWWithSAW segs in
  applyPrefixREToRO segs.

(** The prefix stage of the older [transformWordPart] in [src/app.js]. *)
Definition prefixRules_v1 (segs : list seg) : list seg :=
  let segs := applyStartingUYoo segs in
  applyPrefixREToRO segs.

(** * Lemmas and theorems *)

Lemma startsWithPair_cons2 x y t a b :
  startsWithPair (x :: y :: t) a b
  = bool_decide (to_upper (ch x) = a) && bool_decide (to_upper (ch y) = b).
Proof. done. Qed.

Lemma replaceStartingSNWithSAN_R x t :
  to_upper (ch x) = "R"%char -> replaceStartingSNWithSAN (x :: t) = x :: t.
Proof.
  intros Hx. unfold replaceStartingSNWithSAN.
  destruct t as [|y t]; [done|]. rewrite startsWithPair_cons2, Hx. done.
Qed.

Lemma replaceStartingSWWithSAW_R x t :
  to_upper (ch x) = "R"%char -> replaceStartingSWWithSAW (x :: t) = x :: t.
Proof.
  intros Hx. unfold replaceStartingSWWithSAW.
  destruct t as [|y t]; [done|]. rewrite startsWithPair_cons2, Hx. done.
Qed.

Lemma lower_cons c s : lower (c :: s) = to_lower c :: lower s.
Proof. done. Qed.

(** C16. RE -> RO follows its literal test, not its intent: any word-part
    spelled "re" + vowel + ... (case-insensitively, so REASON too) has its
    first two letters replaced by a synthesized "ro" by the prefix stage. *)
Theorem prefixRules_RE_vowel x y z t :
  to_lower (ch x) = "r"%char -> to_lower (ch y) = "e"%char -> has VOWELS (to_upper (ch z)) = true ->
  prefixRules (x :: y :: z :: t) = segFromString ⟦"ro"⟧ false ++ z :: t.
Proof.
  intros Hx Hy Hz. unfold prefixRules.
  assert (to_upper (ch x) = "R"%char) as Hux
    by (rewrite <- to_upper_to_lower, Hx; done).
  rewrite replaceStartingSNWithSAN_R, replaceStartingSWWithSAW_R by done.
  unfold applyPrefixREToRO. cbn [segToString map]. rewrite !lower_cons, Hx, Hy.
  rewrite bool_decide_eq_false_2 by (intros [=]).
  unfold starts_with. simpl. rewrite Hz. by rewrite splice_head.
Qed.

(** ** The [Stage] contract *)

Ltac prefix_stage f :=
  split; intros segs; [|intros ?]; unfold f; cbv zeta;
  repeat (case_match; try stage_branch); try stage_branch.

#[export] Instance replaceStartingSWWithSAW_stage : Stage replaceStartingSWWithSAW.
Proof. prefix_stage replaceStartingSWWithSAW. Qed.
#[export] Instance replaceStartingSNWithSAN_stage : Stage replaceStartingSNWithSAN.
Proof. prefix_stage replaceStartingSNWithSAN. Qed.
#[export] Instance applyPrefixREToRO_stage : Stage applyPrefixREToRO.
Proof. prefix_stage applyPrefixREToRO. Qed.
#[export] Instance applyStartingUYoo_stage : Stage applyStartingUYoo.
Proof. prefix_stage applyStartingUYoo. Qed.

#[export] Instance prefixRules_stage : Stage prefixRules.
Proof.
  assert (Stage (runStages [replaceStartingSNWithSAN; replaceStartingSWWithSAW; applyPrefixREToRO]))
    as [Ho Hl] by (apply runStages_stage; stages_ok).
  split; intros segs; [apply (Ho segs) | apply (Hl segs)].
Qed.

#[export] Instance prefixRules_v1_stage : Stage prefixRules_v1.
Proof.
  assert (Stage (runStages [applyStartingUYoo; applyPrefixREToRO]))
    as [Ho Hl] by (apply runStages_stage; stages_ok).
  split; intros segs; [apply (Ho segs) | apply (Hl segs)].
Qed.

(** REASON: R, E, then the vowel A. *)
Lemma prefixRules_RE_vowel_witness :
  prefixRules [mkSeg "r" true; mkSeg "e" true; mkSeg "a" true; mkSeg "s" true;
               mkSeg "o" true; mkSeg "n" true]
  = segFromString ⟦"ro"⟧ false ++
    [mkSeg "a" true; mkSeg "s" true; mkSeg "o" true; mkSeg "n" true].
Proof. apply prefixRules_RE_vowel; reflexivity. Defined.


(** ** Length *)

Lemma length_applyPrefixREToRO segs : length (applyPrefixREToRO segs) = length segs.
Proof.
  unfold applyPrefixREToRO. cbv zeta. repeat case_match; try done.
  match goal with
  | Hs : (_ && (3 <=? _)) = true |- _ =>
      apply andb_true_iff in Hs as [_ Hs%Nat.leb_le]; rewrite length_segToString in Hs
  end.
  rewrite length_spliceSegs, length_segFromString; cbn; lia.
Qed.

(** RE -> RO leaves a word-part starting with S alone. *)
Lemma applyPrefixREToRO_S x y t :
  to_lower (ch x) = "s"%char -> applyPrefixREToRO (x :: y :: t) = x :: y :: t.
Proof.
  intros Hx. unfold applyPrefixREToRO. cbn [segToString map]. rewrite !lower_cons, Hx.
  rewrite bool_decide_eq_false_2 by (intros [=]). by unfold starts_with.
Qed.

(** The prefix stage adds at most one segment, and when it adds one
    (SN -> SAN, SW -> SAW) the word-part then starts with "SA". *)
Lemma prefixRules_length segs :
  length (prefixRules segs) = length segs \/
  (length (prefixRules segs) = S (length segs)
   /\ exists x y t, prefixRules segs = x :: y :: t /\ to_upper (ch y) = "A"%char).
Proof.
  unfold prefixRules, replaceStartingSNWithSAN, replaceStartingSWWithSAW. cbv zeta.
  destruct segs as [|x [|y t]]; try (left; apply length_applyPrefixREToRO).
  destruct (startsWithPair (x :: y :: t) "S" "N") eqn:E1;
    [|destruct (startsWithPair (x :: y :: t) "S" "W") eqn:E2];
    rewrite ?splice_head; cbn -[applyPrefixREToRO];
    rewrite ?applyPrefixREToRO_S by done;
    first [right; split; [done | eauto] | left; apply length_applyPrefixREToRO].
Qed.
