(* ===== verification/Cluster.v ===== *)
(** * Cluster: consonant-cluster insertion (priority 4)

    Models [applyClusterInsertions] of [src/unnamed/part_000] (lines
    283-303): two consonants followed by R get a synthesized "A" after the
    second letter; otherwise a consonant followed by R or L gets one after
    the first letter.  At most one insertion happens. *)

From S2P Require Import Prelude Segment.

(** The segment inserted by both cases. *)
Definition insertedA : list seg := segFromString ⟦"A"⟧ false.

Definition applyClusterInsertions (segs : list seg) : list seg :=
  let rule1 :=
    match segs with
    | x :: y :: z :: _ =>
        isConsonantLetter (ch x) && isConsonantLetter (ch y)
        && bool_decide (to_upper (ch z) = "R"%char)
    | _ => false
    end in
  if rule1 then spliceSegs segs 2 2 insertedA
  else
    match segs with
    | x :: y :: _ =>
        if isConsonantLetter (ch x)
           && (bool_decide (to_upper (ch y) = "R"%char) || bool_decide (to_upper (ch y) = "L"%char))
        then spliceSegs segs 1 1 insertedA else segs
    | _ => segs
    end.

(** * Theorems *)

Lemma splice_insert segs k : spliceSegs segs k k insertedA = take k segs ++ insertedA ++ drop k segs.
Proof. unfold spliceSegs. by rewrite Nat.sub_diag, Nat.add_0_r. Qed.

(** C17. Cluster insertion adds at most one segment, a synthesized "A", right
    after the first or the second letter, and changes nothing else. *)
Theorem applyClusterInsertions_single segs :
  applyClusterInsertions segs = segs \/
  exists k, (k = 1 \/ k = 2) /\ k <= length segs /\
            applyClusterInsertions segs = take k segs ++ mkSeg "A" false :: drop k segs.
Proof.
  unfold applyClusterInsertions. cbv zeta.
  destruct segs as [|x [|y [|z t]]]; try (by left);
    repeat case_match; try (by left); right;
    first [ exists 2; rewrite splice_insert; split_and!; [lia | simpl; lia | reflexivity]
          | exists 1; rewrite splice_insert; split_and!; [lia | simpl; lia | reflexivity] ].
Qed.

#[export] Instance applyClusterInsertions_stage : Stage applyClusterInsertions.
Proof.
  split; intros segs; [|intros ?]; unfold applyClusterInsertions; cbv zeta;
    repeat (case_match; try stage_branch); try stage_branch.
Qed.

(** ** Length *)

Lemma length_applyClusterInsertions segs :
  length segs <= length (applyClusterInsertions segs) <= S (length segs).
Proof.
  unfold applyClusterInsertions. cbv zeta.
  destruct segs as [|x [|y [|z t]]]; repeat case_match; try (cbn; lia);
    rewrite splice_insert; cbn; lia.
Qed.

(** A word-part whose second letter is A gets no insertion: A is neither a
    consonant nor R or L. *)
Lemma applyClusterInsertions_second_A x y t :
  to_upper (ch y) = "A"%char -> applyClusterInsertions (x :: y :: t) = x :: y :: t.
Proof.
  intros Hy. unfold applyClusterInsertions, isConsonantLetter. cbv zeta. rewrite Hy.
  assert (has VOWELS "A"%char = true) as -> by reflexivity.
  rewrite !andb_false_r. destruct t; cbn; by rewrite ?andb_false_r.
Qed.
