(* ===== verification/Vowel.v ===== *)
(** * Vowel: the vowel-swap engine (priority 5)

    Models [PROTECTED_SUFFIXES] (with its [sort]), [protectedSuffixStartIndex]
    and [applyVowelSwaps] of [src/unnamed/part_000] (lines 50-53, 108-114,
    317-357).  The boundary, the original-vowel indices and the protected
    set are computed once from the segments before any swap; the [for] loop
    then updates [segs[i]] in place ([<[i := ...]>] below).  The loop reads
    [segs[i+1]] before position [i+1] is visited, so it equals a pure index
    map over the original segments ([vowelSwapsRef], theorem
    [applyVowelSwaps_ref]).  The end of the file proves that the table's
    sort (a stable insertion sort by decreasing length) makes the boundary
    the longest matching protected suffix, whatever the table's order. *)

From Stdlib Require Import Sorted.
From S2P Require Import Prelude Segment Suffix.

(** ** The protected-suffix table *)

(** [Array.prototype.sort] with the comparator [(a, b) => b.length -
    a.length]: a stable sort by decreasing length, written as an insertion
    sort that keeps equal-length entries in their source order. *)
Fixpoint insertByLength (x : list ascii) (l : list (list ascii)) : list (list ascii) :=
  match l with
  | [] => [x]
  | y :: l' => if length y <? length x then x :: l else y :: insertByLength x l'
  end.

Definition sortByLengthDesc (l : list (list ascii)) : list (list ascii) :=
  fold_left (fun acc x => insertByLength x acc) l [].

Definition PROTECTED_SUFFIXES : list (list ascii) :=
  sortByLengthDesc (map list_ascii_of_string
    ["SHAN"; "MENT"; "TION"; "ING"; "ED"; "ER"; "LY"; "NESS"; "ABLE"; "IBLE";
     "OUS"; "IVE"; "AL"; "ITY"]%string).

(** [for (const suf of PROTECTED_SUFFIXES) if (upper.endsWith(suf))
    return upper.length - suf.length; return upper.length;] *)
Fixpoint suffixBoundary (upper : list ascii) (sufs : list (list ascii)) : nat :=
  match sufs with
  | [] => length upper
  | suf :: rest =>
      if ends_with upper suf then length upper - length suf else suffixBoundary upper rest
  end.

Definition protectedSuffixStartIndex (segs : list seg) : nat :=
  suffixBoundary (spelling segs) PROTECTED_SUFFIXES.

(** ** The swap *)

(** Indices of original vowels ([origVowelIdx]), in increasing order. *)
Fixpoint collectOrigVowels (i : nat) (segs : list seg) : list nat :=
  match segs with
  | [] => []
  | s :: rest =>
      (if origin s && has VOWELS (to_upper (ch s)) then [i] else [])
      ++ collectOrigVowels (S i) rest
  end.

Definition origVowelIdx (segs : list seg) : list nat := collectOrigVowels 0 segs.

(** [protectSet]: the last original vowel when the ending was not changed
    to AH, and the second-to-last too when there are exactly four. *)
Definition protectSet (idx : list nat) (endingChangedToAH : bool) : list nat :=
  if negb endingChangedToAH && (1 <=? length idx) then
    default 0 (idx !! (length idx - 1))
      :: (if length idx =? 4 then [default 0 (idx !! (length idx - 2))] else [])
  else [].

(** [segs[i+1]?.ch?.toUpperCase() ?? ""] is a vowel. *)
Definition nextIsVowel (segs : list seg) (i : nat) : bool :=
  match segs !! (i + 1) with
  | Some n => has VOWELS (to_upper (ch n))
  | None => false
  end.

(** One iteration of the loop, with its [continue]s in source order. *)
Definition swapStep (boundary : nat) (protect : list nat) (segs : list seg) (i : nat)
  : list seg :=
  if boundary <=? i then segs else
  match segs !! i with
  | None => segs
  | Some s =>
      if negb (origin s) then segs
      else if negb (has SWAPPABLE (to_upper (ch s))) then segs
      else if bool_decide (i ∈ protect) then segs
      else if nextIsVowel segs i then segs
      else <[i := mkSeg "o" false]> segs
  end.

Definition applyVowelSwaps (segs : list seg) (endingChangedToAH : bool) : list seg :=
  let boundary := protectedSuffixStartIndex segs in
  let protect := protectSet (origVowelIdx segs) endingChangedToAH in
  fold_left (swapStep boundary protect) (seq 0 (length segs)) segs.

(** The pure reference: which positions swap, read off the original segments. *)
Definition swapsAt (boundary : nat) (protect : list nat) (segs : list seg) (i : nat) (s : seg)
  : bool :=
  (i <? boundary) && origin s && has SWAPPABLE (to_upper (ch s))
  && negb (bool_decide (i ∈ protect)) && negb (nextIsVowel segs i).

Definition vowelSwapsRef (boundary : nat) (protect : list nat) (segs : list seg) : list seg :=
  imap (fun i s => if swapsAt boundary protect segs i s then mkSeg "o" false else s) segs.

(** * Lemmas and theorems *)

Lemma PROTECTED_SUFFIXES_sorted :
  PROTECTED_SUFFIXES = map list_ascii_of_string
    ["SHAN"; "MENT"; "TION"; "NESS"; "ABLE"; "IBLE"; "ING"; "OUS"; "IVE"; "ITY";
     "ED"; "ER"; "LY"; "AL"]%string.
Proof. by vm_compute. Qed.

Section Swap.
Context (b : nat) (p : list nat) (segs : list seg).
Let ref := vowelSwapsRef b p segs.

Lemma swapStep_at cur k s :
    cur !! k = Some s -> cur !! (k + 1) = segs !! (k + 1) ->
    swapStep b p cur k =
    if swapsAt b p segs k s then <[k := mkSeg "o" false]> cur else cur.
  Proof.
    intros Hk Hn. unfold swapStep, swapsAt, nextIsVowel. rewrite Hk, Hn.
    destruct (Nat.leb_spec b k) as [Hb|Hb].
    - by rewrite (proj2 (Nat.ltb_ge _ _)) by lia.
    - rewrite (proj2 (Nat.ltb_lt _ _)) by lia. simpl.
      destruct (origin s); [|done]. destruct (has SWAPPABLE (to_upper (ch s))); [|done].
      destruct (bool_decide (k ∈ p)); [done|].
      destruct (segs !! (k + 1)) as [n|]; [|done]. simpl. by destruct (has VOWELS _).
  Qed.

Lemma swapLoop_prefix k :
    k <= length segs ->
    fold_left (swapStep b p) (seq 0 k) segs = take k ref ++ drop k segs.
  Proof.
    induction k as [|k IH]; intros Hk; [done|].
    rewrite seq_S, fold_left_app, IH by lia. simpl.
    destruct (lookup_lt_is_Some_2 segs k) as [s Hs]; [lia|].
    assert (Hr : ref !! k = Some (if swapsAt b p segs k s then mkSeg "o" false else s))
      by (unfold ref, vowelSwapsRef; by rewrite list_lookup_imap, Hs).
    assert (Hlen : length (take k ref) = k)
      by (rewrite length_take; unfold ref, vowelSwapsRef; rewrite length_imap; lia).
    rewrite (take_S_r _ _ _ Hr), <- app_assoc, (drop_S _ _ _ Hs).
    rewrite swapStep_at with (s := s).
    - case_match; [|done].
      rewrite insert_app_r_alt, Hlen, Nat.sub_diag by lia. done.
    - by rewrite lookup_app_r, Hlen, Nat.sub_diag by lia.
    - rewrite lookup_app_r, Hlen by lia. replace (k + 1 - k) with 1 by lia.
      change ((s :: drop (S k) segs) !! 1) with (drop (S k) segs !! 0).
      rewrite lookup_drop. f_equal. lia.
  Qed.

Lemma swapLoop_full :
    fold_left (swapStep b p) (seq 0 (length segs)) segs = vowelSwapsRef b p segs.
  Proof.
    rewrite swapLoop_prefix by done.
    rewrite drop_all, app_nil_r, take_ge; [done|].
    unfold ref, vowelSwapsRef. by rewrite length_imap.
  Qed.
End Swap.

(** C18. The in-place loop of [applyVowelSwaps] equals the pure index map
    that decides every position from the segments before the loop. *)
Theorem applyVowelSwaps_ref segs flag :
  applyVowelSwaps segs flag =
  vowelSwapsRef (protectedSuffixStartIndex segs) (protectSet (origVowelIdx segs) flag) segs.
Proof. apply swapLoop_full. Qed.

Lemma applyVowelSwaps_lookup segs flag i :
  applyVowelSwaps segs flag !! i =
  (fun s => if swapsAt (protectedSuffixStartIndex segs) (protectSet (origVowelIdx segs) flag)
                  segs i s then mkSeg "o" false else s) <$> segs !! i.
Proof. unfold applyVowelSwaps. rewrite swapLoop_full. unfold vowelSwapsRef. by rewrite list_lookup_imap. Qed.

(** A position that does not swap keeps its segment. *)
Lemma applyVowelSwaps_keep segs flag i :
  (forall s, segs !! i = Some s ->
     swapsAt (protectedSuffixStartIndex segs) (protectSet (origVowelIdx segs) flag) segs i s
     = false) ->
  applyVowelSwaps segs flag !! i = segs !! i.
Proof.
  intros H. rewrite applyVowelSwaps_lookup.
  destruct (segs !! i) as [s|] eqn:Hs; [simpl; by rewrite H | done].
Qed.

Lemma swapsAt_false_boundary b p segs i s : b <= i -> swapsAt b p segs i s = false.
Proof. intros Hb. unfold swapsAt. by rewrite (proj2 (Nat.ltb_ge _ _)). Qed.

Lemma swapsAt_false_next b p segs i s : nextIsVowel segs i = true -> swapsAt b p segs i s = false.
Proof. intros Hn. unfold swapsAt. rewrite Hn. apply andb_false_r. Qed.

Lemma swapsAt_false_synth b p segs i s : origin s = false -> swapsAt b p segs i s = false.
Proof. intros Ho. unfold swapsAt. rewrite Ho. by rewrite andb_false_r. Qed.

Lemma swapsAt_false_protect b p segs i s : i ∈ p -> swapsAt b p segs i s = false.
Proof.
  intros Hp. unfold swapsAt. rewrite bool_decide_eq_true_2 by done.
  simpl. by rewrite !andb_false_r.
Qed.

(** C19. No position at or after the protected-suffix boundary changes. *)
Theorem applyVowelSwaps_suffix_protected segs flag i :
  protectedSuffixStartIndex segs <= i -> applyVowelSwaps segs flag !! i = segs !! i.
Proof. intros Hb. apply applyVowelSwaps_keep. intros s _. by apply swapsAt_false_boundary. Qed.

(** C20. A vowel immediately followed by a vowel letter (a digraph such as
    EA in CLEAN) is never swapped. *)
Theorem applyVowelSwaps_digraph segs flag i :
  nextIsVowel segs i = true -> applyVowelSwaps segs flag !! i = segs !! i.
Proof. intros Hn. apply applyVowelSwaps_keep. intros s _. by apply swapsAt_false_next. Qed.

(** A synthesized segment (origin = false) is never touched. *)
Theorem applyVowelSwaps_synth_fixed segs flag i s :
  segs !! i = Some s -> origin s = false -> applyVowelSwaps segs flag !! i = Some s.
Proof.
  intros Hs Ho. rewrite <- Hs. apply applyVowelSwaps_keep.
  intros s' Hs'. rewrite Hs in Hs'. injection Hs' as <-. by apply swapsAt_false_synth.
Qed.

(** C21. With exactly four original vowels and an ending not changed to AH,
    the last two original vowels are kept. *)
Theorem applyVowelSwaps_tail_four segs a b c d :
  origVowelIdx segs = [a; b; c; d] ->
  applyVowelSwaps segs false !! c = segs !! c /\ applyVowelSwaps segs false !! d = segs !! d.
Proof.
  intros Hidx. split; apply applyVowelSwaps_keep; intros s _; apply swapsAt_false_protect;
    rewrite Hidx; unfold protectSet; simpl; apply list_elem_of_In; simpl; tauto.
Qed.

(** C22. Every position that changes held an original A, E or I before the
    boundary and now holds a synthesized "o". *)
Theorem applyVowelSwaps_changed segs flag i s s' :
  segs !! i = Some s -> applyVowelSwaps segs flag !! i = Some s' -> s' <> s ->
  s' = mkSeg "o" false /\ origin s = true /\ has SWAPPABLE (to_upper (ch s)) = true
  /\ i < protectedSuffixStartIndex segs.
Proof.
  intros Hs Hs' Hne. rewrite applyVowelSwaps_lookup, Hs in Hs'. simpl in Hs'.
  destruct (swapsAt _ _ _ _ _) eqn:E; injection Hs' as <-; [|done].
  unfold swapsAt in E. repeat (apply andb_true_iff in E as [E ?]).
  apply Nat.ltb_lt in E. done.
Qed.

(** A map that either keeps a segment or replaces it by a synthesized "o". *)
Lemma imap_swap_orig (f : nat -> seg -> seg) (l : list seg) :
  (forall i x, f i x = x \/ f i x = mkSeg "o" false) ->
  origChars (imap f l) `sublist_of` origChars l.
Proof.
  revert f. induction l as [|x l IH]; intros f Hf; [done|]. simpl.
  rewrite !origChars_cons.
  destruct (Hf 0 x) as [-> | ->].
  - destruct (origin x); [constructor|]; apply IH; intros; apply Hf.
  - simpl. etrans; [apply IH; intros; apply Hf|].
    destruct (origin x); [by constructor|done].
Qed.

Lemma imap_swap_letters (f : nat -> seg -> seg) (l : list seg) :
  (forall i x, f i x = x \/ f i x = mkSeg "o" false) -> letters l -> letters (imap f l).
Proof.
  revert f. induction l as [|x l IH]; intros f Hf Hl; [done|]. simpl.
  unfold letters in Hl. apply Forall_cons in Hl as [Hx Hl].
  constructor; [by destruct (Hf 0 x) as [-> | ->] |].
  apply IH; [intros; apply Hf | done].
Qed.

(** The vowel stage keeps the [Stage] contract. *)
#[export] Instance applyVowelSwaps_stage flag : Stage (fun segs => applyVowelSwaps segs flag).
Proof.
  split; intros segs; unfold applyVowelSwaps; rewrite swapLoop_full; unfold vowelSwapsRef;
    [apply imap_swap_orig | apply imap_swap_letters];
    intros i x; case_match; auto.
Qed.

(** * Witnesses on concrete word-parts *)

(** WALKING: ING is protected (boundary 4), the I at index 4 stays. *)
Lemma applyVowelSwaps_suffix_protected_witness :
  applyVowelSwaps (segFromString ⟦"walking"⟧ true) false !! 4
  = segFromString ⟦"walking"⟧ true !! 4.
Proof. apply applyVowelSwaps_suffix_protected. vm_compute. lia. Defined.

(** CLEAN: the E at index 2 is followed by A. *)
Lemma applyVowelSwaps_digraph_witness :
  applyVowelSwaps (segFromString ⟦"clean"⟧ true) false !! 2
  = segFromString ⟦"clean"⟧ true !! 2.
Proof. apply applyVowelSwaps_digraph. reflexivity. Defined.

(** The synthesized O of a RO prefix stays. *)
Lemma applyVowelSwaps_synth_fixed_witness :
  applyVowelSwaps (segFromString ⟦"ro"⟧ false ++ segFromString ⟦"ason"⟧ true) false !! 1
  = Some (mkSeg "o" false).
Proof. apply applyVowelSwaps_synth_fixed; reflexivity. Defined.

(** CALCULATOR: original vowels at 1, 4, 6, 8; the last two are kept. *)
Lemma applyVowelSwaps_tail_four_witness :
  applyVowelSwaps (segFromString ⟦"calculator"⟧ true) false !! 6
    = segFromString ⟦"calculator"⟧ true !! 6 /\
  applyVowelSwaps (segFromString ⟦"calculator"⟧ true) false !! 8
    = segFromString ⟦"calculator"⟧ true !! 8.
Proof. apply (applyVowelSwaps_tail_four _ 1 4). reflexivity. Defined.

(** WALKING: the A at index 1 becomes a synthesized o. *)
Lemma applyVowelSwaps_changed_witness :
  mkSeg "o" false = mkSeg "o" false /\ origin (mkSeg "a" true) = true
  /\ has SWAPPABLE (to_upper (ch (mkSeg "a" true))) = true
  /\ 1 < protectedSuffixStartIndex (segFromString ⟦"walking"⟧ true).
Proof.
  apply (applyVowelSwaps_changed (segFromString ⟦"walking"⟧ true) false 1);
    [reflexivity | vm_compute; reflexivity | discriminate].
Defined.

(** The swaps replace segments in place: the length is kept. *)
Lemma length_applyVowelSwaps segs flag : length (applyVowelSwaps segs flag) = length segs.
Proof. unfold applyVowelSwaps. rewrite swapLoop_full. apply length_imap. Qed.

(** ** The protected-suffix table is searched longest first *)

(** [b.length - a.length] as an order: longer entries first. *)
Definition longerFirst (x y : list ascii) : Prop := length y <= length x.

Lemma insertByLength_perm x l : insertByLength x l ≡ₚ x :: l.
Proof.
  induction l as [|y l IH]; [done|]. cbn. case_match; [done|].
  rewrite IH. apply Permutation_swap.
Qed.

Lemma sortByLengthDesc_perm l : sortByLengthDesc l ≡ₚ l.
Proof.
  unfold sortByLengthDesc. rewrite <- (app_nil_r l) at 2. generalize (@nil (list ascii)).
  induction l as [|x l IH]; intros acc; [done|]. cbn. rewrite IH, insertByLength_perm.
  by rewrite Permutation_middle.
Qed.

Lemma insertByLength_sorted x l :
  StronglySorted longerFirst l -> StronglySorted longerFirst (insertByLength x l).
Proof.
  induction 1 as [|y l Hl IH Hy]; cbn [insertByLength]; [repeat constructor|].
  destruct (length y <? length x) eqn:E.
  - apply Nat.ltb_lt in E. constructor; [by constructor|].
    constructor; [unfold longerFirst; lia|].
    eapply Forall_impl; [exact Hy | unfold longerFirst; intros; lia].
  - apply Nat.ltb_ge in E. constructor; [exact IH|].
    eapply Permutation_Forall; [symmetry; apply insertByLength_perm|].
    constructor; [exact E | exact Hy].
Qed.

Lemma sortByLengthDesc_sorted l : StronglySorted longerFirst (sortByLengthDesc l).
Proof.
  unfold sortByLengthDesc. assert (StronglySorted longerFirst (@nil (list ascii))) as H by constructor.
  revert H. generalize (@nil (list ascii)).
  induction l as [|x l IH]; intros acc Hacc; [done|]. cbn. by apply IH, insertByLength_sorted.
Qed.

Lemma StronglySorted_app_r {A} (R : A -> A -> Prop) l1 l2 :
  StronglySorted R (l1 ++ l2) -> StronglySorted R l2.
Proof. induction l1 as [|x l1 IH]; [done|]. intros [H _]%StronglySorted_inv. by apply IH. Qed.

(** The loop returns at the first entry the word ends with. *)
Lemma suffixBoundary_first u sufs :
  (suffixBoundary u sufs = length u /\ Forall (fun s => ends_with u s = false) sufs)
  \/ exists pre s post, sufs = pre ++ s :: post
       /\ Forall (fun s => ends_with u s = false) pre
       /\ ends_with u s = true /\ suffixBoundary u sufs = length u - length s.
Proof.
  induction sufs as [|s sufs IH]; [by left|]. cbn. destruct (ends_with u s) eqn:E.
  - right. by exists [], s, sufs.
  - destruct IH as [[-> Hf] | (pre & s' & post & -> & Hpre & Hs' & ->)]; [left; split; [done | by constructor]|].
    right. exists (s :: pre), s', post. split_and!; [done | by constructor | done | done].
Qed.

(** C28. Whatever the order of the editable table, [PROTECTED_SUFFIXES]'s
    sort makes [protectedSuffixStartIndex] cut off the longest protected
    suffix the word ends with (or nothing when none matches). *)
Theorem suffixBoundary_longest u table :
  (suffixBoundary u (sortByLengthDesc table) = length u
   /\ forall s, s ∈ table -> ends_with u s = false)
  \/ exists s, s ∈ table /\ ends_with u s = true
       /\ suffixBoundary u (sortByLengthDesc table) = length u - length s
       /\ forall s', s' ∈ table -> ends_with u s' = true -> length s' <= length s.
Proof.
  pose proof (sortByLengthDesc_sorted table) as Hsort.
  pose proof (sortByLengthDesc_perm table) as Hperm.
  destruct (suffixBoundary_first u (sortByLengthDesc table))
    as [[Hb Hf] | (pre & s & post & Heq & Hpre & Hs & Hb)].
  - left. split; [done|]. intros s Hin. rewrite Forall_forall in Hf. apply Hf. by rewrite Hperm.
  - right. exists s. split_and!; [rewrite <- Hperm, Heq; apply elem_of_app; right; apply elem_of_cons; by left | done | done |].
    intros s' Hin Hs'. rewrite <- Hperm, Heq in Hin. rewrite Heq in Hsort.
    apply StronglySorted_app_r, StronglySorted_inv in Hsort as [_ Hsort].
    apply elem_of_app in Hin as [Hin | [-> | Hin]%elem_of_cons]; [| done |].
    + rewrite Forall_forall in Hpre. by rewrite (Hpre s' Hin) in Hs'.
    + rewrite Forall_forall in Hsort. apply Hsort, Hin.
Qed.
