(* ===== verification/Word.v ===== *)
(** * Word: the per-word-part pipeline

    Models [transformWordPart] of [src/unnamed/part_000] (lines 361-393):
    exceptions first (a hit returns the upper-cased exception value), then
    the suffix, prefix, cluster and vowel stages on a fresh segment
    sequence, whose spelling is upper-cased.  [wordPartSegs] is the segment
    sequence the function holds just before its final
    [segToString(segs).toUpperCase()].  The older [transformWordPart] of
    [src/app.js] (lines 291-317) is modelled as [transformWordPart_v1].

    The origin and letter theorems are proved against the [Stage] contract
    of each stage; the length bound combines the length lemmas of the
    stages. *)

From S2P Require Import Prelude Segment Exceptions Suffix Prefix Cluster Vowel.

Definition wordPartSegs (part : list ascii) : list seg :=
  let segs := segFromString part true in
  let '(segs, endingChangedToAH) := suffixRules segs in
  let segs := prefixRules segs in
  let segs := applyClusterInsertions segs in
  applyVowelSwaps segs endingChangedToAH.

Definition transformWordPart (part : list ascii) : list ascii :=
  let ex := applyExceptions EXCEPTIONS part in
  if ex.1 then upper ex.2 else spelling (wordPartSegs part).

Definition wordPartSegs_v1 (part : list ascii) : list seg :=
  let segs := segFromString part true in
  let '(segs, endingChangedToAH) := suffixRules_v1 segs in
  let segs := prefixRules_v1 segs in
  let segs := applyClusterInsertions segs in
  applyVowelSwaps segs endingChangedToAH.

Definition transformWordPart_v1 (part : list ascii) : list ascii :=
  let ex := applyExceptions EXCEPTIONS_v1 part in
  if ex.1 then upper ex.2 else spelling (wordPartSegs_v1 part).

(** * Theorems *)

(** The pipeline as one run of stages, given the flag of the suffix stage. *)
Lemma wordPartSegs_run part :
  wordPartSegs part =
  runStages [prefixRules; applyClusterInsertions;
             (fun s => applyVowelSwaps s (suffixRules (segFromString part true)).2)]
    ((suffixRules (segFromString part true)).1).
Proof. unfold wordPartSegs. by destruct (suffixRules _). Qed.

Lemma wordPartSegs_v1_run part :
  wordPartSegs_v1 part =
  runStages [prefixRules_v1; applyClusterInsertions;
             (fun s => applyVowelSwaps s (suffixRules_v1 (segFromString part true)).2)]
    ((suffixRules_v1 (segFromString part true)).1).
Proof. unfold wordPartSegs_v1. by destruct (suffixRules_v1 _). Qed.

Section Contract.
Context (f : list seg -> list seg) `{!Stage f}.

Lemma stage_from_input part :
    origChars (f (segFromString part true)) `sublist_of` part.
  Proof. rewrite <- (origChars_orig part) at 2. apply stage_orig. Qed.

Lemma stage_letters_input part :
    Forall (fun c => isLetter c = true) part -> letters (f (segFromString part true)).
  Proof. intros H. by apply stage_letters, letters_segFromString. Qed.
End Contract.

Lemma wordPartSegs_stage_form part :
  exists f, Stage f /\ wordPartSegs part = f (segFromString part true).
Proof.
  set (flag := (suffixRules (segFromString part true)).2).
  exists (fun s => runStages [prefixRules; applyClusterInsertions;
                             (fun x => applyVowelSwaps x flag)] ((suffixRules s).1)).
  split; [|apply wordPartSegs_run].
  apply (@Stage_compose (fun s => (suffixRules s).1) _ _).
  apply runStages_stage. stages_ok.
Qed.

Lemma wordPartSegs_v1_stage_form part :
  exists f, Stage f /\ wordPartSegs_v1 part = f (segFromString part true).
Proof.
  set (flag := (suffixRules_v1 (segFromString part true)).2).
  exists (fun s => runStages [prefixRules_v1; applyClusterInsertions;
                             (fun x => applyVowelSwaps x flag)] ((suffixRules_v1 s).1)).
  split; [|apply wordPartSegs_v1_run].
  apply (@Stage_compose (fun s => (suffixRules_v1 s).1) _ _).
  apply runStages_stage. stages_ok.
Qed.

(** C24. The origin invariant of the whole pipeline: the characters the
    final segments still mark as user-typed form a subsequence of the
    word-part (no rule output is ever marked original). *)
Theorem wordPartSegs_orig part : origChars (wordPartSegs part) `sublist_of` part.
Proof.
  destruct (wordPartSegs_stage_form part) as (f & Hf & ->). by apply stage_from_input.
Qed.

Definition upperLetter (c : ascii) : Prop := isLetter c = true /\ to_upper c = c.

Definition upperLetterb (c : ascii) : bool := isLetter c && bool_decide (to_upper c = c).

Lemma upperLetters_lit v : forallb upperLetterb v = true -> Forall upperLetter v.
Proof.
  intros H. apply Forall_forall. intros c Hc%list_elem_of_In.
  apply (proj1 (forallb_forall _ _) H), andb_true_iff in Hc as [? ?%bool_decide_eq_true]. by split.
Qed.

Lemma spelling_letters segs : letters segs -> Forall upperLetter (spelling segs).
Proof.
  intros H. unfold spelling, upper, segToString. rewrite map_map.
  apply Forall_fmap. eapply Forall_impl; [exact H|]. intros s Hs. simpl.
  split; [by rewrite isLetter_to_upper | apply to_upper_idem].
Qed.

(** The values of [EXCEPTIONS]. *)
Definition EXCEPTION_VALUES : list (list ascii) :=
  [⟦"WELL"⟧; ⟦"YA"⟧; ⟦"THA"⟧; ⟦"FA"⟧; ⟦"PALEASE"⟧; ⟦"DODLINE"⟧; ⟦"MOSTAKES"⟧;
   ⟦"AMINAH"⟧; ⟦"DATE"⟧; ⟦"NAME"⟧; ⟦"SOT"⟧].

(** A hit of a table of fixed entries returns one of their values. *)
Ltac hit_value :=
  cbn [applyExceptions]; unfold patternMatch; cbn [alts grouped];
  repeat match goal with
  | |- context [if existsb ?f ?l then _ else _] => destruct (existsb f l)
  end; cbn; intros H; try discriminate; apply list_elem_of_In; simpl; tauto.

Lemma EXCEPTIONS_hit_value w :
  (applyExceptions EXCEPTIONS w).1 = true -> (applyExceptions EXCEPTIONS w).2 ∈ EXCEPTION_VALUES.
Proof. unfold EXCEPTIONS, word. hit_value. Qed.

(** The older table's values are among them. *)
Lemma EXCEPTIONS_v1_hit_value w :
  (applyExceptions EXCEPTIONS_v1 w).1 = true -> (applyExceptions EXCEPTIONS_v1 w).2 ∈ EXCEPTION_VALUES.
Proof. unfold EXCEPTIONS_v1, word. hit_value. Qed.

(** The shape of [transformWordPart] in both versions: an exception hit
    returns a value of the table, upper-cased; else the pipeline's
    [Stage]s run on the letters of the part. *)
Lemma exceptionsThen_letters rules (segsOf : list ascii -> list seg) part :
  (forall w, (applyExceptions rules w).1 = true -> (applyExceptions rules w).2 ∈ EXCEPTION_VALUES) ->
  (exists f, Stage f /\ segsOf part = f (segFromString part true)) ->
  Forall (fun c => isLetter c = true) part ->
  Forall upperLetter (if (applyExceptions rules part).1 then upper (applyExceptions rules part).2
                      else spelling (segsOf part)).
Proof.
  intros Hhit (f & Hf & ->) H. destruct (applyExceptions rules part).1 eqn:E.
  - apply Hhit in E. revert E. generalize (applyExceptions rules part).2.
    intros v Hv. apply upperLetters_lit.
    assert (Hall : forallb (fun v => forallb upperLetterb (upper v)) EXCEPTION_VALUES = true)
      by (vm_compute; reflexivity).
    apply list_elem_of_In in Hv. by apply (proj1 (forallb_forall _ _) Hall).
  - by apply spelling_letters, stage_letters_input.
Qed.

Lemma transformWordPart_letters part :
  Forall (fun c => isLetter c = true) part -> Forall upperLetter (transformWordPart part).
Proof. apply exceptionsThen_letters; [apply EXCEPTIONS_hit_value | apply wordPartSegs_stage_form]. Qed.

Lemma transformWordPart_v1_letters part :
  Forall (fun c => isLetter c = true) part -> Forall upperLetter (transformWordPart_v1 part).
Proof. apply exceptionsThen_letters; [apply EXCEPTIONS_v1_hit_value | apply wordPartSegs_v1_stage_form]. Qed.

(** C25. A word-part made of letters is transformed into upper-case
    letters only, whether an exception hit or the rule stages ran. *)
Theorem transformWordPart_upper_letters part :
  Forall (fun c => isLetter c = true) part -> Forall upperLetter (transformWordPart part).
Proof. apply transformWordPart_letters. Qed.

(** C5. Exception priority: when a word-part matches an entry of the
    exception table, its output is exactly the value of the first matching
    entry, upper-cased, whatever the rule stages would produce. *)
Theorem transformWordPart_exception part i ex :
  list_find (fun ex => ruleMatches ex part = true) EXCEPTIONS = Some (i, ex) ->
  transformWordPart part = upper (ruleOutput ex part).
Proof.
  intros Hf. unfold transformWordPart. rewrite applyExceptions_find, Hf. done.
Qed.

(** THE hits the fourth entry of the table. *)
Lemma transformWordPart_exception_witness :
  transformWordPart ⟦"the"⟧ = upper (ruleOutput (word "the" "THA") ⟦"the"⟧).
Proof. apply (transformWordPart_exception _ 3). vm_compute. reflexivity. Defined.

(** SNAKE is made of letters. *)
Lemma transformWordPart_upper_letters_witness :
  Forall upperLetter (transformWordPart ⟦"snake"⟧).
Proof. apply transformWordPart_upper_letters. repeat constructor. Defined.

(** C26. Bounds on the rule path: a word-part that hits no exception is
    never shortened and grows by at most two characters.  The suffix stage
    adds at most one (every lengthening rule leaves an ending in H that
    the later rules skip), the prefix stage at most one (SN -> SAN or
    SW -> SAW, and then the word starts with "SA", so cluster insertion
    does nothing), otherwise cluster insertion at most one; vowel swaps
    keep the length. *)
Theorem transformWordPart_length part :
  (applyExceptions EXCEPTIONS part).1 = false ->
  length part <= length (transformWordPart part) <= length part + 2.
Proof.
  intros Hex. unfold transformWordPart. cbv zeta. rewrite Hex, length_spelling.
  unfold wordPartSegs. pose proof (suffixRules_length (segFromString part true)) as Hs.
  rewrite length_segFromString in Hs.
  destruct (suffixRules (segFromString part true)) as [s1 fl]. cbn in Hs |- *.
  rewrite length_applyVowelSwaps.
  destruct (prefixRules_length s1) as [Hp | (Hp & x & y & t & Ht & Hy)].
  - pose proof (length_applyClusterInsertions (prefixRules s1)). lia.
  - rewrite Ht, applyClusterInsertions_second_A, <- Ht by done. lia.
Qed.

(** SNAPPY hits no exception; it becomes SANAPPEH, two characters longer. *)
Lemma transformWordPart_length_witness :
  transformWordPart ⟦"snappy"⟧ = ⟦"SANAPPEH"⟧ /\
  length ⟦"snappy"⟧ <= length (transformWordPart ⟦"snappy"⟧) <= length ⟦"snappy"⟧ + 2.
Proof. split; [vm_compute; reflexivity | apply transformWordPart_length; vm_compute; reflexivity]. Defined.
