(* ===== verification/Text.v ===== *)
(** * Text: token scanning, token transformation and [convertText]

    Models [WORD_TOKEN_RE], [transformWordToken] and [convertText] of
    [src/unnamed/part_000] (lines 55, 395-419) and their [src/app.js]
    counterparts (lines 48, 320-342).

    [input.matchAll(/[A-Za-z]+(?:[-'][A-Za-z]+)*/g)] is modelled by a
    structural lexer [scan]: a token is a maximal run of letters, extended
    by a separator ([-] or [']) only when a letter follows it; everything
    else is a one-character gap copied verbatim.  The regex is greedy and
    every alternative consumes letters first, so leftmost-greedy matching
    is maximal munch, which [scan_maximal] states; [Regex] runs the regex
    itself and proves the loop over its matches equal to [convertText]
    here.  [token.split(/([-'])/)] keeps the separators ([splitSep]).  The
    theorems show what the scanner produces, that gaps are kept in place
    and that [convertText] changes letters only. *)

From S2P Require Import Prelude Segment Exceptions Suffix Prefix Cluster Vowel Word.

Definition isSep (c : ascii) : bool :=
  bool_decide (c = "-"%char) || bool_decide (c = "'"%char).

Inductive lexState :=
  | Out
  | InTok (acc : list ascii)
  | AfterSep (acc : list ascii) (sep : ascii).

Inductive piece := Gap (c : ascii) | Tok (t : list ascii).

Fixpoint scan (st : lexState) (s : list ascii) : list piece :=
  match s with
  | [] =>
      match st with
      | Out => []
      | InTok acc => [Tok acc]
      | AfterSep acc sep => [Tok acc; Gap sep]
      end
  | c :: r =>
      match st with
      | Out => if isLetter c then scan (InTok [c]) r else Gap c :: scan Out r
      | InTok acc =>
          if isLetter c then scan (InTok (acc ++ [c])) r
          else if isSep c then scan (AfterSep acc c) r
          else Tok acc :: Gap c :: scan Out r
      | AfterSep acc sep =>
          if isLetter c then scan (InTok (acc ++ [sep; c])) r
          else Tok acc :: Gap sep :: Gap c :: scan Out r
      end
  end.

Definition scanText (input : list ascii) : list piece := scan Out input.

(** [token.split(/([-'])/)]: the pieces between separators, each separator
    kept as a piece of its own. *)
Fixpoint splitSep (acc : list ascii) (t : list ascii) : list (list ascii) :=
  match t with
  | [] => [acc]
  | c :: r => if isSep c then acc :: [c] :: splitSep [] r else splitSep (acc ++ [c]) r
  end.

Definition transformPieces (tr : list ascii -> list ascii) (token : list ascii) : list ascii :=
  concat (map (fun part =>
    if bool_decide (part = ⟦"-"⟧) || bool_decide (part = ⟦"'"⟧) then part else tr part)
    (splitSep [] token)).

Definition transformWordToken (token : list ascii) : list ascii :=
  transformPieces transformWordPart token.

Definition transformWordToken_v1 (token : list ascii) : list ascii :=
  transformPieces transformWordPart_v1 token.

(** [out += input.slice(last, m.index); out += transformWordToken(m[0]);
    ... out += input.slice(last); return out.toUpperCase();] *)
Definition renderWith (tok : list ascii -> list ascii) (ps : list piece) : list ascii :=
  concat (map (fun p => match p with Gap c => [c] | Tok t => tok t end) ps).

Definition convertText (input : list ascii) : list ascii :=
  upper (renderWith transformWordToken (scanText input)).

Definition convertText_v1 (input : list ascii) : list ascii :=
  upper (renderWith transformWordToken_v1 (scanText input)).

(** [convertText] on JavaScript-level strings. *)
Definition convert (s : string) : string :=
  string_of_list_ascii (convertText (list_ascii_of_string s)).

Definition convert_v1 (s : string) : string :=
  string_of_list_ascii (convertText_v1 (list_ascii_of_string s)).

(** * The language of tokens *)

Definition letterRun (w : list ascii) : Prop := w <> [] /\ Forall (fun c => isLetter c = true) w.

(** [[A-Za-z]+(?:[-'][A-Za-z]+)*] *)
Inductive wordToken : list ascii -> Prop :=
  | wt_letters w : letterRun w -> wordToken w
  | wt_sep t c w : wordToken t -> isSep c = true -> letterRun w -> wordToken (t ++ c :: w).

Definition pieceOk (p : piece) : Prop :=
  match p with Gap c => isLetter c = false | Tok t => wordToken t end.

(** No token could have been extended: two tokens are never adjacent, and a
    token is never followed by one separator and then another token. *)
Fixpoint wellSeparated (ps : list piece) : bool :=
  match ps with
  | Tok _ :: ((Tok _ :: _) as r) => false
  | Tok _ :: ((Gap c :: Tok _ :: _) as r) => negb (isSep c) && wellSeparated r
  | _ :: r => wellSeparated r
  | [] => true
  end.

Definition pieceText (p : piece) : list ascii := match p with Gap c => [c] | Tok t => t end.

Definition stateText (st : lexState) : list ascii :=
  match st with Out => [] | InTok acc => acc | AfterSep acc sep => acc ++ [sep] end.

Definition stateOk (st : lexState) : Prop :=
  match st with
  | Out => True
  | InTok acc => wordToken acc
  | AfterSep acc sep => wordToken acc /\ isSep sep = true
  end.

Lemma isSep_not_letter c : isSep c = true -> isLetter c = false.
Proof. unfold isSep. intros H. apply orb_true_iff in H as [H|H]; apply bool_decide_eq_true in H; by subst. Qed.

Lemma wordToken_snoc t c : wordToken t -> isLetter c = true -> wordToken (t ++ [c]).
Proof.
  intros Ht Hc. destruct Ht as [w [Hne Hw] | t c' w Ht Hs [Hne Hw]].
  - apply wt_letters. split; [by destruct w|]. apply Forall_app; auto.
  - rewrite <- app_assoc. simpl. apply wt_sep; [done|done|].
    split; [by destruct w|]. apply Forall_app; auto.
Qed.

Lemma letterRun_single c : isLetter c = true -> letterRun [c].
Proof. intros H. split; [done|by constructor]. Qed.

Lemma wellSeparated_gap c ps : wellSeparated (Gap c :: ps) = wellSeparated ps.
Proof. done. Qed.

Lemma wellSeparated_tok_gap t c ps :
  isSep c = false -> wellSeparated (Tok t :: Gap c :: ps) = wellSeparated ps.
Proof. intros Hc. destruct ps as [|[] ps]; simpl; try rewrite Hc; done. Qed.

Lemma wellSeparated_tok_gap_gap t c d ps :
  wellSeparated (Tok t :: Gap c :: Gap d :: ps) = wellSeparated ps.
Proof. done. Qed.

Section ScanInvariants.

Lemma scan_text st s : concat (map pieceText (scan st s)) = stateText st ++ s.
Proof.
  revert st. induction s as [|c r IH]; intros st; destruct st as [|acc|acc sep]; simpl;
    rewrite ?app_nil_r; try done;
    repeat case_match; simpl; rewrite ?IH; simpl; rewrite <- ?app_assoc; done.
Qed.

Lemma scan_ok st s : stateOk st -> Forall pieceOk (scan st s).
Proof.
  revert st. induction s as [|c r IH]; intros st Hst; destruct st as [|acc|acc sep]; simpl.
  - done.
  - by apply Forall_singleton.
  - destruct Hst. apply Forall_cons; split; [done|]. apply Forall_singleton.
    simpl. auto using isSep_not_letter.
  - destruct (isLetter c) eqn:Hc; [apply IH; by apply wt_letters, letterRun_single|].
    constructor; [done|by apply IH].
  - destruct (isLetter c) eqn:Hc; [apply IH; by apply wordToken_snoc|].
    destruct (isSep c) eqn:Hs; [apply IH; done|].
    apply Forall_cons; split; [done|]. apply Forall_cons; split; [done|]. by apply IH.
  - destruct Hst as [Ht Hs]. destruct (isLetter c) eqn:Hc.
    + apply IH. simpl. change (acc ++ [sep; c]) with (acc ++ sep :: [c]).
      apply wt_sep; auto using letterRun_single.
    + apply Forall_cons; split; [done|]. apply Forall_cons; split; [simpl; auto using isSep_not_letter|].
      apply Forall_cons; split; [done|]. by apply IH.
Qed.

Lemma scan_separated st s : wellSeparated (scan st s) = true.
Proof.
  revert st. induction s as [|c r IH]; intros st; destruct st as [|acc|acc sep]; simpl;
    try done.
  - case_match; [apply IH|]. rewrite wellSeparated_gap. apply IH.
  - destruct (isLetter c); [apply IH|]. destruct (isSep c) eqn:Hs; [apply IH|].
    rewrite wellSeparated_tok_gap by done. apply IH.
  - case_match; [apply IH|]. rewrite wellSeparated_tok_gap_gap. apply IH.
Qed.
End ScanInvariants.

(** C1. The scanner loses nothing: the gaps and tokens it cuts the input
    into concatenate back to the input. *)
Theorem scanText_roundtrip input : concat (map pieceText (scanText input)) = input.
Proof. apply (scan_text Out). Qed.

(** C2. Every token the scanner reports is a word of
    [[A-Za-z]+([-'][A-Za-z]+)*] and every gap character is a non-letter. *)
Theorem scanText_pieces_ok input : Forall pieceOk (scanText input).
Proof. by apply (scan_ok Out). Qed.

(** C3. Tokens are maximal, as [matchAll]'s greedy matches are: no token is
    followed directly by another token, nor by a single separator and a
    token. *)
Theorem scanText_maximal input : wellSeparated (scanText input) = true.
Proof. apply scan_separated. Qed.

(** * [convertText] *)

Lemma upper_concat_map {A} (f : A -> list ascii) (l : list A) :
  upper (concat (map f l)) = concat (map (fun x => upper (f x)) l).
Proof. induction l as [|x l IH]; [done|]. simpl. by rewrite upper_app, IH. Qed.

(** C4. Whitespace, punctuation, digits and stray separators are kept in
    place: [convertText] emits every gap character of the input unchanged,
    and in its place each token's transformed, upper-cased text. *)
Theorem convertText_gaps input :
  convertText input =
  concat (map (fun p => match p with Gap c => [c] | Tok t => upper (transformWordToken t) end)
              (scanText input)).
Proof.
  unfold convertText, renderWith. rewrite upper_concat_map.
  pose proof (scan_ok Out input I) as Hok. fold (scanText input) in Hok. induction Hok as [|[c|t] ps Hp _ IH]; [done| |];
    simpl; rewrite IH; [|done]. simpl in Hp. by rewrite to_upper_nonletter.
Qed.

Lemma splitSep_concat acc t : concat (splitSep acc t) = acc ++ t.
Proof.
  revert acc. induction t as [|c t IH]; intros acc; simpl; [by rewrite app_nil_r|].
  case_match; simpl; rewrite IH; [done|]. by rewrite <- app_assoc.
Qed.

(** C37. Boundary inputs: a text without letters (empty, blanks, digits,
    punctuation, lone hyphens and apostrophes) has no token, and
    [convertText] returns it unchanged. *)
Theorem convertText_letter_free input :
  Forall (fun c => isLetter c = false) input -> convertText input = input.
Proof.
  intros H. unfold convertText, scanText.
  assert (Hs : scan Out input = map Gap input).
  { induction H as [|c s Hc _ IH]; [done|]. cbn. by rewrite Hc, IH. }
  rewrite Hs. clear Hs. induction H as [|c s Hc _ IH]; [done|].
  cbn. rewrite to_upper_nonletter by done. f_equal. exact IH.
Qed.

(** Blanks, digits, punctuation and a lone hyphen. *)
Lemma convertText_letter_free_witness :
  convertText ⟦" 42, - '!"⟧ = ⟦" 42, - '!"⟧.
Proof. apply convertText_letter_free. repeat constructor. Defined.

(** * What [convertText] leaves alone *)

(** [c] is not a letter: the characters [convertText] must keep. *)
Definition nonLetter (c : ascii) : bool := negb (isLetter c).

Lemma filter_letters_nil x : Forall (fun c => isLetter c = true) x -> List.filter nonLetter x = [].
Proof. induction 1 as [|c x Hc _ IH]; [done|]. cbn [List.filter]. unfold nonLetter at 1. by rewrite Hc. Qed.

Lemma filter_upper x : List.filter nonLetter (upper x) = List.filter nonLetter x.
Proof.
  induction x as [|c x IH]; [done|]. cbn [upper map List.filter]. fold (upper x).
  unfold nonLetter at 1. rewrite isLetter_to_upper, IH. fold (nonLetter c).
  destruct (nonLetter c) eqn:Hc; [|done]. rewrite to_upper_nonletter; [done|].
  unfold nonLetter in Hc. by destruct (isLetter c).
Qed.

Lemma wordToken_chars t : wordToken t -> Forall (fun c => isLetter c || isSep c = true) t.
Proof.
  induction 1 as [w [_ Hw]|t c w _ IH Hc [_ Hw]].
  - eapply Forall_impl; [exact Hw|]. intros c ->. done.
  - apply Forall_app. split; [done|]. constructor; [by rewrite Hc, orb_true_r|].
    eapply Forall_impl; [exact Hw|]. intros d ->. done.
Qed.

Definition sepPart (part : list ascii) : bool :=
  bool_decide (part = ⟦"-"⟧) || bool_decide (part = ⟦"'"⟧).

Lemma isSep_sepPart c : isSep c = true -> sepPart [c] = true.
Proof.
  unfold isSep, sepPart. intros [H|H]%orb_true_iff; apply bool_decide_eq_true in H as ->; done.
Qed.

(** The pieces of [token.split(/([-'])/)] of a token: separators, kept
    as pieces of their own, and runs of letters. *)
Lemma splitSep_parts acc t :
  Forall (fun c => isLetter c = true) acc -> Forall (fun c => isLetter c || isSep c = true) t ->
  Forall (fun p => sepPart p = true \/ Forall (fun c => isLetter c = true) p) (splitSep acc t).
Proof.
  revert acc. induction t as [|c t IH]; intros acc Hacc Ht; cbn; [constructor; [by right | constructor]|].
  apply Forall_cons in Ht as [Hc Ht]. case_match.
  - constructor; [by right|]. constructor; [left; by apply isSep_sepPart|]. by apply IH.
  - apply IH; [|done]. apply Forall_app. split; [done|]. constructor; [|done].
    destruct (isLetter c); [done|]. by rewrite orb_false_l in Hc.
Qed.

Lemma upperLetters_letters x : Forall upperLetter x -> Forall (fun c => isLetter c = true) x.
Proof. intros H. eapply Forall_impl; [exact H|]. by intros c [? _]. Qed.

Lemma upper_fixed x : Forall (fun c => to_upper c = c) x -> upper x = x.
Proof. induction 1 as [|c x Hc _ IH]; [done|]. change (upper (c :: x)) with (to_upper c :: upper x). by rewrite Hc, IH. Qed.

Lemma upperLetters_fixed x : Forall upperLetter x -> upper x = x.
Proof. intros H. apply upper_fixed. eapply Forall_impl; [exact H|]. by intros c [_ ?]. Qed.

Lemma sepPart_upper_fixed p : sepPart p = true -> upper p = p.
Proof. unfold sepPart. intros [H|H]%orb_true_iff; by apply bool_decide_eq_true in H as ->. Qed.

(** What the token transform of both versions has in common: it maps a
    run of letters to upper-case letters. *)
Section Skeleton.
Context (tr : list ascii -> list ascii).
Hypothesis tr_upper :
  forall p, Forall (fun c => isLetter c = true) p -> Forall upperLetter (tr p).

(** The pieces of a token, transformed, each with what it keeps. *)
Lemma transformPieces_parts t (P : list ascii -> Prop) :
  wordToken t ->
  (forall p, sepPart p = true -> P p) ->
  (forall p, Forall (fun c => isLetter c = true) p -> sepPart p = false -> P p) ->
  Forall P (splitSep [] t).
Proof.
  intros Ht Hs Hl. eapply Forall_impl; [apply splitSep_parts; [done | by apply wordToken_chars]|].
  intros p [Hp|Hp]; [by apply Hs|]. destruct (sepPart p) eqn:E; [by apply Hs | by apply Hl].
Qed.

Lemma transformPieces_skeleton t :
  wordToken t -> List.filter nonLetter (transformPieces tr t) = List.filter nonLetter t.
Proof.
  intros Ht. unfold transformPieces. rewrite <- List.concat_filter_map, map_map.
  rewrite <- (splitSep_concat [] t) at 2. rewrite <- List.concat_filter_map. f_equal.
  apply map_ext_Forall. apply transformPieces_parts; [done| |]; intros p Hp; fold (sepPart p);
    [by rewrite Hp | intros ->]. rewrite !filter_letters_nil; auto using upperLetters_letters.
Qed.

Lemma transformPieces_upper_fixed t :
  wordToken t -> upper (transformPieces tr t) = transformPieces tr t.
Proof.
  intros Ht. unfold transformPieces. rewrite upper_concat_map. f_equal.
  apply map_ext_Forall. apply transformPieces_parts; [done| |]; intros p Hp; fold (sepPart p);
    [rewrite Hp; by apply sepPart_upper_fixed | intros ->]. by apply upperLetters_fixed, tr_upper.
Qed.

Lemma render_skeleton input :
  List.filter nonLetter (upper (renderWith (transformPieces tr) (scanText input)))
  = List.filter nonLetter input.
Proof.
  rewrite filter_upper. unfold renderWith.
  rewrite <- (scan_text Out input) at 2. cbn [stateText app].
  rewrite <- !List.concat_filter_map, !map_map. f_equal. apply map_ext_Forall.
  eapply Forall_impl; [apply (scan_ok Out input I)|]. intros [c|t] Hp; cbn in Hp |- *; [done|].
  by apply transformPieces_skeleton.
Qed.

Lemma render_upper_fixed input :
  upper (renderWith (transformPieces tr) (scanText input)) = renderWith (transformPieces tr) (scanText input).
Proof.
  unfold renderWith. rewrite upper_concat_map. f_equal. apply map_ext_Forall.
  eapply Forall_impl; [apply (scan_ok Out input I)|]. intros [c|t] Hp; cbn in Hp |- *.
  - by rewrite to_upper_nonletter.
  - by apply transformPieces_upper_fixed.
Qed.
End Skeleton.

(** C8. [convertText] changes letters only: the characters of the output
    that are not letters (blanks, punctuation, digits, the hyphens and
    apostrophes inside tokens) are those of the input, in the same order;
    in both versions of the program. *)
Theorem convertText_skeleton input :
  List.filter nonLetter (convertText input) = List.filter nonLetter input /\
  List.filter nonLetter (convertText_v1 input) = List.filter nonLetter input.
Proof. split; apply render_skeleton; [apply transformWordPart_letters | apply transformWordPart_v1_letters]. Qed.

(** C9. The final [out.toUpperCase()] of [convertText] changes nothing on
    7-bit text: a gap is never a letter and a transformed token is already
    upper-case (the spec calls the final upper-casing idempotent on the
    pipeline's output and a no-op on punctuation); in both versions. *)
Theorem convertText_final_upper_redundant input :
  convertText input = renderWith transformWordToken (scanText input) /\
  convertText_v1 input = renderWith transformWordToken_v1 (scanText input).
Proof. split; apply render_upper_fixed; [apply transformWordPart_letters | apply transformWordPart_v1_letters]. Qed.

(** * Scenarios of the spec, evaluated on the model *)

(** The spec's scenarios that the code meets: exceptions THE and
    PLEASE, and cluster insertion with digraph protection in CLEAN. *)
Example convert_spec_scenarios :
  convert "the" = "THA" /\ convert "please" = "PALEASE" /\ convert "clean" = "CALEAN".
Proof. vm_compute. auto. Qed.


