(* ===== verification/Case.v ===== *)
(** * Case: the converter ignores the case of its input

    Every test of a rule reads a character through [toUpperCase()] (the
    spelling, [startsWithPair], the vowel sets) or compares lower-cased
    strings ([applyPrefixREToRO], literal exceptions), and the pattern
    exceptions are [/.../i].  This file makes that a theorem.  Segment
    sequences that differ only in letter case are related by [caseEq] (the
    same upper-cased characters, the same origin marks); every stage of
    [transformWordPart] is a morphism of [caseEq] ([Proper] instances,
    composed as the stages are), the exception table with fixed outputs
    gives the same answer on [upper w] as on [w], and the lexer commutes
    with [upper].  Hence [transformWordPart], [transformWordToken] and
    [convertText] give equal outputs on inputs equal up to case, in the
    current version and in the older one of [src/app.js]. *)

From Stdlib Require Import Morphisms.
From S2P Require Import Prelude Segment Exceptions Suffix Prefix Cluster Vowel Word Text.

(** ** Equality up to case *)

Definition segCase (x y : seg) : Prop :=
  to_upper (ch x) = to_upper (ch y) /\ origin x = origin y.

Definition caseEq : relation (list seg) := Forall2 segCase.

(** Strings equal up to case. *)
Definition strCase (a b : list ascii) : Prop := upper a = upper b.

#[export] Instance segCase_equiv : Equivalence segCase.
Proof.
  split; [by split | intros ?? [??]; by split | intros ??? [??] [??]; split; congruence].
Qed.

#[export] Instance caseEq_equiv : Equivalence caseEq.
Proof. unfold caseEq. apply _. Qed.

(** ** What [caseEq] preserves *)

Lemma Forall2_map_eq {A B} (R : A -> A -> Prop) (g : A -> B) l k :
  (forall x y, R x y -> g x = g y) -> Forall2 R l k -> map g l = map g k.
Proof. intros Hg Hlk. induction Hlk as [|x y l k Hxy _ IH]; [done|]. cbn. by rewrite (Hg _ _ Hxy), IH. Qed.

Lemma caseEq_chars s t :
  caseEq s t -> Forall2 (fun a b => to_upper a = to_upper b) (segToString s) (segToString t).
Proof. induction 1 as [|x y s t [Hc _] _ IH]; constructor; auto. Qed.

Section CaseEq.
Context (s t : list seg) (H : caseEq s t).

Lemma caseEq_map {B} (g : seg -> B) :
  (forall x y, segCase x y -> g x = g y) -> map g s = map g t.
Proof. intros Hg. exact (Forall2_map_eq _ g _ _ Hg H). Qed.

Lemma caseEq_length : length s = length t.
Proof. by eapply Forall2_length. Qed.

Lemma caseEq_spelling : spelling s = spelling t.
Proof.
  unfold spelling, upper, segToString. rewrite !map_map.
  apply caseEq_map. by intros ?? [??].
Qed.

Lemma caseEq_lower : lower (segToString s) = lower (segToString t).
Proof.
  unfold lower, segToString. rewrite !map_map. apply caseEq_map.
  intros x y [Hc _]. by rewrite <- (to_lower_to_upper (ch x)), Hc, to_lower_to_upper.
Qed.

Lemma caseEq_lookup i :
  (s !! i = None /\ t !! i = None) \/
  exists x y, s !! i = Some x /\ t !! i = Some y /\ segCase x y.
Proof.
  pose proof (proj1 (Forall2_lookup _ _ _) H i) as Hi.
  inversion Hi; [right; eauto | left; auto].
Qed.
End CaseEq.

(** Two segments equal up to case pass the same upper-case tests. *)
Lemma segCase_upper x y c : segCase x y -> bool_decide (to_upper (ch x) = c) = bool_decide (to_upper (ch y) = c).
Proof. by intros [-> _]. Qed.

Lemma isConsonantLetter_to_upper c : isConsonantLetter (to_upper c) = isConsonantLetter c.
Proof. ascii_cases c. Qed.

Lemma segCase_consonant x y : segCase x y -> isConsonantLetter (ch x) = isConsonantLetter (ch y).
Proof. intros [Hc _]. by rewrite <- isConsonantLetter_to_upper, Hc, isConsonantLetter_to_upper. Qed.

#[export] Instance spliceSegs_proper : Proper (caseEq ==> eq ==> eq ==> eq ==> caseEq) spliceSegs.
Proof.
  intros s t H i ? <- j ? <- ins ? <-. unfold spliceSegs.
  apply Forall2_app; [by apply Forall2_take|]. apply Forall2_app; [reflexivity|]. by apply Forall2_drop.
Qed.

Lemma tailSplice_case s t n r : caseEq s t -> caseEq (tailSplice s n r) (tailSplice t n r).
Proof. intros H. unfold tailSplice. rewrite (caseEq_length _ _ H). by apply spliceSegs_proper. Qed.

Lemma spliceSegs_case s t i j ins : caseEq s t -> caseEq (spliceSegs s i j ins) (spliceSegs t i j ins).
Proof. intros H. by apply spliceSegs_proper. Qed.

Lemma caseEq_nil : caseEq [] [].
Proof. constructor. Qed.

Lemma caseEq_cons x y s t : segCase x y -> caseEq s t -> caseEq (x :: s) (y :: t).
Proof. by constructor. Qed.

#[export] Hint Resolve tailSplice_case spliceSegs_case caseEq_nil caseEq_cons : naamrot.

(** Pairs of segments and a flag, as the ending rules return them. *)
Definition caseFlag : relation (list seg * bool) :=
  fun p q => caseEq p.1 q.1 /\ p.2 = q.2.

Lemma caseFlag_fst (f : list seg -> list seg * bool) :
  Proper (caseEq ==> caseFlag) f -> Proper (caseEq ==> caseEq) (fun s => (f s).1).
Proof. intros Hf s t H. apply (Hf s t H). Qed.

(** A sequence of case-respecting stages respects case. *)
Lemma runStages_case fs :
  Forall (fun f => Proper (caseEq ==> caseEq) f) fs -> Proper (caseEq ==> caseEq) (runStages fs).
Proof.
  intros Hfs. induction Hfs as [|f fs Hf _ IH]; intros s t H; [done|].
  cbn. apply IH, Hf, H.
Qed.

(** ** The suffix stage *)

Section PairCase.
Context (a b : ascii) (rep : list ascii).

(** Every iteration of the in-place loop makes the same decision on two
    sequences equal up to case. *)
Lemma replacePairLoop_case fuel i s t :
  caseEq s t -> caseEq (replacePairLoop a b rep fuel i s) (replacePairLoop a b rep fuel i t).
Proof.
  revert i s t. induction fuel as [|fuel IH]; intros i s t H; [done|]. cbn [replacePairLoop].
  rewrite (caseEq_length _ _ H). destruct (i <? length t - 1); [|done].
  destruct (caseEq_lookup _ _ H i) as [[-> ->]|(x & x' & -> & -> & Hx)]; [done|].
  destruct (caseEq_lookup _ _ H (i + 1)) as [[-> ->]|(y & y' & -> & -> & Hy)]; [done|].
  rewrite (segCase_upper _ _ _ Hx), (segCase_upper _ _ _ Hy).
  case_match; apply IH; [by apply spliceSegs_proper | done].
Qed.
End PairCase.

#[export] Instance replaceAllERWithAH_proper : Proper (caseEq ==> caseEq) replaceAllERWithAH.
Proof. intros s t H. unfold replaceAllERWithAH. rewrite (caseEq_length _ _ H). by apply replacePairLoop_case. Qed.

#[export] Instance replaceAllIRWithAR_proper : Proper (caseEq ==> caseEq) replaceAllIRWithAR.
Proof. intros s t H. unfold replaceAllIRWithAR. rewrite (caseEq_length _ _ H). by apply replacePairLoop_case. Qed.

(** An ending rule tests the spelling and the length only, and splices
    the same tail into both sequences. *)
Ltac ending_case f :=
  intros s t H; unfold f; cbv zeta;
  rewrite (caseEq_spelling _ _ H); try rewrite (caseEq_length _ _ H);
  repeat match goal with |- context [if ?c then _ else _] => destruct c end;
  try split; cbn [fst snd]; auto with naamrot.

#[export] Instance replaceEndingTION_proper : Proper (caseEq ==> caseFlag) replaceEndingTION.
Proof. ending_case replaceEndingTION. Qed.
#[export] Instance replaceEndingTY_proper : Proper (caseEq ==> caseFlag) replaceEndingTY.
Proof. ending_case replaceEndingTY. Qed.
#[export] Instance replaceEndingAY_proper : Proper (caseEq ==> caseFlag) replaceEndingAY.
Proof. ending_case replaceEndingAY. Qed.
#[export] Instance applyEndingAH_proper : Proper (caseEq ==> caseFlag) applyEndingAH.
Proof. ending_case applyEndingAH. Qed.
#[export] Instance replaceEndingYToEH_proper : Proper (caseEq ==> caseFlag) replaceEndingYToEH.
Proof. ending_case replaceEndingYToEH. Qed.
#[export] Instance replaceEndingLY_proper : Proper (caseEq ==> caseEq) replaceEndingLY.
Proof. ending_case replaceEndingLY. Qed.

#[export] Instance replaceEndingTION_fst_proper : Proper (caseEq ==> caseEq) (fun s => (replaceEndingTION s).1).
Proof. apply caseFlag_fst, _. Qed.
#[export] Instance replaceEndingTY_fst_proper : Proper (caseEq ==> caseEq) (fun s => (replaceEndingTY s).1).
Proof. apply caseFlag_fst, _. Qed.
#[export] Instance replaceEndingAY_fst_proper : Proper (caseEq ==> caseEq) (fun s => (replaceEndingAY s).1).
Proof. apply caseFlag_fst, _. Qed.
#[export] Instance applyEndingAH_fst_proper : Proper (caseEq ==> caseEq) (fun s => (applyEndingAH s).1).
Proof. apply caseFlag_fst, _. Qed.
#[export] Instance replaceEndingYToEH_fst_proper : Proper (caseEq ==> caseEq) (fun s => (replaceEndingYToEH s).1).
Proof. apply caseFlag_fst, _. Qed.

#[export] Instance suffixBeforeAH_proper : Proper (caseEq ==> caseEq) suffixBeforeAH.
Proof.
  intros s t H. change (caseEq (runStages [replaceAllERWithAH; replaceAllIRWithAR;
    (fun s => (replaceEndingTION s).1); (fun s => (replaceEndingTY s).1); replaceEndingLY] s)
    (runStages [replaceAllERWithAH; replaceAllIRWithAR;
    (fun s => (replaceEndingTION s).1); (fun s => (replaceEndingTY s).1); replaceEndingLY] t)).
  apply runStages_case; [stages_ok | done].
Qed.

#[export] Instance suffixRules_proper : Proper (caseEq ==> caseFlag) suffixRules.
Proof.
  intros s t H. split.
  - rewrite !suffixRules_run. apply runStages_case; [stages_ok | done].
  - rewrite !suffixRules_flag. apply applyEndingAH_proper. by rewrite H.
Qed.

(** ** The prefix, cluster and vowel stages *)

Lemma startsWithPair_case s t a b : caseEq s t -> startsWithPair s a b = startsWithPair t a b.
Proof.
  intros [|x x' s' t' [Hx _] [|y y' s'' t'' [Hy _] _]]; [done|done|]. cbn. by rewrite Hx, Hy.
Qed.

Ltac start_case f :=
  intros s t H; unfold f; rewrite (startsWithPair_case _ _ _ _ H); case_match; auto with naamrot.

#[export] Instance replaceStartingSWWithSAW_proper : Proper (caseEq ==> caseEq) replaceStartingSWWithSAW.
Proof. start_case replaceStartingSWWithSAW. Qed.
#[export] Instance replaceStartingSNWithSAN_proper : Proper (caseEq ==> caseEq) replaceStartingSNWithSAN.
Proof. start_case replaceStartingSNWithSAN. Qed.

#[export] Instance applyPrefixREToRO_proper : Proper (caseEq ==> caseEq) applyPrefixREToRO.
Proof.
  intros s t H. unfold applyPrefixREToRO. cbv zeta.
  rewrite (caseEq_lower _ _ H), !length_segToString, (caseEq_length _ _ H).
  destruct (bool_decide _); [done|]. destruct (starts_with _ _ && _); [|done].
  pose proof (proj1 (Forall2_lookup _ _ _) (caseEq_chars _ _ H) 2) as Hi.
  inversion Hi as [a b Hab|]; [|done]. rewrite Hab. case_match; auto with naamrot.
Qed.

#[export] Instance prefixRules_proper : Proper (caseEq ==> caseEq) prefixRules.
Proof.
  intros s t H.
  change (caseEq (runStages [replaceStartingSNWithSAN; replaceStartingSWWithSAW; applyPrefixREToRO] s)
                 (runStages [replaceStartingSNWithSAN; replaceStartingSWWithSAW; applyPrefixREToRO] t)).
  apply runStages_case; [stages_ok | done].
Qed.

#[export] Instance applyClusterInsertions_proper : Proper (caseEq ==> caseEq) applyClusterInsertions.
Proof.
  intros s t H. unfold applyClusterInsertions.
  destruct H as [|x x' s t Hx H]; [done|].
  destruct H as [|y y' s t Hy H]; [auto with naamrot|].
  rewrite (segCase_consonant _ _ Hx), (segCase_consonant _ _ Hy), (proj1 Hy).
  destruct H as [|z z' s t Hz H]; [case_match; auto with naamrot|].
  rewrite (proj1 Hz). repeat case_match; auto with naamrot.
Qed.

Lemma collectOrigVowels_case i s t : caseEq s t -> collectOrigVowels i s = collectOrigVowels i t.
Proof.
  intros H. revert i. induction H as [|x y s t [Hc Ho] _ IH]; intros i; [done|].
  cbn. by rewrite Hc, Ho, IH.
Qed.

Lemma nextIsVowel_case s t i : caseEq s t -> nextIsVowel s i = nextIsVowel t i.
Proof.
  intros H. unfold nextIsVowel.
  destruct (caseEq_lookup _ _ H (i + 1)) as [[-> ->]|(x & y & -> & -> & [Hc _])]; [done|]. by rewrite Hc.
Qed.

(** The protected boundary, the protected set and every [swapsAt]
    decision are read through [toUpperCase()] and the origin marks. *)
#[export] Instance applyVowelSwaps_proper flag : Proper (caseEq ==> caseEq) (fun s => applyVowelSwaps s flag).
Proof.
  intros s t H. unfold applyVowelSwaps. rewrite !swapLoop_full.
  unfold protectedSuffixStartIndex, origVowelIdx, vowelSwapsRef.
  rewrite (caseEq_spelling _ _ H), (collectOrigVowels_case _ _ _ H).
  apply Forall2_lookup. intros i. rewrite !list_lookup_imap.
  destruct (caseEq_lookup _ _ H i) as [[-> ->]|(x & y & -> & -> & Hxy)]; [constructor|].
  constructor. unfold swapsAt. rewrite (nextIsVowel_case _ _ _ H).
  destruct Hxy as [Hc Ho]. rewrite Hc, Ho. case_match; [reflexivity | by split].
Qed.

#[export] Instance applyStartingUYoo_proper : Proper (caseEq ==> caseEq) applyStartingUYoo.
Proof.
  intros s t H. unfold applyStartingUYoo.
  destruct H as [|x x' s t Hx H]; [done|]. destruct H as [|y y' s t Hy H]; [auto with naamrot|].
  rewrite (proj1 Hx), (proj1 Hy). case_match; auto with naamrot.
Qed.

#[export] Instance prefixRules_v1_proper : Proper (caseEq ==> caseEq) prefixRules_v1.
Proof.
  intros s t H.
  change (caseEq (runStages [applyStartingUYoo; applyPrefixREToRO] s)
                 (runStages [applyStartingUYoo; applyPrefixREToRO] t)).
  apply runStages_case; [stages_ok | done].
Qed.

#[export] Instance suffixRules_v1_proper : Proper (caseEq ==> caseFlag) suffixRules_v1.
Proof.
  intros s t H. split.
  - rewrite !suffixRules_v1_run. apply runStages_case; [stages_ok | done].
  - unfold suffixRules_v1. cbv zeta.
    destruct (applyEndingAH_proper ((replaceEndingLY ((replaceEndingTY ((replaceEndingTION
      (replaceAllERWithAH s)).1)).1))) ((replaceEndingLY ((replaceEndingTY ((replaceEndingTION
      (replaceAllERWithAH t)).1)).1)))) as [_ Hf]; [by rewrite H|].
    revert Hf. do 2 destruct (applyEndingAH _). cbn. done.
Qed.

(** ** The word-part pipeline *)

Lemma segFromString_case a b o : strCase a b -> caseEq (segFromString a o) (segFromString b o).
Proof.
  unfold strCase. revert b. induction a as [|c a IH]; intros [|d b] Hab; try discriminate; [constructor|].
  injection Hab as Hcd Hab. constructor; [by split | by apply IH].
Qed.

Lemma wordPartSegs_case a b : strCase a b -> caseEq (wordPartSegs a) (wordPartSegs b).
Proof.
  intros Hab%(segFromString_case _ _ true). rewrite !wordPartSegs_run.
  destruct (suffixRules_proper _ _ Hab) as [H1 H2]. rewrite H2.
  apply runStages_case; [stages_ok | done].
Qed.

Lemma wordPartSegs_v1_case a b : strCase a b -> caseEq (wordPartSegs_v1 a) (wordPartSegs_v1 b).
Proof.
  intros Hab%(segFromString_case _ _ true). rewrite !wordPartSegs_v1_run.
  destruct (suffixRules_v1_proper _ _ Hab) as [H1 H2]. rewrite H2.
  apply runStages_case; [stages_ok | done].
Qed.

(** ** The exception table *)

(** An entry whose output does not depend on the word-part: a fixed value,
    or an entry that never matches.  Every entry of both tables is one. *)
Definition fixedOutput (ex : exceptionRule) : bool :=
  match ex with
  | ExLiteral _ (LitFun _) | ExRegex _ (ReFun _) => false
  | _ => true
  end.

Lemma lower_upper s : lower (upper s) = lower s.
Proof. unfold lower, upper. rewrite map_map. apply map_ext, to_lower_to_upper. Qed.

(** Literal entries compare lower-cased strings and pattern entries are
    [/.../i]: whether an entry matches does not depend on case. *)
Lemma ruleMatches_case ex a b : strCase a b -> ruleMatches ex a = ruleMatches ex b.
Proof.
  unfold strCase. intros Hab. destruct ex as [m out|[re|] out|]; cbn; try done.
  - by rewrite <- (lower_upper a), Hab, lower_upper.
  - unfold patternMatch. rewrite Hab. apply bool_decide_ext. case_match; naive_solver.
Qed.

Lemma ruleOutput_fixed ex a b : fixedOutput ex = true -> ruleOutput ex a = ruleOutput ex b \/ ex = ExOther \/ exists o, ex = ExRegex None o.
Proof. destruct ex as [m [o|f]|[re|] [o|f]|]; cbn; naive_solver. Qed.

(** A table of fixed outputs answers [w] and [upper w] alike: the same hit
    flag, and on a hit the same value. *)
Lemma applyExceptions_case rules a b :
  forallb fixedOutput rules = true -> strCase a b ->
  (applyExceptions rules a).1 = (applyExceptions rules b).1 /\
  ((applyExceptions rules a).1 = true -> (applyExceptions rules a).2 = (applyExceptions rules b).2).
Proof.
  intros Hf Hab. induction rules as [|ex rules IH]; [done|].
  apply andb_true_iff in Hf as [Hex Hf]. rewrite !applyExceptions_cons, (ruleMatches_case _ _ _ Hab).
  destruct (ruleMatches ex b) eqn:Em; [|by apply IH]. split; [done|]. intros _. cbn.
  destruct (ruleOutput_fixed ex a b Hex) as [->|[->|[o ->]]]; [done|discriminate|discriminate].
Qed.

Lemma EXCEPTIONS_fixed : forallb fixedOutput EXCEPTIONS = true.
Proof. by vm_compute. Qed.

Lemma EXCEPTIONS_v1_fixed : forallb fixedOutput EXCEPTIONS_v1 = true.
Proof. by vm_compute. Qed.

(** The shape of [transformWordPart] in both versions: the exception
    answer, else the spelling of the pipeline's segments.  It gives the
    same output on word-parts equal up to case. *)
Lemma exceptionsThen_case rules (segsOf : list ascii -> list seg) a b :
  forallb fixedOutput rules = true ->
  (forall a b, strCase a b -> caseEq (segsOf a) (segsOf b)) -> strCase a b ->
  (if (applyExceptions rules a).1 then upper (applyExceptions rules a).2 else spelling (segsOf a)) =
  (if (applyExceptions rules b).1 then upper (applyExceptions rules b).2 else spelling (segsOf b)).
Proof.
  intros Hf Hs Hab. destruct (applyExceptions_case _ _ _ Hf Hab) as [H1 H2]. rewrite <- H1.
  destruct (applyExceptions rules a).1 eqn:E; [by rewrite H2|]. by apply caseEq_spelling, Hs.
Qed.

Lemma transformWordPart_case a b : strCase a b -> transformWordPart a = transformWordPart b.
Proof. apply exceptionsThen_case; [apply EXCEPTIONS_fixed | apply wordPartSegs_case]. Qed.

Lemma transformWordPart_v1_case a b : strCase a b -> transformWordPart_v1 a = transformWordPart_v1 b.
Proof. apply exceptionsThen_case; [apply EXCEPTIONS_v1_fixed | apply wordPartSegs_v1_case]. Qed.

(** ** Tokens and the text *)

Lemma isSep_to_upper c : isSep (to_upper c) = isSep c.
Proof. ascii_cases c. Qed.

Definition upperPiece (p : piece) : piece :=
  match p with Gap c => Gap (to_upper c) | Tok t => Tok (upper t) end.

Definition upperState (st : lexState) : lexState :=
  match st with
  | Out => Out
  | InTok acc => InTok (upper acc)
  | AfterSep acc sep => AfterSep (upper acc) (to_upper sep)
  end.

(** The lexer commutes with [toUpperCase()]: letters and separators are
    classified alike in both cases. *)
Lemma scan_upper st s : scan (upperState st) (upper s) = map upperPiece (scan st s).
Proof.
  revert st. induction s as [|c s IH]; intros [|acc|acc sep]; [done|done|done|..];
    change (upper (c :: s)) with (to_upper c :: upper s); cbn [upperState scan];
    rewrite isLetter_to_upper; try rewrite isSep_to_upper;
    destruct (isLetter c); try destruct (isSep c); cbn [map upperPiece];
    rewrite <- ?IH; cbn [upperState]; by rewrite ?upper_app.
Qed.

Lemma splitSep_upper acc t : splitSep (upper acc) (upper t) = map upper (splitSep acc t).
Proof.
  revert acc. induction t as [|c t IH]; intros acc; [done|]. cbn [upper map splitSep].
  rewrite isSep_to_upper. case_match; cbn [map]; [by rewrite <- (IH [])|].
  by rewrite <- IH, upper_app.
Qed.

Lemma sepPart_upper p :
  bool_decide (upper p = ⟦"-"⟧) || bool_decide (upper p = ⟦"'"⟧)
  = bool_decide (p = ⟦"-"⟧) || bool_decide (p = ⟦"'"⟧).
Proof.
  destruct p as [|c [|d p]]; [done| ascii_cases c |].
  rewrite !bool_decide_eq_false_2; [done|..]; intros H%(f_equal length); discriminate.
Qed.

Section Render.
Context (tr : list ascii -> list ascii).
Hypothesis tr_case : forall a b, strCase a b -> tr a = tr b.

(** [transformWordToken] on the upper-cased token: the same pieces,
    upper-cased, and the same separators. *)
Lemma transformPieces_upper t : transformPieces tr (upper t) = transformPieces tr t.
Proof.
  unfold transformPieces.
  change (splitSep [] (upper t)) with (splitSep (upper []) (upper t)).
  rewrite splitSep_upper, map_map. f_equal. apply map_ext. intros p.
  rewrite sepPart_upper. destruct (_ || _) eqn:E; [|apply tr_case, upper_idem].
  apply orb_true_iff in E as [E|E]; apply bool_decide_eq_true in E as ->; done.
Qed.

Lemma render_upper ps :
  upper (renderWith (transformPieces tr) (map upperPiece ps)) = upper (renderWith (transformPieces tr) ps).
Proof.
  unfold renderWith. rewrite map_map, !upper_concat_map. f_equal. apply map_ext.
  intros [c|t]; cbn [upperPiece]; [cbn; by rewrite to_upper_idem | by rewrite transformPieces_upper].
Qed.

Lemma render_case a b :
  strCase a b -> upper (renderWith (transformPieces tr) (scanText a)) = upper (renderWith (transformPieces tr) (scanText b)).
Proof.
  unfold strCase, scanText. intros Hab.
  rewrite <- (render_upper (scan Out a)), <- (render_upper (scan Out b)).
  by rewrite <- !(scan_upper Out), Hab.
Qed.
End Render.

(** ** The theorem *)

(** C7. The converter ignores the case of its input: two texts equal up
    to letter case ([input.toUpperCase()] the same) are converted to the
    same output, by the current [convertText] and by the older one. *)
Theorem convertText_case_insensitive a b :
  strCase a b -> convertText a = convertText b /\ convertText_v1 a = convertText_v1 b.
Proof.
  intros Hab. split; apply render_case; try done; intros ??.
  - apply transformWordPart_case.
  - apply transformWordPart_v1_case.
Qed.

(** Mixed case: "Hello World" and "hELLO wORLD". *)
Lemma convertText_case_insensitive_witness :
  strCase ⟦"Hello World"⟧ ⟦"hELLO wORLD"⟧ /\
  convertText ⟦"Hello World"⟧ = convertText ⟦"hELLO wORLD"⟧ /\
  convertText_v1 ⟦"Hello World"⟧ = convertText_v1 ⟦"hELLO wORLD"⟧.
Proof.
  split; [reflexivity|]. apply (convertText_case_insensitive ⟦"Hello World"⟧ ⟦"hELLO wORLD"⟧).
  reflexivity.
Defined.
