(* ===== verification/Regex.v ===== *)
(** * Regex: [WORD_TOKEN_RE], [matchAll] and the loop of [convertText]

    [Text] models the tokenizer as a hand-written lexer [scan].  This file
    models the code as it is written: [WORD_TOKEN_RE] as a regular
    expression run by the backtracking semantics of ECMAScript regular
    expressions (greedy [+] and [*], an iteration that matches nothing is
    refused), [input.matchAll(...)] as the sequence of its match records
    [{index, 0}], and the [for ... of] loop of [convertText]
    ([src/unnamed/part_000], lines 55 and 407-419; [src/app.js], lines 48
    and 330-342) with its [out] and [last] variables.  The theorems show
    that the regex's match at a letter ends where [scan] ends its token,
    and that the loop computes the piece-wise [convertText] of [Text]:
    [scan] refines the regex semantics, and [convertText] the loop. *)

From Stdlib Require Import Wf_nat.
From S2P Require Import Prelude Segment Exceptions Suffix Prefix Cluster Vowel Word Text.

(** ** Regular expressions and their backtracking matcher *)

Inductive regex :=
  | RClass (p : ascii -> bool)
  | RSeq (r1 r2 : regex)
  | RStar (r : regex).

(** [r+] is [r r*]. *)
Definition RPlus (r : regex) : regex := RSeq r (RStar r).

(** A matcher takes the remaining input and a continuation; it returns the
    input left after the first successful match, in backtracking order. *)
Definition matcher := list ascii -> (list ascii -> option (list ascii)) -> option (list ascii).

(** Greedy [r*] (ECMAScript's RepeatMatcher): try one more iteration of
    [r] first, then the continuation; an iteration that consumes nothing
    fails.  [n] bounds the iterations; [length s] of them is enough since
    each one consumes a character. *)
Fixpoint starLoop (m : matcher) (k : list ascii -> option (list ascii)) (n : nat) (s : list ascii)
  : option (list ascii) :=
  match n with
  | O => k s
  | S n' =>
      match m s (fun s' => if length s' <? length s then starLoop m k n' s' else None) with
      | Some x => Some x
      | None => k s
      end
  end.

Fixpoint backtrack (r : regex) : matcher :=
  fun s k =>
    match r with
    | RClass p => match s with c :: s' => if p c then k s' else None | [] => None end
    | RSeq r1 r2 => backtrack r1 s (fun s' => backtrack r2 s' k)
    | RStar r1 => starLoop (backtrack r1) k (length s) s
    end.

(** [/[A-Za-z]+(?:[-'][A-Za-z]+)*/]. *)
Definition LETTER : regex := RClass isLetter.
Definition SEP : regex := RClass isSep.
Definition WORD_TOKEN_RE : regex :=
  RSeq (RPlus LETTER) (RStar (RSeq SEP (RPlus LETTER))).

(** ** [matchAll] and the loop of [convertText] *)

Record rmatch := mkMatch { index : nat; m0 : list ascii }.

(** The matches of a global regex from position [i] of the input, [s]
    being the input from [i] on: a match at [i] is reported and the search
    goes on where it ends; else the search moves one character on. *)
Fixpoint matchAllFrom (fuel i : nat) (s : list ascii) : list rmatch :=
  match fuel with
  | O => []
  | S fuel' =>
      match s with
      | [] => []
      | c :: r =>
          match backtrack WORD_TOKEN_RE s Some with
          | Some rest =>
              let len := length s - length rest in
              mkMatch i (take len s) :: matchAllFrom fuel' (i + len) rest
          | None => matchAllFrom fuel' (S i) r
          end
      end
  end.

Definition matchAll (input : list ascii) : list rmatch := matchAllFrom (length input) 0 input.

(** [String.prototype.slice(a, b)]. *)
Definition slice (s : list ascii) (a b : nat) : list ascii := take (b - a) (drop a s).

(** The body of the loop on the state [(out, last)]. *)
Definition loopStep (tw : list ascii -> list ascii) (input : list ascii)
    (st : list ascii * nat) (m : rmatch) : list ascii * nat :=
  (st.1 ++ slice input st.2 (index m) ++ tw (m0 m), index m + length (m0 m)).

Definition convertLoop (tw : list ascii -> list ascii) (input : list ascii) : list ascii :=
  let st := fold_left (loopStep tw input) (matchAll input) ([], 0) in
  upper (st.1 ++ drop st.2 input).

(** * Lemmas and theorems *)

(** ** Where a token ends *)

(** The input left after a token whose letters so far are already read:
    more letters, or a separator followed by a letter, continue it. *)
Fixpoint wordEnd (s : list ascii) : list ascii :=
  match s with
  | [] => []
  | c :: r =>
      if isLetter c then wordEnd r
      else if isSep c then
        match r with
        | d :: r' => if isLetter d then wordEnd r' else s
        | [] => s
        end
      else s
  end.

Fixpoint dropLetters (s : list ascii) : list ascii :=
  match s with
  | c :: r => if isLetter c then dropLetters r else s
  | [] => []
  end.

(** The input left after the groups [(?:[-'][A-Za-z]+)*]. *)
Definition groupsEnd (s : list ascii) : list ascii :=
  match s with
  | sep :: d :: r => if isSep sep && isLetter d then wordEnd r else s
  | _ => s
  end.

Lemma wordEnd_letters s : wordEnd s = groupsEnd (dropLetters s).
Proof.
  induction s as [|c r IH]; [done|]. cbn [wordEnd dropLetters].
  destruct (isLetter c) eqn:Hc; [done|]. unfold groupsEnd.
  destruct (isSep c); [|by destruct r as [|? []]]. destruct r; [done|]. cbn. by case_match.
Qed.

Lemma wordEnd_suffix s : exists t, s = t ++ wordEnd s.
Proof.
  induction s as [s IH] using (well_founded_induction (well_founded_ltof _ length)).
  unfold ltof in IH. destruct s as [|c r]; [by exists []|]. cbn [wordEnd].
  destruct (isLetter c); [destruct (IH r) as [t Ht]; [cbn; lia|]; exists (c :: t); cbn; by f_equal|].
  destruct (isSep c); [|by exists []]. destruct r as [|d r']; [by exists []|].
  destruct (isLetter d); [|by exists []].
  destruct (IH r') as [t Ht]; [cbn; lia|]. exists (c :: d :: t). cbn. by do 2 f_equal.
Qed.

Lemma wordEnd_split s : s = take (length s - length (wordEnd s)) s ++ wordEnd s.
Proof.
  destruct (wordEnd_suffix s) as [t Ht]. generalize dependent (wordEnd s). intros w ->.
  by rewrite length_app, Nat.add_sub, take_app_length.
Qed.

Lemma length_dropLetters s : length (dropLetters s) <= length s.
Proof. induction s as [|c r IH]; cbn; [lia|]. case_match; cbn; lia. Qed.

(** ** The matcher on [WORD_TOKEN_RE] *)

Lemma backtrack_letter c r k :
  backtrack LETTER (c :: r) k = if isLetter c then k r else None.
Proof. reflexivity. Qed.

Lemma backtrack_plus_letter s k :
  backtrack (RPlus LETTER) s k =
  match s with c :: r => if isLetter c then starLoop (backtrack LETTER) k (length r) r else None | [] => None end.
Proof. by destruct s. Qed.

Lemma backtrack_group sep r k :
  backtrack (RSeq SEP (RPlus LETTER)) (sep :: r) k = if isSep sep then backtrack (RPlus LETTER) r k else None.
Proof. reflexivity. Qed.

Lemma ltb_shorter (s' s : list ascii) : length s' < length s -> (length s' <? length s) = true.
Proof. apply Nat.ltb_lt. Qed.

(** Greedy [[A-Za-z]*] continues with the input after the letter run when
    that succeeds. *)
Lemma starLoop_letters k n s v :
  length s <= n -> k (dropLetters s) = Some v -> starLoop (backtrack LETTER) k n s = Some v.
Proof.
  revert s. induction n as [|n IH]; intros s Hn Hk.
  - destruct s; [done | cbn in Hn; lia].
  - cbn [starLoop]. destruct s as [|c r]; [done|]. rewrite backtrack_letter.
    cbn [dropLetters] in Hk. destruct (isLetter c); [|done].
    rewrite ltb_shorter by (cbn; lia). rewrite IH; [done | cbn in Hn; lia | done].
Qed.

(** Greedy [(?:[-'][A-Za-z]+)*] followed by the end of the pattern always
    succeeds, and leaves [groupsEnd]. *)
Lemma starLoop_groups n s :
  length s <= n -> starLoop (backtrack (RSeq SEP (RPlus LETTER))) Some n s = Some (groupsEnd s).
Proof.
  revert s. induction n as [|n IH]; intros s Hn.
  - destruct s; [done | cbn in Hn; lia].
  - cbn [starLoop]. destruct s as [|sep r]; [reflexivity|]. unfold groupsEnd.
    rewrite backtrack_group. destruct (isSep sep); [|by destruct r as [|? []]].
    rewrite backtrack_plus_letter. destruct r as [|d r]; [done|]. destruct (isLetter d); [|done].
    pose proof (length_dropLetters r). cbn in Hn.
    rewrite (starLoop_letters _ _ _ (groupsEnd (dropLetters r))); [by rewrite wordEnd_letters | lia |].
    rewrite ltb_shorter by (cbn; lia). apply IH. lia.
Qed.

(** At a letter, [WORD_TOKEN_RE] matches up to [wordEnd]; elsewhere it
    does not match. *)
Lemma backtrack_word c r :
  backtrack WORD_TOKEN_RE (c :: r) Some = if isLetter c then Some (wordEnd r) else None.
Proof.
  change (backtrack WORD_TOKEN_RE (c :: r) Some)
    with (backtrack (RPlus LETTER) (c :: r)
            (fun s => starLoop (backtrack (RSeq SEP (RPlus LETTER))) Some (length s) s)).
  rewrite backtrack_plus_letter. destruct (isLetter c); [|done].
  apply starLoop_letters; [done|]. rewrite starLoop_groups; [|done]. by rewrite wordEnd_letters.
Qed.

(** ** [scan] ends its tokens where the regex does *)

Lemma length_wordEnd s : length (wordEnd s) <= length s.
Proof. destruct (wordEnd_suffix s) as [t Ht]. rewrite Ht at 2. rewrite length_app. lia. Qed.

Lemma take_cons_sub (c : ascii) r (w : list ascii) :
  length w <= length r -> take (length (c :: r) - length w) (c :: r) = c :: take (length r - length w) r.
Proof. intros H. cbn [length]. by rewrite Nat.sub_succ_l. Qed.

(** In a token, [scan] reads up to [wordEnd] and emits the token there. *)
Lemma scan_InTok s acc :
  scan (InTok acc) s = Tok (acc ++ take (length s - length (wordEnd s)) s) :: scan Out (wordEnd s).
Proof.
  revert acc. induction s as [s IH] using (well_founded_induction (well_founded_ltof _ length)).
  unfold ltof in IH. intros acc. destruct s as [|c r]; [cbn; by rewrite app_nil_r|].
  cbn [scan wordEnd]. destruct (isLetter c) eqn:Hc.
  { rewrite IH by (cbn; lia). rewrite take_cons_sub by apply length_wordEnd. by rewrite <- app_assoc. }
  destruct (isSep c) eqn:Hs; [|rewrite Nat.sub_diag, take_0, app_nil_r; cbn [scan]; by rewrite Hc].
  destruct r as [|d r]; [cbn; by rewrite Hc, app_nil_r|].
  cbn [scan]. destruct (isLetter d) eqn:Hd.
  - pose proof (length_wordEnd r). rewrite IH by (cbn; lia).
    rewrite take_cons_sub, take_cons_sub by (cbn; lia). by rewrite <- app_assoc.
  - rewrite Nat.sub_diag, take_0, app_nil_r. cbn [scan]. by rewrite Hc, Hd.
Qed.

(** ** The loop of [convertText] *)

Section Loop.
Context (tw : list ascii -> list ascii) (input : list ascii).

(** The loop's invariant: after the matches of [s], which starts at
    position [i], the output so far, the pending gap [g = input.slice(last,
    i)] and the rest of the input give the piece-wise rendering. *)
Lemma loop_inv n i s out last g :
  length s <= n -> drop last input = g ++ s -> i = last + length g ->
  let st := fold_left (loopStep tw input) (matchAllFrom n i s) (out, last) in
  st.1 ++ drop st.2 input = out ++ g ++ renderWith tw (scan Out s).
Proof.
  revert i s out last g. induction n as [|n IH]; intros i s out last g Hn Hd Hi.
  { destruct s; [|cbn in Hn; lia]. cbn. by rewrite Hd, !app_nil_r. }
  destruct s as [|c r]; [cbn; by rewrite Hd, !app_nil_r|].
  cbn [matchAllFrom]. rewrite backtrack_word. cbn [scan]. destruct (isLetter c) eqn:Hc.
  - pose proof (length_wordEnd r) as Hw. cbn in Hn.
    pose proof (wordEnd_split (c :: r)) as Hs. cbn [wordEnd] in Hs. rewrite Hc in Hs.
    set (tok := take (length (c :: r) - length (wordEnd r)) (c :: r)) in *.
    assert (Ht : length tok = length (c :: r) - length (wordEnd r))
      by (unfold tok; rewrite length_take; cbn [length]; lia).
    cbn [fold_left]. unfold loopStep at 2. cbn [fst snd index m0].
    rewrite IH with (g := []); [| lia | | rewrite Ht; cbn [length]; lia].
    + unfold slice. rewrite Hd, Hi, Nat.add_sub', take_app_length.
      rewrite scan_InTok. unfold renderWith. cbn [map concat].
      unfold tok. rewrite take_cons_sub by done. by rewrite !app_assoc, app_nil_r.
    + rewrite Hi, <- Nat.add_assoc, <- drop_drop, Hd, Hs, app_assoc, drop_app_length';
        [done | by rewrite length_app].
  - rewrite IH with (g := g ++ [c]); [| cbn in Hn; lia | by rewrite Hd, <- app_assoc | rewrite length_app; cbn; lia].
    unfold renderWith. cbn [map concat]. by rewrite <- !app_assoc.
Qed.
End Loop.

Lemma convertLoop_render tw input : convertLoop tw input = upper (renderWith tw (scanText input)).
Proof.
  pose proof (loop_inv tw input (length input) 0 input [] 0 [] (le_n _) eq_refl eq_refl) as H.
  cbv zeta in H. unfold convertLoop, matchAll, scanText. by rewrite H.
Qed.

(** ** The theorem *)

(** C6. Refinement: the [for (const m of input.matchAll(WORD_TOKEN_RE))]
    loop of [convertText], with [WORD_TOKEN_RE] run by the backtracking
    regex semantics and [out]/[last] updated as the code does, computes the
    piece-wise [convertText] of [Text] (gaps copied, tokens transformed,
    upper-cased at the end), in both versions of the program. *)
Theorem convertText_loop input :
  convertLoop transformWordToken input = convertText input /\
  convertLoop transformWordToken_v1 input = convertText_v1 input.
Proof. split; apply convertLoop_render. Qed.
