(* ===== verification/Ui.v ===== *)
(** * Ui: the page's event handlers

    Models the UI section of [src/unnamed/part_000] (lines 421-500: status
    line, Convert, Ctrl/Cmd+Enter, Clear, Copy, the hamburger menu) and of
    [src/app.js] (lines 344-391, no menu, [setStatus] without its null
    guard; [Legacy] names its handlers and proves its listener table equal
    to [stepPage legacy]).  The page is a record [page]; every handler is a program of a
    small state-and-exception monad [UI] (a JavaScript [TypeError] is
    [Thrown]; the changes made before it stay).  The browser's event loop
    is [stepPage]: one user event, a timer firing or a clipboard promise
    settling per step; each listener runs isolated, so an exception in one
    listener neither undoes its earlier writes nor stops the next listener.

    Time is a [nat] of milliseconds.  [setTimeout] records a timer with its
    due time; [FireTimer] runs the earliest one (ties in scheduling order)
    and [Wait] lets time pass only up to the next due timer, so timers fire
    in time order, interleaved with the user's events.  [await
    navigator.clipboard.writeText(...)] is split at the [await]: the click
    starts a write ([pendingWrites]), a later [CopySettled] event resolves
    or rejects it and runs the rest of the [try]/[catch]. *)

From stdpp Require Import relations.
From S2P Require Import Prelude Text.

(** ** The page *)

(** A pending [setTimeout(() => setStatus(text), delay)]. *)
Record timer := mkTimer { timerId : nat; timerDue : nat; timerStatus : string }.

(** [timers], the next id, [doConvert._t] and [$("copy")._t]. *)
Record sched := mkSched {
  timers : list timer; nextTimerId : nat;
  convertTimer : option nat; copyTimer : option nat }.

(** [navigator.clipboard] present, the writes not yet settled, the system
    clipboard. *)
Record clip := mkClip {
  clipboardApi : bool; pendingWrites : list (list ascii); clipboard : list ascii }.

(** [menuPanel.classList.contains("open")], [overlay.hidden], the
    [aria-expanded] of [menuBtn], the [aria-hidden] of [menuPanel] and
    [document.body.style.overflow]. *)
Record menuState := mkMenu {
  panelOpen : bool; overlayHidden : bool;
  ariaExpanded : string; ariaHidden : string; bodyOverflow : string }.

(** [statusEl] is [None] when the page has no [#status] element (the
    comment of part_000, line 430, says it is commented out in the HTML);
    [menu] is [None] when the menu elements are absent (all four are
    taken to be present together or absent together). *)
Record page := mkPage {
  now : nat;
  inputValue : list ascii;
  inputFocused : bool;
  outputText : list ascii;
  statusEl : option string;
  sched_ : sched;
  clip_ : clip;
  menu : option menuState }.

Definition set_now n p := mkPage n (inputValue p) (inputFocused p) (outputText p) (statusEl p) (sched_ p) (clip_ p) (menu p).
Definition set_input v p := mkPage (now p) v (inputFocused p) (outputText p) (statusEl p) (sched_ p) (clip_ p) (menu p).
Definition set_focus p := mkPage (now p) (inputValue p) true (outputText p) (statusEl p) (sched_ p) (clip_ p) (menu p).
Definition set_output o p := mkPage (now p) (inputValue p) (inputFocused p) o (statusEl p) (sched_ p) (clip_ p) (menu p).
Definition set_statusEl st p := mkPage (now p) (inputValue p) (inputFocused p) (outputText p) st (sched_ p) (clip_ p) (menu p).
Definition map_sched f p := mkPage (now p) (inputValue p) (inputFocused p) (outputText p) (statusEl p) (f (sched_ p)) (clip_ p) (menu p).
Definition map_clip f p := mkPage (now p) (inputValue p) (inputFocused p) (outputText p) (statusEl p) (sched_ p) (f (clip_ p)) (menu p).
Definition set_menu m p := mkPage (now p) (inputValue p) (inputFocused p) (outputText p) (statusEl p) (sched_ p) (clip_ p) m.

(** ** The monad of handlers *)

Inductive res (A : Type) := Ok (a : A) (p : page) | Thrown (p : page).
Arguments Ok {A}. Arguments Thrown {A}.

Definition UI (A : Type) : Type := page -> res A.

Definition ret {A} (a : A) : UI A := fun p => Ok a p.
Definition bind {A B} (m : UI A) (k : A -> UI B) : UI B :=
  fun p => match m p with Ok a p' => k a p' | Thrown p' => Thrown p' end.
Definition throw {A} : UI A := fun p => Thrown p.
Definition gets {A} (f : page -> A) : UI A := fun p => Ok (f p) p.
Definition modify (f : page -> page) : UI unit := fun p => Ok tt (f p).

(** [try { body } catch { handler }] *)
Definition tryCatch (body handler : UI unit) : UI unit :=
  fun p => match body p with Ok a p' => Ok a p' | Thrown p' => handler p' end.

(** The page after a listener ran, its exception reported and dropped. *)
Definition final (r : res unit) : page := match r with Ok _ p | Thrown p => p end.

Declare Scope ui_scope.
Delimit Scope ui_scope with ui.
Notation "x <- m ;; k" := (bind m (fun x => k))
  (at level 100, m at next level, k at level 200) : ui_scope.
Notation "m ;; k" := (bind m (fun _ => k)) (at level 100, k at level 200) : ui_scope.
Open Scope ui_scope.

(** ** Operations the handlers share *)

(** [setStatus] of part_000 (lines 429-432): nothing without [#status]. *)
Definition setStatus (text : string) : UI unit :=
  modify (fun p => match statusEl p with None => p | Some _ => set_statusEl (Some text) p end).

(** [setStatus] of [src/app.js] (line 350): [statusEl.textContent = text]
    throws a [TypeError] without [#status]. *)
Definition setStatus_v1 (text : string) : UI unit :=
  fun p => match statusEl p with
           | None => Thrown p
           | Some _ => Ok tt (set_statusEl (Some text) p)
           end.

(** [setTimeout(() => setStatus(text), delay)]: returns the timer's id. *)
Definition setTimeout (delay : nat) (text : string) : UI nat :=
  fun p => let s := sched_ p in
    Ok (nextTimerId s)
       (map_sched (fun s => mkSched (timers s ++ [mkTimer (nextTimerId s) (now p + delay) text])
                              (S (nextTimerId s)) (convertTimer s) (copyTimer s)) p).

(** [clearTimeout(id)]; [clearTimeout(undefined)] does nothing. *)
Definition clearTimeout (id : option nat) : UI unit :=
  modify (map_sched (fun s =>
    mkSched (match id with
             | None => timers s
             | Some i => List.filter (fun t => negb (timerId t =? i)) (timers s)
             end) (nextTimerId s) (convertTimer s) (copyTimer s))).

Definition set_convertTimer (id : nat) : UI unit :=
  modify (map_sched (fun s => mkSched (timers s) (nextTimerId s) (Some id) (copyTimer s))).
Definition set_copyTimer (id : nat) : UI unit :=
  modify (map_sched (fun s => mkSched (timers s) (nextTimerId s) (convertTimer s) (Some id))).

(** ** The handlers, for either version of the code *)

(** What differs between the two versions: [setStatus], the converter and
    whether the menu code exists. *)
Record version := mkVersion {
  vSetStatus : string -> UI unit;
  vConvert : list ascii -> list ascii;
  vMenu : bool }.

(** part_000 and [src/app.js]. *)
Definition current : version := mkVersion setStatus convertText true.
Definition legacy : version := mkVersion setStatus_v1 convertText_v1 false.

Section Handlers.
Context (ver : version).

(** [doConvert] (part_000 lines 434-439, app.js lines 352-357). *)
Definition doConvert : UI unit :=
  v <- gets inputValue;;
  modify (set_output (vConvert ver v));;
  vSetStatus ver "CONVERTED";;
  t <- gets (fun p => convertTimer (sched_ p));;
  clearTimeout t;;
  id <- setTimeout 900 "READY";;
  set_convertTimer id.

(** The [keydown] listener of the input (lines 443-448): Ctrl/Cmd+Enter. *)
Definition onInputKeydown (ctrl meta : bool) (key : string) : UI unit :=
  if (ctrl || meta) && String.eqb key "Enter" then doConvert else ret tt.

(** The Clear button (lines 450-455). *)
Definition onClear : UI unit :=
  modify (set_input []);;
  modify (set_output []);;
  vSetStatus ver "READY";;
  modify set_focus.

(** The [catch] branch of the Copy handler (lines 463-466); the timer id
    is not kept, so this timer can never be cleared. *)
Definition copyFailed : UI unit :=
  vSetStatus ver "COPY FAILED";;
  _ <- setTimeout 1200 "READY";;
  ret tt.

(** The rest of the [try] block after the write resolved (lines 460-462). *)
Definition copySucceeded : UI unit :=
  vSetStatus ver "COPIED";;
  t <- gets (fun p => copyTimer (sched_ p));;
  clearTimeout t;;
  id <- setTimeout 900 "READY";;
  set_copyTimer id.

(** The Copy click up to its [await] (lines 457-459): the write of the
    current output is started; without [navigator.clipboard] the call
    throws inside the [try] and the [catch] runs at once. *)
Definition onCopyClick : UI unit :=
  api <- gets (fun p => clipboardApi (clip_ p));;
  if api then
    o <- gets outputText;;
    modify (map_clip (fun c => mkClip (clipboardApi c) (pendingWrites c ++ [o]) (clipboard c)))
  else copyFailed.

(** The [k]-th pending write settles, [ok] telling whether its promise
    resolved; the handler resumes after its [await]. *)
Definition onCopySettled (k : nat) (ok : bool) : UI unit :=
  w <- gets (fun p => pendingWrites (clip_ p) !! k);;
  match w with
  | None => ret tt
  | Some txt =>
      modify (map_clip (fun c => mkClip (clipboardApi c) (delete k (pendingWrites c)) (clipboard c)));;
      tryCatch
        (if ok then
           modify (map_clip (fun c => mkClip (clipboardApi c) (pendingWrites c) txt));;
           copySucceeded
         else throw)
        copyFailed
  end.

(** [menuPanel.classList...] on a missing panel throws. *)
Definition withMenu (m : menuState) : UI unit :=
  fun p => match menu p with None => Thrown p | Some _ => Ok tt (set_menu (Some m) p) end.

(** [openMenu] and [closeMenu] (part_000 lines 478-492). *)
Definition openMenu : UI unit := withMenu (mkMenu true false "true" "false" "hidden").
Definition closeMenu : UI unit := withMenu (mkMenu false true "false" "true" "").

(** [menuBtn?.addEventListener(...)]: no listener without the element. *)
Definition menuListener (h : UI unit) : UI unit :=
  fun p => match menu p with None => Ok tt p | Some _ => if vMenu ver then h p else Ok tt p end.

(** The document's [keydown] listener (lines 498-500). *)
Definition onDocKeydown (key : string) : UI unit :=
  if vMenu ver && String.eqb key "Escape" then closeMenu else ret tt.

End Handlers.

(** ** The event loop *)

Inductive event :=
  | Edit (v : list ascii)
  | ClickConvert
  | KeyDown (onInput ctrl meta : bool) (key : string)
  | ClickClear
  | ClickCopy
  | CopySettled (k : nat) (ok : bool)
  | ClickMenu
  | ClickMenuClose
  | ClickOverlay
  | Wait (d : nat)
  | FireTimer.

(** The earliest pending timer, the first scheduled among equal times. *)
Fixpoint earliest (ts : list timer) : option timer :=
  match ts with
  | [] => None
  | t :: ts' =>
      match earliest ts' with
      | Some u => if timerDue u <? timerDue t then Some u else Some t
      | None => Some t
      end
  end.

(** One listener runs; an exception it throws is reported and dropped. *)
Definition runListener (h : UI unit) (p : page) : page := final (h p).

(** One step of the page; [None] when the event cannot happen now. *)
Definition stepPage (ver : version) (ev : event) (p : page) : option page :=
  match ev with
  | Edit v => Some (set_input v p)
  | ClickConvert => Some (runListener (doConvert ver) p)
  | KeyDown onInput ctrl meta key =>
      (* the input's listener first, then the document's: the event bubbles *)
      let p := if onInput then runListener (onInputKeydown ver ctrl meta key) p else p in
      Some (runListener (onDocKeydown ver key) p)
  | ClickClear => Some (runListener (onClear ver) p)
  | ClickCopy => Some (runListener (onCopyClick ver) p)
  | CopySettled k ok =>
      if bool_decide (k < length (pendingWrites (clip_ p)))
      then Some (runListener (onCopySettled ver k ok) p) else None
  | ClickMenu => Some (runListener (menuListener ver (openMenu)) p)
  | ClickMenuClose | ClickOverlay => Some (runListener (menuListener ver (closeMenu)) p)
  | Wait d =>
      if forallb (fun t => now p + d <=? timerDue t) (timers (sched_ p))
      then Some (set_now (now p + d) p) else None
  | FireTimer =>
      match earliest (timers (sched_ p)) with
      | None => None
      | Some t =>
          let p := set_now (Nat.max (now p) (timerDue t)) p in
          let p := map_sched (fun s =>
                     mkSched (List.filter (fun u => negb (timerId u =? timerId t)) (timers s))
                       (nextTimerId s) (convertTimer s) (copyTimer s)) p in
          Some (runListener (vSetStatus ver (timerStatus t)) p)
      end
  end.

(** A run of events; [None] if one of them cannot happen. *)
Fixpoint runEvents (ver : version) (evs : list event) (p : page) : option page :=
  match evs with
  | [] => Some p
  | ev :: evs => match stepPage ver ev p with Some q => runEvents ver evs q | None => None end
  end.

(** The script's last lines: [inputEl.value = ""; doConvert();]. *)
Definition load (ver : version) (p : page) : page :=
  runListener (modify (set_input []);; doConvert ver) p.

Definition ustep (ver : version) (p q : page) : Prop := exists ev, stepPage ver ev p = Some q.

(** The pages the user can reach after the script loaded on page [p0]. *)
Definition reachable (ver : version) (p0 p : page) : Prop := rtc (ustep ver) (load ver p0) p.

(** * What the handlers rely on: the laws of a version

    Both versions' [setStatus] write the status line when [#status]
    exists; without it part_000's does nothing and [src/app.js]'s throws,
    leaving the page as it was.  Both converters map the empty input to
    the empty output. *)
Class StatusLaws (ver : version) : Prop := {
  status_present t p s : statusEl p = Some s -> vSetStatus ver t p = Ok tt (set_statusEl (Some t) p);
  status_absent t p : statusEl p = None -> vSetStatus ver t p = Ok tt p \/ vSetStatus ver t p = Thrown p;
  convert_nil : vConvert ver [] = []
}.

#[export] Instance current_laws : StatusLaws current.
Proof. split; [intros t p s E; cbn; unfold setStatus, modify; by rewrite E | intros t p E; left; cbn; unfold setStatus, modify; by rewrite E | done]. Qed.

#[export] Instance legacy_laws : StatusLaws legacy.
Proof. split; [intros t p s E; cbn; unfold setStatus_v1; by rewrite E | intros t p E; right; cbn; unfold setStatus_v1; by rewrite E | done]. Qed.

(** Symbolic execution of a handler: unfold the monad, and split on the
    status element where [setStatus] is called. *)
Ltac ui_status :=
  match goal with
  | |- context [vSetStatus ?ver ?t ?q] =>
      let E := fresh "E" in
      destruct (statusEl q) eqn:E; cbn in E;
      [rewrite (status_present t q _ E) | destruct (status_absent t q E) as [-> | ->]]
  | H : context [vSetStatus ?ver ?t ?q] |- _ =>
      let E := fresh "E" in
      let Ha := fresh "Ha" in
      destruct (statusEl q) eqn:E; cbn in E;
      [rewrite (status_present t q _ E) in H
      | destruct (status_absent t q E) as [Ha | Ha]; rewrite Ha in H; clear Ha]
  end.

Ltac ui_run :=
  unfold load, runListener, menuListener, onDocKeydown, onInputKeydown, onCopySettled,
    onCopyClick, onClear, doConvert, copySucceeded, copyFailed, openMenu, closeMenu,
    withMenu, set_convertTimer, set_copyTimer, setTimeout, clearTimeout, tryCatch,
    bind, gets, modify, ret, throw, final in *;
  cbn -[vSetStatus] in *;
  repeat (first [ui_status | case_match]; simplify_eq; cbn -[vSetStatus] in * ).

(** Closes the leaves [ui_run] leaves: two equations on the same
    scrutinee are merged, contradictory ones discharged. *)
Ltac ui_close :=
  intros;
  repeat match goal with
  | H1 : ?x = Some ?a, H2 : ?x = Some ?b |- _ => rewrite H1 in H2; injection H2 as H2; subst b
  end;
  simplify_eq;
  first [congruence | tauto | (cbn in *; tauto) | (intros; left; reflexivity)
        | (intros; right; reflexivity)].

(** Reachable pages satisfy what the load establishes and every step keeps. *)
Lemma reachable_ind ver (P : page -> Prop) p0 :
  P (load ver p0) -> (forall ev p q, stepPage ver ev p = Some q -> P p -> P q) ->
  forall p, reachable ver p0 p -> P p.
Proof.
  intros H0 Hs p Hr. unfold reachable in Hr.
  induction Hr as [|p q r [ev Hev] _ IH]; [done|]. eauto.
Qed.

(** ** The menu *)

Definition menuOpen : menuState := mkMenu true false "true" "false" "hidden".
Definition menuClosed : menuState := mkMenu false true "false" "true" "".

(** The panel, the overlay, the two ARIA attributes and the page scroll
    agree: the menu is either fully open or fully closed. *)
Definition menuOk (p : page) : Prop :=
  match menu p with None => True | Some m => m = menuOpen \/ m = menuClosed end.

Lemma menuOk_step ver `{!StatusLaws ver} ev p q :
  stepPage ver ev p = Some q -> menuOk p -> menuOk q.
Proof.
  unfold menuOk. destruct ev; cbn -[vSetStatus]; intros Hs; simplify_eq; ui_run; ui_close.
Qed.

(** ** What the page shows and copies *)

(** A text the version's converter can produce. *)
Definition converted (ver : version) (o : list ascii) : Prop := exists x, o = vConvert ver x.

(** The output, every write in flight and the clipboard (unless it still
    holds what it held before the page loaded) are converter outputs. *)
Definition shownOk (ver : version) (c0 : list ascii) (p : page) : Prop :=
  converted ver (outputText p) /\ Forall (converted ver) (pendingWrites (clip_ p))
  /\ (clipboard (clip_ p) = c0 \/ converted ver (clipboard (clip_ p))).

Lemma converted_nil ver `{!StatusLaws ver} : converted ver [].
Proof. exists []. by rewrite convert_nil. Qed.

Lemma converted_input ver v : converted ver (vConvert ver v).
Proof. by exists v. Qed.

#[export] Hint Resolve converted_nil converted_input : naamrot.

Lemma shownOk_step ver `{!StatusLaws ver} c0 ev p q :
  stepPage ver ev p = Some q -> shownOk ver c0 p -> shownOk ver c0 q.
Proof.
  unfold shownOk. destruct ev; cbn -[vSetStatus]; intros Hs; simplify_eq; ui_run;
    intros (Ho & Hw & Hc); split_and!; eauto with naamrot;
    rewrite ?Forall_app, ?Forall_singleton; auto using Forall_delete;
    right; by eapply Forall_lookup_1.
Qed.

(** ** The status line and its timers *)

Lemma earliest_in ts t : earliest ts = Some t -> t ∈ ts.
Proof.
  revert t. induction ts as [|u ts IH]; intros t; [done|]. cbn.
  destruct (earliest ts) as [v|] eqn:E; [case_match|]; intros [= <-];
    [right; by apply IH | left | left].
Qed.

(** The timer [FireTimer] runs is due no later than any other. *)
Lemma earliest_min ts t : earliest ts = Some t -> Forall (fun u => timerDue t <= timerDue u) ts.
Proof.
  revert t. induction ts as [|u ts IH]; intros t; [done|]. cbn [earliest].
  destruct (earliest ts) as [v|] eqn:E.
  - specialize (IH v eq_refl). destruct (timerDue v <? timerDue u) eqn:Hlt; intros [= <-].
    + apply Nat.ltb_lt in Hlt. constructor; [lia | exact IH].
    + apply Nat.ltb_ge in Hlt. constructor; [lia|].
      eapply Forall_impl; [exact IH | cbn; intros; lia].
  - intros [= <-]. destruct ts; [by constructor|]. cbn in E. by destruct (earliest ts); [case_match|].
Qed.

Lemma earliest_some ts : ts <> [] -> exists t, earliest ts = Some t.
Proof. destruct ts as [|u ts]; [done|]. cbn. destruct (earliest ts); [case_match|]; eauto. Qed.

(** Every pending timer resets the status to READY, and a status other
    than READY has a timer pending (or there is no status line). *)
Definition statusOk (p : page) : Prop :=
  Forall (fun t => timerStatus t = "READY") (timers (sched_ p))
  /\ (statusEl p = None \/ statusEl p = Some "READY" \/ timers (sched_ p) <> []).

Lemma statusOk_step ver `{!StatusLaws ver} ev p q :
  stepPage ver ev p = Some q -> statusOk p -> statusOk q.
Proof.
  unfold statusOk. destruct ev; cbn -[vSetStatus]; intros Hs; simplify_eq; ui_run;
    intros (Ht & Hst); split; rewrite ?Forall_app, ?Forall_singleton;
    auto using Forall_filter_bool;
    first [right; right; by intros [_ ?]%app_eq_nil
          | right; left; f_equal; rewrite Forall_forall in Ht; by apply Ht, earliest_in].
Qed.

(** Timer ids are fresh: every pending timer and both recorded ids are
    below the next id, and [doConvert._t] and [$("copy")._t] never name
    the same timer. *)
Definition idsOk (p : page) : Prop :=
  Forall (fun t => timerId t < nextTimerId (sched_ p)) (timers (sched_ p))
  /\ (forall i, convertTimer (sched_ p) = Some i -> i < nextTimerId (sched_ p))
  /\ (forall i, copyTimer (sched_ p) = Some i -> i < nextTimerId (sched_ p))
  /\ (forall i, convertTimer (sched_ p) = Some i -> copyTimer (sched_ p) <> Some i).

(** Closes the goals [ui_run] leaves on [idsOk]: the recorded ids are
    below the next id, the new timer's id is the next id. *)
Ltac ids_close :=
  rewrite ?Forall_app, ?Forall_singleton; repeat split;
  try (apply Forall_filter_bool); try (eapply Forall_impl; [eassumption | cbn; intros; lia]);
  cbn; try lia;
  intros; try intro; repeat match goal with
    | Hf : forall j, Some ?a = Some j -> _ |- _ => specialize (Hf a eq_refl)
    | H : ?x = Some ?i, Hf : forall j, ?x = Some j -> _ |- _ => specialize (Hf i H)
    end; simplify_eq; try lia.

Lemma idsOk_step ver `{!StatusLaws ver} ev p q :
  stepPage ver ev p = Some q -> idsOk p -> idsOk q.
Proof.
  unfold idsOk. destruct ev; cbn -[vSetStatus]; intros Hs; simplify_eq; ui_run;
    intros (Ht & Hcv & Hcp & Hd); split_and!; ids_close.
Qed.

Lemma load_idsOk ver `{!StatusLaws ver} p0 : idsOk p0 -> idsOk (load ver p0).
Proof. unfold idsOk. ui_run; intros (Ht & Hcv & Hcp & Hd); split_and!; ids_close. Qed.

(** ** Liveness: once the user stops, the status line returns to READY *)

(** The steps the browser takes by itself: a timer fires or a clipboard
    write settles. *)
Definition settles (ver : version) (p q : page) : Prop :=
  stepPage ver FireTimer p = Some q \/ exists k ok, stepPage ver (CopySettled k ok) p = Some q.

Lemma setStatus_frame ver `{!StatusLaws ver} t p :
  sched_ (runListener (vSetStatus ver t) p) = sched_ p
  /\ clip_ (runListener (vSetStatus ver t) p) = clip_ p
  /\ (statusEl p = None -> statusEl (runListener (vSetStatus ver t) p) = None).
Proof.
  unfold runListener. destruct (statusEl p) eqn:E;
    [rewrite (status_present t p _ E) | destruct (status_absent t p E) as [-> | ->]];
    cbn; split_and!; auto; congruence.
Qed.

Lemma fire_step ver `{!StatusLaws ver} p :
  timers (sched_ p) <> [] ->
  exists q, stepPage ver FireTimer p = Some q
    /\ length (timers (sched_ q)) < length (timers (sched_ p))
    /\ pendingWrites (clip_ q) = pendingWrites (clip_ p).
Proof.
  intros [t Ht]%earliest_some. eexists; split; [cbn; rewrite Ht; reflexivity|].
  destruct (setStatus_frame ver (timerStatus t)
    (map_sched (fun s => mkSched (List.filter (fun u => negb (timerId u =? timerId t)) (timers s))
       (nextTimerId s) (convertTimer s) (copyTimer s)) (set_now (Nat.max (now p) (timerDue t)) p)))
    as (-> & -> & _).
  split; [|done]. cbn. apply (length_filter_lt _ _ t); [by apply list_elem_of_In, earliest_in|].
  by rewrite Nat.eqb_refl.
Qed.

Lemma settle_step ver `{!StatusLaws ver} p :
  pendingWrites (clip_ p) <> [] ->
  exists q, stepPage ver (CopySettled 0 false) p = Some q
    /\ length (pendingWrites (clip_ q)) < length (pendingWrites (clip_ p)).
Proof.
  intros Hw. destruct (pendingWrites (clip_ p)) as [|w ws] eqn:E; [done|].
  eexists; split; [cbn -[vSetStatus]; rewrite E; reflexivity|].
  ui_run; rewrite ?E in *; simplify_eq; cbn; lia.
Qed.

Lemma fire_all ver `{!StatusLaws ver} p :
  statusOk p ->
  exists q, rtc (settles ver) p q /\ timers (sched_ q) = []
    /\ pendingWrites (clip_ q) = pendingWrites (clip_ p)
    /\ (statusEl q = None \/ statusEl q = Some "READY").
Proof.
  induction p as [p IH] using (induction_ltof1 _ (fun p => length (timers (sched_ p)))).
  intros Hok. destruct (decide (timers (sched_ p) = [])) as [Hn|Hn].
  - exists p. destruct Hok as [_ [Hst|[Hst|Hst]]]; split_and!; auto; done.
  - destruct (fire_step ver p Hn) as (q & Hq & Hlt & Hw).
    destruct (IH q Hlt (statusOk_step ver _ _ _ Hq Hok)) as (r & Hr & Ht & Hw' & Hs).
    exists r. split_and!; [eapply rtc_l; [left; exact Hq | exact Hr] | done | congruence | done].
Qed.

Lemma settle_all ver `{!StatusLaws ver} p :
  statusOk p -> exists q, rtc (settles ver) p q /\ pendingWrites (clip_ q) = [] /\ statusOk q.
Proof.
  induction p as [p IH] using (induction_ltof1 _ (fun p => length (pendingWrites (clip_ p)))).
  intros Hok. destruct (decide (pendingWrites (clip_ p) = [])) as [Hn|Hn]; [by exists p|].
  destruct (settle_step ver p Hn) as (q & Hq & Hlt).
  destruct (IH q Hlt (statusOk_step ver _ _ _ Hq Hok)) as (r & Hr & Hw & Hr').
  exists r. split_and!; [eapply rtc_l; [right; eauto | exact Hr] | done | done].
Qed.

Lemma load_statusOk ver `{!StatusLaws ver} p0 :
  timers (sched_ p0) = [] -> statusOk (load ver p0).
Proof.
  intros H0. unfold statusOk. ui_run; rewrite ?H0; cbn; split; auto;
    right; right; by intros [_ ?]%app_eq_nil.
Qed.

(** ** Theorems *)

(** The page as the HTML gives it, before the script ran: no timer and no
    clipboard write pending. *)
Definition fresh (p0 : page) : Prop :=
  timers (sched_ p0) = [] /\ pendingWrites (clip_ p0) = [].

Lemma load_menuOk ver `{!StatusLaws ver} p0 : menuOk p0 -> menuOk (load ver p0).
Proof. unfold menuOk. ui_run; ui_close. Qed.

Lemma load_shownOk ver `{!StatusLaws ver} p0 :
  pendingWrites (clip_ p0) = [] -> shownOk ver (clipboard (clip_ p0)) (load ver p0).
Proof. intros Hw. unfold shownOk. ui_run; rewrite ?Hw; split_and!; eauto with naamrot. Qed.

(** C31. The hamburger menu is always either fully open or fully closed:
    the [open] class, the overlay, [aria-expanded], [aria-hidden] and the
    page scroll never disagree, whatever the user does, in either version,
    provided the HTML starts consistent. *)
Theorem menu_consistent ver `{!StatusLaws ver} p0 p :
  menuOk p0 -> reachable ver p0 p -> menuOk p.
Proof.
  intros H0. revert p. apply reachable_ind; [by apply load_menuOk|]. intros ev q r. by apply menuOk_step.
Qed.

(** C29. The page only ever shows and copies converter output: the output
    pane always holds [convertText] of some text, and the clipboard holds
    either what it held before or such an output. *)
Theorem output_is_converted ver `{!StatusLaws ver} p0 p :
  fresh p0 -> reachable ver p0 p ->
  converted ver (outputText p)
  /\ (clipboard (clip_ p) = clipboard (clip_ p0) \/ converted ver (clipboard (clip_ p))).
Proof.
  intros [_ Hw] Hr. enough (H : shownOk ver (clipboard (clip_ p0)) p) by (destruct H as (? & _ & ?); done).
  revert p Hr. apply reachable_ind; [by apply load_shownOk|]. intros ev q r. by apply shownOk_step.
Qed.

(** C30. Liveness of the status line: from any page the user can reach,
    the browser alone (clipboard writes settling, timers firing) reaches a
    page with nothing pending whose status line reads READY (or that has
    no status line). *)
Theorem status_eventually_ready ver `{!StatusLaws ver} p0 p :
  fresh p0 -> reachable ver p0 p ->
  exists q, rtc (settles ver) p q /\ timers (sched_ q) = [] /\ pendingWrites (clip_ q) = []
    /\ (statusEl q = None \/ statusEl q = Some "READY").
Proof.
  intros [Ht _] Hr.
  assert (Hok : statusOk p).
  { revert p Hr. apply reachable_ind; [by apply load_statusOk|]. intros ev q r. by apply statusOk_step. }
  destruct (settle_all ver p Hok) as (q & Hq & Hw & Hok').
  destruct (fire_all ver q Hok') as (r & Hr' & Ht' & Hw' & Hs).
  exists r. split_and!; [by etrans | done | congruence | done].
Qed.

(** C32. Error path of [src/app.js]: without a [#status] element its
    [setStatus] throws, so Convert still updates the output but the
    handler stops there and schedules no timer; part_000's guard avoids
    the exception. *)
Theorem legacy_convert_without_status p :
  statusEl p = None ->
  stepPage legacy ClickConvert p = Some (set_output (convertText_v1 (inputValue p)) p).
Proof. destruct p; cbn. by intros ->. Qed.

(** C34. Ctrl+Enter or Cmd+Enter in the input box does exactly what the
    Convert button does (the document's listener ignores Enter). *)
Theorem ctrl_enter_converts ver ctrl meta p :
  (ctrl || meta) = true ->
  stepPage ver (KeyDown true ctrl meta "Enter") p = stepPage ver ClickConvert p.
Proof.
  intros H. cbn -[doConvert]. unfold onInputKeydown, onDocKeydown. rewrite H, andb_false_r.
  cbn -[doConvert]. unfold runListener. by destruct (doConvert ver p).
Qed.

(** Escape closes the menu from any state, wherever the key is
    pressed (part_000; the input's listener ignores Escape). *)
Theorem escape_closes_menu onInput ctrl meta p m :
  menu p = Some m ->
  stepPage current (KeyDown onInput ctrl meta "Escape") p = Some (set_menu (Some menuClosed) p).
Proof.
  intros H. destruct p; cbn in *; subst. by destruct onInput, ctrl, meta.
Qed.

(** A page as the HTML gives it, with or without [#status] and
    [navigator.clipboard]. *)
Definition htmlPage (status : option string) (api : bool) : page :=
  mkPage 0 [] false [] status (mkSched [] 0 None None) (mkClip api [] []) (Some menuClosed).

Lemma idsOk_htmlPage st api : idsOk (htmlPage st api).
Proof. split_and!; [constructor | discriminate..]. Qed.

(** The invariants of the pages the user can reach from an HTML page. *)
Lemma reachable_ok ver `{!StatusLaws ver} p0 p :
  fresh p0 -> idsOk p0 -> reachable ver p0 p -> statusOk p /\ idsOk p.
Proof.
  intros [Ht _] Hi. revert p. apply (reachable_ind ver (fun p => statusOk p /\ idsOk p)); [split; [by apply load_statusOk | by apply load_idsOk]|].
  intros ev q r Hs [Hq Hq']. split; [by eapply statusOk_step | by eapply idsOk_step].
Qed.

(** C35. The status timers interfere (part_000, lines 434-462): on any
    page the user can reach where Convert's READY timer is pending, due at
    [T] with [now <= T < now + 900], a successful Copy shows COPIED and
    schedules its own timer for [now + 900]; but Convert's timer, which
    Copy does not clear, fires first and resets the line to READY at [T],
    while Copy's timer stays pending.  COPIED is shown [T - now] ms, less
    than the 900 ms the Copy handler asks for. *)
Theorem status_timers_interfere p0 p t s :
  fresh p0 -> idsOk p0 -> reachable current p0 p ->
  statusEl p = Some s -> clipboardApi (clip_ p) = true -> pendingWrites (clip_ p) = [] ->
  timers (sched_ p) = [t] -> convertTimer (sched_ p) = Some (timerId t) ->
  now p <= timerDue t < now p + 900 ->
  exists q r,
    runEvents current [ClickCopy; CopySettled 0 true] p = Some q /\ statusEl q = Some "COPIED"
    /\ stepPage current FireTimer q = Some r /\ now r = timerDue t /\ statusEl r = Some "READY"
    /\ timers (sched_ r) = [mkTimer (nextTimerId (sched_ p)) (now p + 900) "READY"].
Proof.
  intros Hf Hi Hr Hs Ha Hw Ht Hc Hd.
  destruct (reachable_ok current p0 p Hf Hi Hr) as [[Hst _] (Hid & _ & _ & Hdis)].
  destruct p as [n v f o st [ts nid ct cp] [api pw cb] m]; cbn in *; subst.
  specialize (Hdis _ eq_refl). inversion Hst as [|? ? Htr _]; inversion Hid as [|? ? Hlt _]; subst.
  assert (Hn : (nid =? timerId t) = false) by (apply Nat.eqb_neq; lia).
  assert (Hl : (n + 900 <? timerDue t) = false) by (apply Nat.ltb_ge; lia).
  assert (Hj : forall j, cp = Some j -> (timerId t =? j) = false)
    by (intros j Hj; apply Nat.eqb_neq; congruence).
  destruct cp as [j|]; [pose proof (Hj j eq_refl) as Hjf|]; clear Hj;
    do 2 eexists; split_and!; try reflexivity; cbn -[Nat.ltb Nat.eqb]; rewrite ?Hjf, ?Hl;
    cbn -[Nat.ltb Nat.eqb]; rewrite ?Hl; try reflexivity;
    do 3 (cbn -[Nat.eqb]; rewrite ?Nat.eqb_refl, ?Hn, ?Hjf, ?Htr); try lia; reflexivity.
Qed.

(** Timer ids stay fresh on every page the user can reach. *)
Lemma reachable_idsOk ver `{!StatusLaws ver} p0 p : idsOk p0 -> reachable ver p0 p -> idsOk p.
Proof. intros Hi. revert p. apply reachable_ind; [by apply load_idsOk | intros ev q r; by apply idsOk_step]. Qed.

(** C36. The timer of a failed Copy can never be cleared (part_000,
    lines 463-466): on any page the user can reach, without
    [navigator.clipboard], Copy shows COPY FAILED and schedules a READY
    timer for [now + 1200] whose id the handler does not keep; a Convert
    right after it, which clears "its" status timer, leaves that timer
    pending, so CONVERTED is reset to READY by the failure's timer. *)
Theorem copy_failed_timer_uncleared p0 p s :
  idsOk p0 -> reachable current p0 p ->
  statusEl p = Some s -> clipboardApi (clip_ p) = false ->
  exists q, runEvents current [ClickCopy; ClickConvert] p = Some q
    /\ statusEl q = Some "CONVERTED"
    /\ mkTimer (nextTimerId (sched_ p)) (now p + 1200) "READY" ∈ timers (sched_ q).
Proof.
  intros Hi Hr Hs Ha. destruct (reachable_idsOk current p0 p Hi Hr) as (_ & Hcv & _).
  destruct p as [n v f o st [ts nid ct cp] [api pw cb] m]; cbn in *; subst.
  eexists; split_and!; [reflexivity | reflexivity |]. cbn -[Nat.eqb].
  apply elem_of_app; left. destruct ct as [i|]; [|set_solver].
  specialize (Hcv i eq_refl). apply list_elem_of_In, filter_In.
  split; [apply in_or_app; right; by left | cbn -[Nat.eqb]; by rewrite (proj2 (Nat.eqb_neq nid i)) by lia].
Qed.


(** The page after the user typed "hello", clicked Convert at 0 and
    waited 500 ms: Convert's timer (id 1) is due at 900. *)
Lemma status_timers_interfere_witness :
  let p0 := htmlPage (Some "") true in
  let p := set_now 500 (runListener (doConvert current) (set_input ⟦"hello"⟧ (load current p0))) in
  exists q r,
    runEvents current [ClickCopy; CopySettled 0 true] p = Some q /\ statusEl q = Some "COPIED"
    /\ stepPage current FireTimer q = Some r /\ now r = timerDue (mkTimer 1 900 "READY")
    /\ statusEl r = Some "READY"
    /\ timers (sched_ r) = [mkTimer (nextTimerId (sched_ p)) (now p + 900) "READY"].
Proof.
  apply (status_timers_interfere (htmlPage (Some "") true) _ (mkTimer 1 900 "READY") "CONVERTED");
    [split; reflexivity | apply idsOk_htmlPage | | vm_compute; first [reflexivity | lia]..].
  eapply rtc_l; [exists (Edit ⟦"hello"⟧); vm_compute; reflexivity|].
  eapply rtc_l; [exists ClickConvert; vm_compute; reflexivity|].
  eapply rtc_l; [exists (Wait 500); vm_compute; reflexivity | apply rtc_refl].
Defined.

(** Right after the script loaded, without [navigator.clipboard]. *)
Lemma copy_failed_timer_uncleared_witness :
  let p := load current (htmlPage (Some "") false) in
  exists q, runEvents current [ClickCopy; ClickConvert] p = Some q
    /\ statusEl q = Some "CONVERTED"
    /\ mkTimer (nextTimerId (sched_ p)) (now p + 1200) "READY" ∈ timers (sched_ q).
Proof.
  apply (copy_failed_timer_uncleared (htmlPage (Some "") false) _ "CONVERTED");
    [apply idsOk_htmlPage | apply rtc_refl | vm_compute; reflexivity..].
Defined.

(** [#status] is absent. *)
Lemma legacy_convert_without_status_witness :
  stepPage legacy ClickConvert (htmlPage None true)
  = Some (set_output (convertText_v1 (inputValue (htmlPage None true))) (htmlPage None true)).
Proof. apply legacy_convert_without_status. reflexivity. Defined.

Lemma ctrl_enter_converts_witness :
  stepPage current (KeyDown true true false "Enter") (htmlPage (Some "") true)
  = stepPage current ClickConvert (htmlPage (Some "") true).
Proof. apply ctrl_enter_converts. reflexivity. Defined.

Lemma escape_closes_menu_witness :
  stepPage current (KeyDown false false false "Escape") (set_menu (Some menuOpen) (htmlPage None true))
  = Some (set_menu (Some menuClosed) (set_menu (Some menuOpen) (htmlPage None true))).
Proof. apply (escape_closes_menu _ _ _ _ menuOpen). reflexivity. Defined.

(** After the user opened the menu. *)
Lemma menu_consistent_witness :
  menuOk (runListener (menuListener current openMenu) (load current (htmlPage (Some "") true))).
Proof.
  apply (menu_consistent current (htmlPage (Some "") true)); [vm_compute; right; reflexivity|].
  eapply rtc_l; [exists ClickMenu; reflexivity | apply rtc_refl].
Defined.

(** After the user typed "hello" and clicked Convert. *)
Lemma output_is_converted_witness :
  let p0 := htmlPage (Some "") true in
  let p := runListener (doConvert current) (set_input ⟦"hello"⟧ (load current p0)) in
  converted current (outputText p)
  /\ (clipboard (clip_ p) = clipboard (clip_ p0) \/ converted current (clipboard (clip_ p))).
Proof.
  apply (output_is_converted current (htmlPage (Some "") true)); [split; reflexivity|].
  eapply rtc_l; [exists (Edit ⟦"hello"⟧); reflexivity|].
  eapply rtc_l; [exists ClickConvert; reflexivity | apply rtc_refl].
Defined.

(** After the user clicked Copy: the write and two timers are pending. *)
Lemma status_eventually_ready_witness :
  let p := runListener (onCopyClick current) (load current (htmlPage (Some "") true)) in
  exists q, rtc (settles current) p q
    /\ timers (sched_ q) = [] /\ pendingWrites (clip_ q) = []
    /\ (statusEl q = None \/ statusEl q = Some "READY").
Proof.
  apply (status_eventually_ready current (htmlPage (Some "") true)); [split; reflexivity|].
  eapply rtc_l; [exists ClickCopy; reflexivity | apply rtc_refl].
Defined.
