(* ===== verification/Legacy.v ===== *)
(** * Legacy: the UI of [src/app.js]

    [src/app.js] (lines 344-391) wires the same handlers as part_000 but
    has no menu and a [setStatus] without the null guard of part_000
    (line 350).  Its handlers are the shared handlers of [Ui] at the
    version [legacy]; this file names them after the code and proves
    what the missing guard does to a page without a [#status] element:
    every handler throws at its first [setStatus], so no status timer is
    ever scheduled and Clear never reaches its [inputEl.focus()]. *)

From stdpp Require Import relations.
From S2P Require Import Prelude Text Ui.

(** ** The handlers of [src/app.js] *)

(** [doConvert] (lines 352-357). *)
Definition doConvert_v1 : UI unit := doConvert legacy.

(** The input's [keydown] listener (lines 361-366). *)
Definition onInputKeydown_v1 : bool -> bool -> string -> UI unit := onInputKeydown legacy.

(** The Clear button (lines 368-373). *)
Definition onClear_v1 : UI unit := onClear legacy.

(** The Copy button up to its [await] (lines 375-377), and its rest
    once the write settled: the [try] (lines 378-380) or the [catch]
    (lines 381-384). *)
Definition onCopyClick_v1 : UI unit := onCopyClick legacy.
Definition onCopySettled_v1 : nat -> bool -> UI unit := onCopySettled legacy.

(** The listeners of the page (lines 359-385): app.js registers no menu
    listener and no [keydown] listener on the document, so the menu
    events and a key pressed outside the input reach no listener.  Time
    passing and timers firing are the browser's, shared with [Ui]. *)
Definition stepPage_v1 (ev : event) (p : page) : option page :=
  match ev with
  | Edit v => Some (set_input v p)
  | ClickConvert => Some (runListener doConvert_v1 p)
  | KeyDown onInput ctrl meta key =>
      Some (if onInput then runListener (onInputKeydown_v1 ctrl meta key) p else p)
  | ClickClear => Some (runListener onClear_v1 p)
  | ClickCopy => Some (runListener onCopyClick_v1 p)
  | CopySettled k ok =>
      if bool_decide (k < length (pendingWrites (clip_ p)))
      then Some (runListener (onCopySettled_v1 k ok) p) else None
  | ClickMenu | ClickMenuClose | ClickOverlay => Some p
  | Wait _ | FireTimer => stepPage legacy ev p
  end.

(** The script's last lines (388-391): [inputEl.value = ``; doConvert();]. *)
Definition load_v1 : page -> page := load legacy.

Definition reachable_v1 (p0 p : page) : Prop := rtc (fun p q => exists ev, stepPage_v1 ev p = Some q) (load_v1 p0) p.

(** * Lemmas and theorems *)

(** Without [#status], nothing the script does shows a status, schedules a
    timer or moves the focus. *)
Definition inert (p0 p : page) : Prop :=
  statusEl p = None /\ timers (sched_ p) = [] /\ inputFocused p = inputFocused p0.

(** app.js's own listener table is the shared event loop at the version
    [legacy]: the menu code and the document's listener are inert there. *)
Lemma stepPage_v1_legacy ev p : stepPage_v1 ev p = stepPage legacy ev p.
Proof.
  destruct ev; try reflexivity; cbn; unfold runListener, menuListener; by destruct (menu p).
Qed.

Lemma inert_load p0 : statusEl p0 = None -> timers (sched_ p0) = [] -> inert p0 (load_v1 p0).
Proof. destruct p0 as [? ? ? ? st [? ? ? ?] ? ?]; cbn. intros -> ->. by split_and!. Qed.

Lemma inert_step p0 ev p q : stepPage_v1 ev p = Some q -> inert p0 p -> inert p0 q.
Proof.
  destruct p as [n v f o st [ts nid ct cp] [api pw cb] m]. unfold inert. cbn.
  intros Hs (-> & -> & <-). rewrite stepPage_v1_legacy in Hs.
  destruct ev; cbn in Hs;
    unfold runListener, menuListener, onInputKeydown, onDocKeydown, onCopySettled, onCopyClick, copyFailed,
      copySucceeded, doConvert, tryCatch, bind, gets, modify, ret, throw, final, setStatus_v1 in Hs;
    repeat (case_match; unfold setStatus_v1 in *; cbn in * ); simplify_eq; cbn; by split_and!.
Qed.

(** C33. Error path of [src/app.js] over whole runs: on a page without
    [#status] (and no timer pending when the script starts), whatever the
    user does, the status line stays absent, no status timer is ever
    scheduled (each handler throws at its first [setStatus], before its
    [setTimeout]), and the focus never moves: Clear throws before its
    [inputEl.focus()]. *)
Theorem legacy_no_status_inert p0 p :
  statusEl p0 = None -> timers (sched_ p0) = [] -> reachable_v1 p0 p ->
  statusEl p = None /\ timers (sched_ p) = [] /\ inputFocused p = inputFocused p0.
Proof.
  intros Hs Ht Hr. change (inert p0 p).
  assert (H0 : inert p0 (load_v1 p0)) by (by apply inert_load).
  unfold reachable_v1 in Hr. revert H0.
  induction Hr as [|x y z [ev Hev] _ IH]; [done|]. intros Hx. apply IH. by eapply inert_step.
Qed.

(** The user typed, converted and cleared: the input was not focused. *)
Lemma legacy_no_status_inert_witness :
  let p0 := htmlPage None true in
  let p := runListener onClear_v1 (runListener doConvert_v1 (set_input ⟦"hi"⟧ (load_v1 p0))) in
  statusEl p = None /\ timers (sched_ p) = [] /\ inputFocused p = inputFocused p0.
Proof.
  apply (legacy_no_status_inert (htmlPage None true)); [reflexivity | reflexivity|].
  eapply rtc_l; [exists (Edit ⟦"hi"⟧); reflexivity|].
  eapply rtc_l; [exists ClickConvert; reflexivity|].
  eapply rtc_l; [exists ClickClear; reflexivity | apply rtc_refl].
Defined.
